(** * hangman.c: a shallow embedding of the game-state machine

    [src/hangman.c] holds two programs.  The first one (up to line 382) is
    the draft of the game: one round, a fixed budget of six mistakes and no
    win detection.  The second one (from line 383) is the finished game:
    difficulty selection, the round loop with loss and win detection, and
    the play-again loop.  Both are a single [main]; the definitions below
    cut [main] into its stages and quote the source lines of each stage.

    Conventions of the model.
    - A [char] is an [ascii]; a buffer is the [list ascii] of its bytes,
      terminator included.  Reading or writing outside a buffer, and signed
      overflow of an [int], are undefined behaviour in C: the operations
      that could do so return [None].
    - [int] variables are [Z]; [size_t] loop counters are [nat].
    - Standard input is the list of bytes still to be read; end of input is
      the empty list.  Standard output is the list of messages printed so
      far, one constructor of [Msg] per [printf] (or run of [printf]s).
    - A loop whose every iteration reads from standard input is a
      [Fixpoint] on a fuel; the number of bytes left on standard input,
      plus one, is always enough (proved below).
    - Left out: the loading of the word file (the word list is an argument
      of [main]), a read error on standard input (the code treats it as end
      of input, with another message), and the text of the messages. *)

From Stdlib Require Import ZArith NArith Ascii String Lia.
From stdpp Require Import base option list relations strings.

Open Scope char_scope.
Open Scope Z_scope.

(** ** <ctype.h>, in the "C" locale (the program never calls setlocale)

    The letters are the 52 ASCII ones; a byte above 127 is no letter and
    [tolower] leaves it as it is. *)

Definition char_code (c : ascii) : N := N_of_ascii c.

Definition isupper (c : ascii) : bool :=
  ((65 <=? char_code c) && (char_code c <=? 90))%N.

Definition islower (c : ascii) : bool :=
  ((97 <=? char_code c) && (char_code c <=? 122))%N.

Definition isalpha (c : ascii) : bool := isupper c || islower c.

Definition isdigit (c : ascii) : bool :=
  ((48 <=? char_code c) && (char_code c <=? 57))%N.

(** space, and the controls \t \n \v \f \r *)
Definition isspace (c : ascii) : bool :=
  ((char_code c =? 32) || ((9 <=? char_code c) && (char_code c <=? 13)))%N.

Definition tolower (c : ascii) : ascii :=
  if isupper c then ascii_of_N (char_code c + 32) else c.

(** ** <string.h> on buffers *)

Definition NUL : ascii := "000".
Definition newline : ascii := "010".
Definition placeholder : ascii := "_".

(** [strlen s]: the number of bytes before the first NUL; [None] when the
    buffer holds no NUL (the scan would leave the buffer). *)
Fixpoint strlen (s : list ascii) : option nat :=
  match s with
  | [] => None
  | c :: s' => if decide (c = NUL) then Some 0%nat else S <$> strlen s'
  end.

(** [strchr s c]: [Some (Some i)] when the first [c] of the string is at
    index [i], [Some None] for the NULL pointer, [None] when the scan would
    leave the buffer.  As in C, the terminator is part of the string. *)
Fixpoint strchr (s : list ascii) (c : ascii) : option (option nat) :=
  match s with
  | [] => None
  | x :: s' =>
      if decide (x = c) then Some (Some 0%nat)
      else if decide (x = NUL) then Some None
      else match strchr s' c with
           | Some (Some i) => Some (Some (S i))
           | r => r
           end
  end.

(** [a[i] = c] for an [int] or [size_t] index [i]. *)
Definition store (a : list ascii) (i : Z) (c : ascii) : option (list ascii) :=
  if decide (0 <= i < Z.of_nat (length a))
  then Some (<[Z.to_nat i := c]> a) else None.

Definition INT_MAX : Z := 2147483647.

(** [x++] on an [int] *)
Definition int_succ (x : Z) : option Z :=
  if decide (x < INT_MAX) then Some (x + 1) else None.

(** The bytes of a string literal, without terminator. *)
Definition chars (s : string) : list ascii := list_ascii_of_string s.

(** ** The messages of both programs *)

Inductive Msg : Type :=
  | MsgDifficultyMenu                       (* 698-702 *)
  | MsgEOFExiting                           (* 709, 877 *)
  | MsgEasy | MsgMedium | MsgHard           (* 720, 725, 730 *)
  | MsgDefaultMedium                        (* 736 *)
  | MsgPressEnter                           (* 187, 574 *)
  | MsgDebugWord (word : list ascii) (maxIncorrect : Z)   (* 226-228, 744-746 *)
  | MsgScreen (incorrect maxIncorrect : Z) (display guessed : list ascii)
                                            (* 254-274, 765-778 *)
  | MsgPromptGuess                          (* 277, 780 *)
  | MsgEOFGame                              (* 288, 791 *)
  | MsgInvalidFormat                        (* 298, 801 *)
  | MsgInvalidLetter                        (* 306, 810 *)
  | MsgAlreadyGuessed (c : ascii)           (* 320, 817 *)
  | MsgProcessing (c : ascii)               (* 333-335, 828-831 *)
  | MsgIncorrect (c : ascii)                (* 346, 840 *)
  | MsgCorrect (c : ascii)                  (* 351, 845 *)
  | MsgForcedGameOver                       (* 360 *)
  | MsgGameOver (incorrect : Z)             (* 365-367, 862-865 *)
  | MsgCongratulations (word : list ascii)  (* 370, 868 *)
  | MsgSorry (word : list ascii)            (* 372, 870 *)
  | MsgPlayAgain                            (* 873 *)
  | MsgThanks.                              (* 376-380, 891-893 *)

(** ** <stdio.h> and rand() *)

Record World : Type := mkWorld {
  stdin : list ascii;       (* bytes not read yet *)
  stdout : list Msg;        (* messages printed, oldest first *)
  rng : nat -> nat          (* the values the next calls of rand() return *)
}.

Definition print (m : Msg) (w : World) : World :=
  mkWorld (stdin w) (stdout w ++ [m]) (rng w).

Definition set_stdin (input : list ascii) (w : World) : World :=
  mkWorld input (stdout w) (rng w).

Definition rand (w : World) : nat * World :=
  (rng w 0%nat, mkWorld (stdin w) (stdout w) (fun n => rng w (S n))).

(** The bytes [fgets] stores when it may read [k] more of them, and what is
    left on the stream: it stops after a newline, at end of input, or when
    the room is used up. *)
Fixpoint read_chars (k : nat) (input : list ascii) : list ascii * list ascii :=
  match k, input with
  | O, _ => ([], input)
  | S _, [] => ([], [])
  | S k', c :: rest =>
      if decide (c = newline) then ([c], rest)
      else let '(cs, rest') := read_chars k' rest in (c :: cs, rest')
  end.

(** [fgets(buf, size, stdin)]: [None] is the NULL it returns at end of
    input; otherwise the buffer holds the bytes read and the terminator
    (the bytes after it are never looked at). *)
Definition fgets (size : nat) (w : World) : option (list ascii) * World :=
  match stdin w with
  | [] => (None, w)
  | _ :: _ =>
      let '(cs, rest) := read_chars (size - 1) (stdin w) in
      (Some (cs ++ [NUL]), set_stdin rest w)
  end.

(** [while ((c = getchar()) != '\n' && c != EOF);] with [int c] (567-571) *)
Fixpoint skip_line (input : list ascii) : list ascii :=
  match input with
  | [] => []
  | c :: rest => if decide (c = newline) then rest else skip_line rest
  end.

Definition consumeRemainingInput (w : World) : World :=
  set_stdin (skip_line (stdin w)) w.

(** 573-576 *)
Definition pauseForUser (w : World) : World :=
  consumeRemainingInput (print MsgPressEnter w).

(** [sscanf(s, "%d", &x)]: white space, an optional sign, decimal digits.
    [None] when no digit is there: nothing is stored.  The buffers of this
    program hold at most nine bytes, so the value always fits an [int]. *)
Fixpoint skip_space (s : list ascii) : list ascii :=
  match s with
  | c :: s' => if isspace c then skip_space s' else s
  | [] => []
  end.

Definition digit_value (c : ascii) : Z := Z.of_N (char_code c) - 48.

Fixpoint scan_digits (acc : Z) (s : list ascii) : Z :=
  match s with
  | c :: s' => if isdigit c then scan_digits (10 * acc + digit_value c) s' else acc
  | [] => acc
  end.

Definition scan_unsigned (s : list ascii) : option Z :=
  match s with
  | c :: _ => if isdigit c then Some (scan_digits 0 s) else None
  | [] => None
  end.

Definition sscanf_d (s : list ascii) : option Z :=
  match skip_space s with
  | c :: s' =>
      if decide (c = "-") then Z.opp <$> scan_unsigned s'
      else if decide (c = "+") then scan_unsigned s'
      else scan_unsigned (c :: s')
  | [] => None
  end.

(** ** The state of a round (locals of [main], 742-760 and 224-242) *)

Definition INPUT_BUFFER_SIZE : nat := 10.
Definition ALPHABET_SIZE : nat := 26.
Definition MAX_INCORRECT_GUESSES : Z := 6.
Definition EASY_GUESSES : Z := 8.
Definition MEDIUM_GUESSES : Z := 6.
Definition HARD_GUESSES : Z := 4.

Record Round : Type := mkRound {
  secretWord : list ascii;       (* the bytes of the word before its terminator *)
  maxIncorrectGuesses : Z;
  incorrectGuesses : Z;
  displayWord : list ascii;      (* char displayWord[wordLength + 1] *)
  guessedLetters : list ascii;   (* char guessedLetters[ALPHABET_SIZE + 1] *)
  numGuessedLetters : Z;
  gameOver : bool;
  playerWon : bool
}.

(** [size_t wordLength = strlen(secretWord)] *)
Definition wordLength (st : Round) : nat := length (secretWord st).

(** 748-760: the placeholders and their terminator, [guessedLetters = {0}] *)
Definition init_round (word : list ascii) (maxIncorrect : Z) : Round :=
  {| secretWord := word;
     maxIncorrectGuesses := maxIncorrect;
     incorrectGuesses := 0;
     displayWord := replicate (length word) placeholder ++ [NUL];
     guessedLetters := replicate (ALPHABET_SIZE + 1) NUL;
     numGuessedLetters := 0;
     gameOver := false;
     playerWon := false |}.

Definition set_gameOver (st : Round) : Round :=
  mkRound (secretWord st) (maxIncorrectGuesses st) (incorrectGuesses st)
          (displayWord st) (guessedLetters st) (numGuessedLetters st)
          true (playerWon st).

Definition set_outcome (won : bool) (st : Round) : Round :=
  mkRound (secretWord st) (maxIncorrectGuesses st) (incorrectGuesses st)
          (displayWord st) (guessedLetters st) (numGuessedLetters st)
          true won.

(** How the code after the loop reads the two flags (867-871). *)
Inductive Status : Type := InProgress | Won | Lost.

Definition status (st : Round) : Status :=
  if gameOver st then (if playerWon st then Won else Lost) else InProgress.

(** ** One guess (800-859; the draft has the same text at 297-352) *)

Inductive GuessError : Type :=
  | InvalidFormatError | InvalidLetterError | DuplicateGuessError.

Inductive TurnResult : Type :=
  | Rejected (e : GuessError)
  | Applied (correctGuess : bool).

(** 800-814: the line as [fgets] stored it must be two bytes long, and the
    first one, lowered, must be a letter. *)
Definition validate_guess (inputBuffer : list ascii) : option (GuessError + ascii) :=
  n ← strlen inputBuffer;
  if decide (n ≠ 2%nat) then Some (inl InvalidFormatError)
  else
    c ← inputBuffer !! 0%nat;
    let currentGuess := tolower c in
    if negb (isalpha currentGuess) then Some (inl InvalidLetterError)
    else Some (inr currentGuess).

(** 832-837: [n] iterations are left, the next one is at index [i]. *)
Fixpoint reveal_loop (n i : nat) (word : list ascii) (currentGuess : ascii)
    (display : list ascii) (correctGuess : bool) : option (list ascii * bool) :=
  match n with
  | O => Some (display, correctGuess)
  | S n' =>
      c ← word !! i;
      if decide (c = currentGuess) then
        display' ← store display (Z.of_nat i) currentGuess;
        reveal_loop n' (S i) word currentGuess display' true
      else reveal_loop n' (S i) word currentGuess display correctGuess
  end.

(** 816-848: the duplicate check, the append to [guessedLetters], the
    reveal loop and the mistake counter. *)
Definition apply_guess (st : Round) (currentGuess : ascii)
    : option (Round * TurnResult * list Msg) :=
  found ← strchr (guessedLetters st) currentGuess;
  match found with
  | Some _ => Some (st, Rejected DuplicateGuessError, [MsgAlreadyGuessed currentGuess])
  | None =>
      guessed1 ← store (guessedLetters st) (numGuessedLetters st) currentGuess;
      num ← int_succ (numGuessedLetters st);
      guessed2 ← store guessed1 num NUL;
      '(display, correctGuess) ←
        reveal_loop (wordLength st) 0 (secretWord st) currentGuess
                    (displayWord st) false;
      incorrect ← (if correctGuess then Some (incorrectGuesses st)
                   else int_succ (incorrectGuesses st));
      Some (mkRound (secretWord st) (maxIncorrectGuesses st) incorrect
                    display guessed2 num (gameOver st) (playerWon st),
            Applied correctGuess,
            [MsgProcessing currentGuess;
             if correctGuess then MsgCorrect currentGuess
             else MsgIncorrect currentGuess])
  end.

(** 850-859: the loss test comes first, then the win test. *)
Definition check_game_over (st : Round) : option Round :=
  if decide (incorrectGuesses st = maxIncorrectGuesses st) then
    Some (set_outcome false st)
  else
    found ← strchr (displayWord st) placeholder;
    match found with
    | None => Some (set_outcome true st)
    | Some _ => Some st
    end.

(** 800-859 on the buffer [fgets] filled: a rejected line leaves by
    [continue], before the game-over test. *)
Definition guess_step (st : Round) (inputBuffer : list ascii)
    : option (Round * TurnResult * list Msg) :=
  v ← validate_guess inputBuffer;
  match v with
  | inl InvalidLetterError => Some (st, Rejected InvalidLetterError, [MsgInvalidLetter])
  | inl e => Some (st, Rejected e, [MsgInvalidFormat])
  | inr currentGuess =>
      '(st1, r, out) ← apply_guess st currentGuess;
      match r with
      | Rejected _ => Some (st1, r, out)
      | Applied _ => st2 ← check_game_over st1; Some (st2, r, out)
      end
  end.

Definition prints (ms : list Msg) (w : World) : World :=
  mkWorld (stdin w) (stdout w ++ ms) (rng w).

Definition screen (st : Round) : Msg :=
  MsgScreen (incorrectGuesses st) (maxIncorrectGuesses st)
            (displayWord st) (guessedLetters st).

(** ** The finished game (670-895) *)

(** 765-860, one iteration of [while (!gameOver)]. *)
Definition turn (st : Round) (w : World) : option (Round * World) :=
  let w := print MsgPromptGuess (print (screen st) w) in
  match fgets INPUT_BUFFER_SIZE w with
  | (None, w) => Some (set_gameOver st, print MsgEOFGame w)
  | (Some inputBuffer, w) =>
      '(st', r, out) ← guess_step st inputBuffer;
      match r with
      | Rejected _ => Some (st', pauseForUser (prints out w))
      | Applied _ => Some (st', prints out w)
      end
  end.

(** 764-861.  [None]: undefined behaviour, or the fuel ran out. *)
Fixpoint round_loop (fuel : nat) (st : Round) (w : World) : option (Round * World) :=
  if gameOver st then Some (st, w)
  else match fuel with
       | O => None
       | S fuel' => '(st', w') ← turn st w; round_loop fuel' st' w'
       end.

(** 716-739 *)
Definition select_difficulty (difficultyBuffer : list ascii) : Z * Msg :=
  let difficultyChoice := default (-1) (sscanf_d difficultyBuffer) in
  match difficultyChoice with
  | 1 => (EASY_GUESSES, MsgEasy)
  | 2 => (MEDIUM_GUESSES, MsgMedium)
  | 3 => (HARD_GUESSES, MsgHard)
  | _ => (MEDIUM_GUESSES, MsgDefaultMedium)
  end.

(** 862-871 *)
Definition final_message (st : Round) : Msg :=
  if playerWon st then MsgCongratulations (secretWord st)
  else MsgSorry (secretWord st).

(** 873-888: the value of [playAgain] after the prompt. *)
Definition play_again (w : World) : option (ascii * World) :=
  let w := print MsgPlayAgain w in
  match fgets INPUT_BUFFER_SIZE w with
  | (None, w) => Some ("n", print MsgEOFExiting w)
  | (Some responseBuffer, w) =>
      n ← strlen responseBuffer;
      if decide (0 < n)%nat then
        c ← responseBuffer !! 0%nat; Some (tolower c, w)
      else Some ("n", w)
  end.

(** 742-871: one round, from the choice of the word to the final message. *)
Definition play_round (wordList : list (list ascii)) (maxIncorrect : Z) (w : World)
    : option (Round * World) :=
  let '(r, w) := rand w in
  let randomIndex := (r mod length wordList)%nat in
  word ← wordList !! randomIndex;
  let w := print (MsgDebugWord word maxIncorrect) w in
  '(st, w) ← round_loop (S (length (stdin w))) (init_round word maxIncorrect) w;
  let w := print (MsgGameOver (incorrectGuesses st)) w in
  Some (st, print (final_message st) w).

(** 697-888, one pass through the body of [do { ... } while]: the round
    played, if any, and the value of [playAgain].  End of input at the
    difficulty prompt leaves by [continue] with [playAgain = 'n']. *)
Definition session_body (wordList : list (list ascii)) (w : World)
    : option (option Round * ascii * World) :=
  let w := print MsgDifficultyMenu w in
  match fgets INPUT_BUFFER_SIZE w with
  | (None, w) => Some (None, "n", print MsgEOFExiting w)
  | (Some difficultyBuffer, w) =>
      let '(maxIncorrect, m) := select_difficulty difficultyBuffer in
      let w := pauseForUser (print m w) in
      '(st, w) ← play_round wordList maxIncorrect w;
      '(playAgain, w) ← play_again w;
      Some (Some st, playAgain, w)
  end.

(** 696-889, [do { ... } while (playAgain == 'y')]: the rounds played, in
    order, and the world at the end. *)
Fixpoint session (fuel : nat) (wordList : list (list ascii)) (w : World)
    : option (list Round * World) :=
  match fuel with
  | O => None
  | S fuel' =>
      '(played, playAgain, w) ← session_body wordList w;
      if decide (playAgain = "y") then
        '(rounds, w) ← session fuel' wordList w;
        Some (option_list played ++ rounds, w)
      else Some (option_list played, w)
  end.

(** 670-895.  [wordList] is what loadWords returned ([None] for NULL); the
    result is the exit code, the rounds played and the final world. *)
Definition main (wordList : option (list (list ascii))) (w : World)
    : option (Z * list Round * World) :=
  match wordList with
  | None => Some (1, [], w)
  | Some [] => Some (1, [], w)
  | Some wordList =>
      '(rounds, w) ← session (S (length (stdin w))) wordList w;
      Some (0, rounds, print MsgThanks w)
  end.

(** How a run starts: nothing printed yet. *)
Definition world_of (input : list ascii) (rands : nat -> nat) : World :=
  mkWorld input [] rands.

(** ** The draft (197-382)

    The draft validates and applies a guess with the text of the finished
    game (297-310 is 800-814, 318-352 is 816-848, apart from one more
    debugging [printf] at 338), so [validate_guess] and [apply_guess] serve
    both.  It differs in [pauseForUser], in the test that ends the game and
    in never assigning [playerWon]. *)

Module Draft.

(** [while ((discard = getchar()) != '\n' && discard != EOF);] with
    [char discard] (190-194).  Where [char] is signed the byte 255 compares
    equal to [EOF] and ends the loop as well; that is the platform modelled
    here (where [char] is unsigned the loop does not end at end of input). *)
Fixpoint skip_line (input : list ascii) : list ascii :=
  match input with
  | [] => []
  | c :: rest =>
      if decide (c = newline) then rest
      else if decide (c = "255") then rest
      else skip_line rest
  end.

(** 186-195: the rest of the line, then one more line. *)
Definition pauseForUser (w : World) : World :=
  let w := print MsgPressEnter w in
  set_stdin (skip_line (skip_line (stdin w))) w.

(** 254-363, one iteration of [while (!gameOver)].  [guessesRemaining] is
    computed before the guess is read and tested after it is applied. *)
Definition turn (st : Round) (w : World) : option (Round * World) :=
  let w := print (screen st) w in
  let guessesRemaining := MAX_INCORRECT_GUESSES - incorrectGuesses st in
  let w := print MsgPromptGuess w in
  match fgets INPUT_BUFFER_SIZE w with
  | (None, w) => Some (set_gameOver st, print MsgEOFGame w)
  | (Some inputBuffer, w) =>
      v ← validate_guess inputBuffer;
      match v with
      | inl InvalidLetterError => Some (st, pauseForUser (print MsgInvalidLetter w))
      | inl _ => Some (st, pauseForUser (print MsgInvalidFormat w))
      | inr currentGuess =>
          '(st1, r, out) ← apply_guess st currentGuess;
          match r with
          | Rejected _ => Some (st1, pauseForUser (prints out w))
          | Applied _ =>
              let w := prints out w in
              if bool_decide (guessesRemaining <= 0) && negb (gameOver st1) then
                Some (set_gameOver st1, pauseForUser (print MsgForcedGameOver w))
              else Some (st1, w)
          end
      end
  end.

(** 248-364 *)
Fixpoint game_loop (fuel : nat) (st : Round) (w : World) : option (Round * World) :=
  if gameOver st then Some (st, w)
  else match fuel with
       | O => None
       | S fuel' => '(st', w') ← turn st w; game_loop fuel' st' w'
       end.

(** 224-373: the round of the draft on a chosen word, final message included. *)
Definition play (word : list ascii) (w : World) : option (Round * World) :=
  let w := print (MsgDebugWord word MAX_INCORRECT_GUESSES) w in
  '(st, w) ← game_loop (S (length (stdin w)))
                       (init_round word MAX_INCORRECT_GUESSES) w;
  let w := print (MsgGameOver (incorrectGuesses st)) w in
  Some (st, print (final_message st) w).

(** 197-382 *)
Definition main (wordList : option (list (list ascii))) (w : World)
    : option (Z * option Round * World) :=
  match wordList with
  | None => Some (1, None, w)
  | Some [] => Some (1, None, w)
  | Some wordList =>
      let '(r, w) := rand w in
      let randomIndex := (r mod length wordList)%nat in
      word ← wordList !! randomIndex;
      '(st, w) ← play word w;
      Some (0, Some st, print MsgThanks w)
  end.

End Draft.

(** ** The words of the specification, for comparison with [validate_guess]

    "Fails with InvalidFormatError unless the trimmed input is exactly one
    character.  Fails with InvalidLetterError unless that character,
    case-folded, is an ASCII letter a-z.  On success returns the lowercased
    letter."  The input is the line without its newline; trimming removes
    the white space at both ends. *)

Definition trim (line : list ascii) : list ascii :=
  reverse (skip_space (reverse (skip_space line))).

Definition normalizeGuess_spec (rawInput : list ascii) : GuessError + ascii :=
  match trim rawInput with
  | [c] => if isalpha (tolower c) then inr (tolower c) else inl InvalidLetterError
  | _ => inl InvalidFormatError
  end.

(** The same without trimming: what the code does on a line that ends in a
    newline. *)
Definition normalizeGuess_untrimmed (line : list ascii) : GuessError + ascii :=
  match line with
  | [c] => if isalpha (tolower c) then inr (tolower c) else inl InvalidLetterError
  | _ => inl InvalidFormatError
  end.

(** ** The words of the specification, for comparison with the difficulty
    selection

    "Prompts for difficulty choice among exactly three tiers; an unparseable
    or out-of-range choice defaults to Medium (6 mistakes)", with Easy 8,
    Medium 6 and Hard 4 for the choices 1, 2 and 3.  The choice is the input
    line, without its newline.  Its number is read as [sscanf] with "%d"
    reads one from a string: leading white space, an optional sign, decimal
    digits; what follows the digits is not looked at. *)

(** The bytes of the input before its first newline. *)
Fixpoint first_line (input : list ascii) : list ascii :=
  match input with
  | [] => []
  | c :: rest => if decide (c = newline) then [] else c :: first_line rest
  end.

Definition parse_number (line : list ascii) : option Z := sscanf_d (line ++ [NUL]).

Definition selectDifficulty_spec (line : list ascii) : Z * Msg :=
  match parse_number line with
  | Some 1 => (8, MsgEasy)
  | Some 2 => (6, MsgMedium)
  | Some 3 => (4, MsgHard)
  | _ => (6, MsgDefaultMedium)
  end.

(** What 785-814 make of the next line of input: [None] at end of input
    (or on undefined behaviour), otherwise the verdict of [validate_guess]
    on what [fgets] stored. *)
Definition read_and_validate (w : World) : option (GuessError + ascii) :=
  match fgets INPUT_BUFFER_SIZE w with
  | (None, _) => None
  | (Some inputBuffer, _) => validate_guess inputBuffer
  end.

(** The messages the loop of a round prints (764-861, 248-364). *)
Definition round_msg (m : Msg) : bool :=
  match m with
  | MsgScreen _ _ _ _ | MsgPromptGuess | MsgEOFGame | MsgInvalidFormat
  | MsgInvalidLetter | MsgAlreadyGuessed _ | MsgProcessing _ | MsgIncorrect _
  | MsgCorrect _ | MsgPressEnter | MsgForcedGameOver => true
  | _ => false
  end.

(** ** Reachable states of a round of the finished game *)

(** One iteration of 764-861, whatever the line read: [None] is end of
    input, [Some inputBuffer] what [fgets] stored. *)
Definition turn_state (st : Round) (line : option (list ascii)) : option Round :=
  match line with
  | None => Some (set_gameOver st)
  | Some inputBuffer => '(st', _, _) ← guess_step st inputBuffer; Some st'
  end.

(** The letter a line gets applied: the validated guess when the turn
    applies it, nothing when the line is rejected or input ended. *)
Definition applied_letter (st : Round) (line : option (list ascii)) : list ascii :=
  match line with
  | None => []
  | Some inputBuffer =>
      match guess_step st inputBuffer, validate_guess inputBuffer with
      | Some (_, Applied _, _), Some (inr g) => [g]
      | _, _ => []
      end
  end.

(** [played word maxIncorrect gs st]: the loop of 764-861, started on
    [word], has reached [st], and [gs] are the letters it applied, in
    order. *)
Inductive played (word : list ascii) (maxIncorrect : Z)
    : list ascii → Round → Prop :=
  | played_init : played word maxIncorrect [] (init_round word maxIncorrect)
  | played_turn gs st line st' :
      played word maxIncorrect gs st →
      gameOver st = false →
      turn_state st line = Some st' →
      played word maxIncorrect (gs ++ applied_letter st line) st'.

(** The letters guessed so far, in guess order. *)
Definition guessed (st : Round) : list ascii :=
  take (Z.to_nat (numGuessedLetters st)) (guessedLetters st).

(** The buffer [fgets] fills from the line of a single character. *)
Definition line_of (c : ascii) : list ascii := [c; newline; NUL].

(** The loop of 764-861 on the lines of single characters [cs]. *)
Fixpoint play_letters (st : Round) (cs : list ascii) : option Round :=
  match cs with
  | [] => Some st
  | c :: cs' =>
      if gameOver st then Some st
      else st' ← turn_state st (Some (line_of c)); play_letters st' cs'
  end.

(** ** The invariant of a round *)

Definition alphabet : list ascii := chars "abcdefghijklmnopqrstuvwxyz".

Definition is_lower (c : ascii) : Prop := islower c = true.

(** [guessedLetters] when the letters [gs] were appended to the zeroed
    buffer. *)
Definition guessed_buffer (gs : list ascii) : list ascii :=
  gs ++ replicate (ALPHABET_SIZE + 1 - length gs) NUL.

(** What a position holding [c] shows when the letters [gs] were guessed. *)
Definition reveal (gs : list ascii) (c : ascii) : ascii :=
  if decide (c ∈ gs) then c else placeholder.

Definition pattern (word gs : list ascii) : list ascii := reveal gs <$> word.

(** The guessed letters that do not occur in the word. *)
Definition misses (word gs : list ascii) : list ascii :=
  filter (λ g, g ∉ word) gs.

Record RoundInv (word : list ascii) (maxIncorrect : Z) (gs : list ascii)
    (st : Round) : Prop := mkRoundInv {
  inv_word : secretWord st = word;
  inv_max : maxIncorrectGuesses st = maxIncorrect;
  inv_buffer : guessedLetters st = guessed_buffer gs;
  inv_num : numGuessedLetters st = Z.of_nat (length gs);
  inv_lower : Forall is_lower gs;
  inv_nodup : NoDup gs;
  inv_display : displayWord st = pattern word gs ++ [NUL];
  inv_incorrect : incorrectGuesses st = Z.of_nat (length (misses word gs));
  inv_flags : gameOver st = false → playerWon st = false;
  inv_won : playerWon st = true → placeholder ∉ pattern word gs
}.

(** The state after the new letter [g] was applied to [st] (816-848). *)
Definition applied (st : Round) (g : ascii) : Round :=
  mkRound (secretWord st) (maxIncorrectGuesses st)
          (if decide (g ∈ secretWord st) then incorrectGuesses st
           else incorrectGuesses st + 1)
          (pattern (secretWord st) (guessed st ++ [g]) ++ [NUL])
          (guessed_buffer (guessed st ++ [g]))
          (numGuessedLetters st + 1)
          (gameOver st) (playerWon st).

(** The state after the test of 850-859, for a display that is a
    terminated string. *)
Definition game_over_checked (st : Round) : Round :=
  if decide (incorrectGuesses st = maxIncorrectGuesses st) then set_outcome false st
  else if decide (placeholder ∈ displayWord st) then st
  else set_outcome true st.

(** The message of a line rejected by 800-814. *)
Definition error_message (e : GuessError) : Msg :=
  match e with
  | InvalidLetterError => MsgInvalidLetter
  | _ => MsgInvalidFormat
  end.

(** ** Two states used as examples

    The word "cat" after the guess a, and the word "Cat" after the guess c,
    both with six mistakes allowed. *)

Definition round_cat_a : Round :=
  mkRound (chars "cat") 6 0 (chars "_a_" ++ [NUL]) (guessed_buffer ["a"])
          1 false false.

Definition round_Cat_c : Round :=
  mkRound (chars "Cat") 6 1 (chars "___" ++ [NUL]) (guessed_buffer ["c"])
          1 false false.

(** The word "cat" won with the guesses a, c, t. *)
Definition round_cat_won : Round :=
  mkRound (chars "cat") 6 0 (chars "cat" ++ [NUL]) (guessed_buffer (chars "act"))
          3 true true.

(** The input of a session that chooses Medium, passes the pause and ends
    before the first guess; and one that ends before the first prompt. *)
Definition abandoned_input : World :=
  world_of (chars "2" ++ [newline; newline]) (λ _, 0%nat).

Definition no_input : World := world_of [] (λ _, 0%nat).

(** ** drawHangman (578-668)

    The seven lines of the drawing between the two empty lines, and whether
    the warning of the [default] case goes to the error stream. *)

Definition gallows (head body legs : string) : list string :=
  ["  +---+"; "  |   |"; head; body; legs; "      |"; "========="]%string.

Definition drawHangman (incorrectGuesses : Z) : list string * bool :=
  match incorrectGuesses with
  | 0 => (gallows "      |" "      |" "      |", false)
  | 1 => (gallows "  O   |" "      |" "      |", false)
  | 2 => (gallows "  O   |" "  |   |" "      |", false)
  | 3 => (gallows "  O   |" " /|   |" "      |", false)
  | 4 => (gallows "  O   |" " /|\  |" "      |", false)
  | 5 => (gallows "  O   |" " /|\  |" " /    |", false)
  | 6 => (gallows "  O   |" " /|\  |" " / \  |", false)
  | _ => (gallows "  O   |" " /|\  |" " / \  |", true)
  end.

(** ** loadWords (34-152, the same text at 422-540)

    The file is the list of its bytes, [None] when it cannot be opened.
    Left out: read errors ([ferror]) and a failing [malloc].  A loaded word
    is kept as its bytes before the terminator, as [secretWord] is. *)

Definition MAX_WORD_LENGTH : nat := 100.

(** [fgets(lineBuffer, size, file)] on the bytes left of the file *)
Definition file_gets (size : nat) (stream : list ascii)
    : option (list ascii * list ascii) :=
  match stream with
  | [] => None
  | _ :: _ =>
      let '(cs, rest) := read_chars (size - 1) stream in
      Some (cs ++ [NUL], rest)
  end.

(** 54-56: the first pass counts the calls of [fgets] that return a line. *)
Fixpoint count_lines (fuel : nat) (stream : list ascii) : option Z :=
  match file_gets MAX_WORD_LENGTH stream with
  | None => Some 0
  | Some (_, rest) =>
      match fuel with
      | O => None
      | S fuel' => lineCount ← count_lines fuel' rest; int_succ lineCount
      end
  end.

(** 99-104: the newline at the end of the line is overwritten; the buffer
    and its new length. *)
Definition strip_newline (lineBuffer : list ascii) : option (list ascii * nat) :=
  len ← strlen lineBuffer;
  if decide (0 < len)%nat then
    c ← lineBuffer !! (len - 1)%nat;
    if decide (c = newline) then
      lineBuffer' ← store lineBuffer (Z.of_nat (len - 1)) NUL;
      len' ← strlen lineBuffer';
      Some (lineBuffer', len')
    else Some (lineBuffer, len)
  else Some (lineBuffer, len).

(** 91-133: the second pass; [wordList] holds the entries filled so far and
    [i] is their number.  [strcpy] copies the [len] bytes of the string. *)
Fixpoint read_words (fuel : nat) (lineCount : Z) (stream : list ascii)
    (wordList : list (list ascii)) (i : Z) : option (list (list ascii) * Z) :=
  match file_gets MAX_WORD_LENGTH stream with
  | None => Some (wordList, i)
  | Some (lineBuffer, rest) =>
      if decide (lineCount <= i) then Some (wordList, i)
      else
        '(lineBuffer', len) ← strip_newline lineBuffer;
        match fuel with
        | O => None
        | S fuel' =>
            if decide (len = 0%nat) then
              read_words fuel' lineCount rest wordList i
            else
              i' ← int_succ i;
              read_words fuel' lineCount rest
                         (wordList ++ [take len lineBuffer']) i'
        end
  end.

(** 34-152: the list returned ([None] for NULL) and [*wordCount]. *)
Definition loadWords (file : option (list ascii))
    : option (option (list (list ascii)) * Z) :=
  match file with
  | None => Some (None, 0)
  | Some content =>
      lineCount ← count_lines (length content) content;
      if decide (lineCount = 0) then Some (None, 0)
      else
        '(wordList, i) ← read_words (length content) lineCount content [] 0;
        Some (Some wordList, i)
  end.

(** The finished game on a word file: 677-690 hand the list to the rest of
    [main], which leaves with 1 on NULL and on a count of 0.  The banners
    of 673 and 692 and what goes to the error stream are not among the
    messages. *)
Definition hangman (file : option (list ascii)) (w : World)
    : option (Z * list Round * World) :=
  '(wordList, _) ← loadWords file; main wordList w.

(** The bytes of a text: each line followed by a newline. *)
Definition unlines (lines : list (list ascii)) : list ascii :=
  concat ((λ line, line ++ [newline]) <$> lines).

(** A line that [fgets] stores whole: no newline, no NUL, at most 99 bytes. *)
Definition plain_line (line : list ascii) : Prop :=
  (newline ∉ line) ∧ (NUL ∉ line) ∧ (length line ≤ 99)%nat.

(** What holds of a round of the session once it was played. *)
Definition round_played (wordList : list (list ascii)) (st : Round) : Prop :=
  secretWord st ∈ wordList
  ∧ gameOver st = true
  ∧ (maxIncorrectGuesses st = 8 ∨ maxIncorrectGuesses st = 6
     ∨ maxIncorrectGuesses st = 4)
  ∧ 0 ≤ incorrectGuesses st ≤ maxIncorrectGuesses st
  ∧ ∃ gs, played (secretWord st) (maxIncorrectGuesses st) gs st.

(** A text with DOS line ends: each line followed by carriage return and
    newline. *)
Definition CR : ascii := "013".

Definition dos_text (lines : list (list ascii)) : list ascii :=
  unlines ((λ line, line ++ [CR]) <$> lines).

(** * Facts about the library functions *)

Section Ctype.

Local Ltac each_char c :=
  destruct c as [[] [] [] [] [] [] [] []]; vm_compute; try discriminate; auto.

Lemma isalpha_tolower_lower (c : ascii) :
  isalpha (tolower c) = true → is_lower (tolower c).
Proof. unfold is_lower. each_char c. Qed.

Lemma isalpha_tolower_iff (c : ascii) :
  isalpha (tolower c) = isalpha c.
Proof. each_char c. Qed.

Lemma tolower_lower (c : ascii) : is_lower c → tolower c = c.
Proof. unfold is_lower. each_char c. Qed.


Lemma lower_not_NUL (c : ascii) : is_lower c → c ≠ NUL.
Proof. intros H ->. discriminate H. Qed.

Lemma lower_not_placeholder (c : ascii) : is_lower c → c ≠ placeholder.
Proof. intros H ->. discriminate H. Qed.

Lemma lower_in_alphabet (c : ascii) : is_lower c → c ∈ alphabet.
Proof.
  unfold is_lower.
  destruct c as [[] [] [] [] [] [] [] []]; vm_compute; try discriminate;
    intros _; repeat (first [ apply list_elem_of_here | apply list_elem_of_further ]).
Qed.

(** At most 26 distinct lower-case letters exist. *)
Lemma distinct_lower_bound (gs : list ascii) :
  NoDup gs → Forall is_lower gs → (length gs ≤ 26)%nat.
Proof.
  intros Hnd Hlow.
  change 26%nat with (length alphabet).
  apply submseteq_length, NoDup_submseteq; [done|].
  intros x Hx. apply lower_in_alphabet.
  by eapply Forall_forall in Hlow.
Qed.

End Ctype.

Section CStrings.

Implicit Types (s t : list ascii) (c : ascii).

Lemma strlen_terminated s t : NUL ∉ s → strlen (s ++ NUL :: t) = Some (length s).
Proof.
  induction s as [|x s IH]; intros Hs; [done|].
  apply not_elem_of_cons in Hs as [Hx Hs]. simpl.
  rewrite decide_False by done. by rewrite IH.
Qed.

Lemma strchr_absent s t c :
  NUL ∉ s → c ∉ s → c ≠ NUL → strchr (s ++ NUL :: t) c = Some None.
Proof.
  induction s as [|x s IH]; intros Hs Hc Hn; simpl.
  - by rewrite decide_False by done.
  - apply not_elem_of_cons in Hs as [Hx Hs].
    apply not_elem_of_cons in Hc as [Hxc Hc].
    rewrite decide_False by done. rewrite decide_False by done.
    by rewrite IH.
Qed.

Lemma strchr_present s t c :
  NUL ∉ s → c ∈ s → ∃ i, strchr (s ++ NUL :: t) c = Some (Some i) ∧ s !! i = Some c.
Proof.
  induction s as [|x s IH]; intros Hs Hc; [by apply elem_of_nil in Hc|].
  apply not_elem_of_cons in Hs as [Hx Hs]. simpl.
  destruct (decide (x = c)) as [->|Hne]; [by exists 0%nat|].
  rewrite decide_False by done.
  apply elem_of_cons in Hc as [->|Hc]; [done|].
  destruct (IH Hs Hc) as (i & -> & Hi). by exists (S i).
Qed.

Lemma store_middle s t c x :
  store (s ++ x :: t) (Z.of_nat (length s)) c = Some (s ++ c :: t).
Proof.
  unfold store. rewrite decide_True.
  - rewrite Nat2Z.id. f_equal.
    by rewrite insert_app_r_alt, Nat.sub_diag by lia.
  - rewrite length_app. simpl. lia.
Qed.

Lemma int_succ_small (x : Z) : x < INT_MAX → int_succ x = Some (x + 1).
Proof. intros H. unfold int_succ. by rewrite decide_True. Qed.

End CStrings.

Section GuessedBuffer.

Implicit Types (gs : list ascii) (g : ascii).

Lemma lower_no_NUL gs : Forall is_lower gs → NUL ∉ gs.
Proof.
  intros H Hin. eapply Forall_forall in H; [|done]. by eapply lower_not_NUL.
Qed.

Lemma guessed_buffer_split gs :
  (length gs ≤ 26)%nat →
  guessed_buffer gs = gs ++ NUL :: replicate (26 - length gs) NUL.
Proof.
  intros H. unfold guessed_buffer, ALPHABET_SIZE.
  replace (26 + 1 - length gs)%nat with (S (26 - length gs)) by lia. done.
Qed.

Lemma guessed_buffer_length gs :
  (length gs ≤ 27)%nat → length (guessed_buffer gs) = 27%nat.
Proof.
  intros H. unfold guessed_buffer, ALPHABET_SIZE.
  rewrite length_app, length_replicate. lia.
Qed.

Lemma take_guessed_buffer gs : take (length gs) (guessed_buffer gs) = gs.
Proof. apply take_app_length. Qed.

(** The two stores of 823-825 stay inside the buffer while fewer than 26
    letters are there. *)
Lemma append_letter gs g :
  (length gs < 26)%nat →
  store (guessed_buffer gs) (Z.of_nat (length gs)) g
    = Some (gs ++ g :: replicate (26 - length gs) NUL)
  ∧ store (gs ++ g :: replicate (26 - length gs) NUL)
          (Z.of_nat (length gs) + 1) NUL
    = Some (guessed_buffer (gs ++ [g])).
Proof.
  intros Hlt. split.
  - rewrite guessed_buffer_split by lia. apply store_middle.
  - rewrite (guessed_buffer_split (gs ++ [g])) by (rewrite length_app; simpl; lia).
    rewrite length_app. simpl.
    replace (26 - length gs)%nat with (S (26 - (length gs + 1))) by lia.
    simpl. rewrite (cons_middle g gs), app_assoc.
    replace (Z.of_nat (length gs) + 1) with (Z.of_nat (length (gs ++ [g])))
      by (rewrite length_app; simpl; lia).
    apply store_middle.
Qed.

End GuessedBuffer.

Section RevealLoop.

Implicit Types (word gs : list ascii) (g : ascii).

(** The loop of 832-837 run over the suffix [suf] of the word. *)
Lemma reveal_loop_spec g suf : ∀ pre dpre dsuf rest correct,
  length dpre = length pre → length dsuf = length suf →
  reveal_loop (length suf) (length pre) (pre ++ suf) g
              (dpre ++ dsuf ++ rest) correct
  = Some (dpre ++ zip_with (λ w x, if decide (w = g) then g else x) suf dsuf
               ++ rest,
          correct || bool_decide (g ∈ suf)).
Proof.
  induction suf as [|c suf IH]; intros pre dpre dsuf rest correct Hpre Hsuf.
  - destruct dsuf; [|done]. simpl. by rewrite orb_false_r.
  - destruct dsuf as [|x dsuf]; [done|]. simpl in Hsuf.
    cbn [length reveal_loop].
    rewrite list_lookup_middle by done. cbn [mbind option_bind].
    specialize (IH (pre ++ [c])).
    rewrite length_app, Nat.add_1_r, <- app_assoc in IH. simpl in IH.
    destruct (decide (c = g)) as [->|Hne].
    + rewrite <- Hpre. simpl. rewrite store_middle. cbn [mbind option_bind].
      specialize (IH (dpre ++ [g]) dsuf rest true).
      rewrite <- app_assoc in IH. simpl in IH. rewrite Hpre.
      rewrite IH by (rewrite ?length_app; simpl; lia).
      rewrite decide_True by done. rewrite <- app_assoc. simpl.
      do 2 f_equal. symmetry. apply orb_true_iff. right.
      apply bool_decide_eq_true_2, list_elem_of_here.
    + specialize (IH (dpre ++ [x]) dsuf rest correct).
      rewrite <- app_assoc in IH. simpl in *.
      rewrite IH by (rewrite ?length_app; simpl; lia).
      rewrite decide_False by done. rewrite <- app_assoc. simpl. do 3 f_equal.
      apply bool_decide_ext. rewrite elem_of_cons.
      split; [by right|]. by intros [->|?].
Qed.

Lemma reveal_snoc gs g w :
  reveal (gs ++ [g]) w = if decide (w = g) then g else reveal gs w.
Proof.
  unfold reveal. destruct (decide (w = g)) as [->|Hne].
  - rewrite decide_True; [done|]. apply elem_of_app. right. apply list_elem_of_here.
  - destruct (decide (w ∈ gs)) as [Hin|Hnin].
    + rewrite decide_True; [done|]. apply elem_of_app. by left.
    + rewrite decide_False; [done|].
      rewrite elem_of_app, list_elem_of_singleton. by intros [?|?].
Qed.

Lemma zip_pattern word gs g :
  zip_with (λ w x, if decide (w = g) then g else x) word (pattern word gs)
  = pattern word (gs ++ [g]).
Proof.
  unfold pattern. induction word as [|w word IH]; [done|].
  simpl. f_equal; [by rewrite reveal_snoc|apply IH].
Qed.

Lemma length_pattern word gs : length (pattern word gs) = length word.
Proof. apply length_fmap. Qed.

Lemma reveal_loop_pattern word gs g :
  reveal_loop (length word) 0 word g (pattern word gs ++ [NUL]) false
  = Some (pattern word (gs ++ [g]) ++ [NUL], bool_decide (g ∈ word)).
Proof.
  pose proof (reveal_loop_spec g word [] [] (pattern word gs) [NUL] false) as H.
  simpl in H. rewrite H by (by rewrite ?length_pattern).
  by rewrite zip_pattern.
Qed.

Lemma pattern_nil word : pattern word [] = replicate (length word) placeholder.
Proof.
  unfold pattern. induction word as [|w word IH]; [done|].
  simpl. f_equal. apply IH.
Qed.

Lemma pattern_lookup word gs i c :
  word !! i = Some c → pattern word gs !! i = Some (reveal gs c).
Proof. intros H. unfold pattern. by rewrite list_lookup_fmap, H. Qed.

Lemma misses_snoc word gs g :
  misses word (gs ++ [g])
  = misses word gs ++ (if decide (g ∈ word) then [] else [g]).
Proof.
  unfold misses. rewrite filter_app. f_equal.
  destruct (decide (g ∈ word)).
  - rewrite filter_cons_False; [done|]. by intros ?.
  - by rewrite filter_cons_True.
Qed.

Lemma length_misses word gs : (length (misses word gs) ≤ length gs)%nat.
Proof. apply length_filter. Qed.

End RevealLoop.

Section Invariant.

Context (word : list ascii) (maxIncorrect : Z).
Implicit Types (gs : list ascii) (g : ascii) (st : Round).

Lemma init_round_inv : RoundInv word maxIncorrect [] (init_round word maxIncorrect).
Proof.
  split; simpl; try done.
  - constructor.
  - by rewrite pattern_nil.
Qed.

Lemma inv_guessed gs st : RoundInv word maxIncorrect gs st → guessed st = gs.
Proof.
  intros H. unfold guessed.
  rewrite (inv_num _ _ _ _ H), (inv_buffer _ _ _ _ H), Nat2Z.id.
  apply take_guessed_buffer.
Qed.

Lemma inv_length gs st : RoundInv word maxIncorrect gs st → (length gs ≤ 26)%nat.
Proof.
  intros H. apply distinct_lower_bound; [apply (inv_nodup _ _ _ _ H)|apply (inv_lower _ _ _ _ H)].
Qed.

(** The pigeonhole behind the buffer of 27 bytes: a new lower-case letter
    finds fewer than 26 letters stored. *)
Lemma inv_room gs st g :
  RoundInv word maxIncorrect gs st → is_lower g → g ∉ gs → (length gs < 26)%nat.
Proof.
  intros H Hg Hnew.
  assert (length (g :: gs) ≤ 26)%nat; [|simpl in *; lia].
  apply distinct_lower_bound.
  - constructor; [done|apply (inv_nodup _ _ _ _ H)].
  - constructor; [done|apply (inv_lower _ _ _ _ H)].
Qed.

Lemma apply_guess_duplicate gs st g :
  RoundInv word maxIncorrect gs st → g ∈ gs →
  apply_guess st g = Some (st, Rejected DuplicateGuessError, [MsgAlreadyGuessed g]).
Proof.
  intros H Hin. unfold apply_guess.
  rewrite (inv_buffer _ _ _ _ H), guessed_buffer_split by by eapply inv_length.
  destruct (strchr_present gs (replicate (26 - length gs) NUL) g)
    as (i & -> & _); [apply lower_no_NUL, (inv_lower _ _ _ _ H)|done|done].
Qed.

Lemma apply_guess_new gs st g :
  RoundInv word maxIncorrect gs st → is_lower g → g ∉ gs →
  apply_guess st g
  = Some (applied st g, Applied (bool_decide (g ∈ word)),
          [MsgProcessing g;
           if bool_decide (g ∈ word) then MsgCorrect g else MsgIncorrect g]).
Proof.
  intros H Hg Hnew. unfold apply_guess, applied, wordLength.
  pose proof (inv_room _ _ _ H Hg Hnew) as Hroom.
  pose proof (length_misses word gs) as Hmiss.
  rewrite (inv_guessed _ _ H).
  rewrite (inv_buffer _ _ _ _ H), (inv_num _ _ _ _ H), (inv_word _ _ _ _ H),
    (inv_display _ _ _ _ H), (inv_incorrect _ _ _ _ H).
  rewrite (guessed_buffer_split gs) at 1 by lia.
  rewrite strchr_absent; [|apply lower_no_NUL, (inv_lower _ _ _ _ H)|done|by apply lower_not_NUL].
  cbn [mbind option_bind].
  destruct (append_letter gs g Hroom) as [-> Hst2]. cbn [mbind option_bind].
  rewrite (int_succ_small (Z.of_nat (length gs))) by (unfold INT_MAX; lia).
  cbn [mbind option_bind]. rewrite Hst2. cbn [mbind option_bind].
  rewrite reveal_loop_pattern. cbn [mbind option_bind].
  case_bool_decide as Hin.
  - by rewrite decide_True by done.
  - rewrite decide_False by done.
    by rewrite int_succ_small by (unfold INT_MAX; lia).
Qed.

Lemma applied_inv gs st g :
  RoundInv word maxIncorrect gs st → gameOver st = false →
  is_lower g → g ∉ gs →
  RoundInv word maxIncorrect (gs ++ [g]) (applied st g).
Proof.
  intros H Hover Hg Hnew. unfold applied.
  rewrite (inv_guessed _ _ H), (inv_word _ _ _ _ H).
  split; simpl.
  - done.
  - apply (inv_max _ _ _ _ H).
  - done.
  - rewrite (inv_num _ _ _ _ H), length_app. simpl. lia.
  - apply Forall_app. split; [apply (inv_lower _ _ _ _ H)|by constructor].
  - apply NoDup_app. split_and!; [apply (inv_nodup _ _ _ _ H)| |apply NoDup_singleton].
    intros x Hx Hx'. apply list_elem_of_singleton in Hx'. by subst.
  - done.
  - rewrite misses_snoc, length_app, (inv_incorrect _ _ _ _ H).
    destruct (decide (g ∈ word)); simpl; lia.
  - apply (inv_flags _ _ _ _ H).
  - intros Hwon. by rewrite (inv_flags _ _ _ _ H Hover) in Hwon.
Qed.

End Invariant.

Section Validation.

Implicit Types (buf : list ascii) (c g : ascii).

Lemma strlen_is_Some buf : NUL ∈ buf → is_Some (strlen buf).
Proof.
  induction buf as [|x buf IH]; intros Hin; [by apply elem_of_nil in Hin|].
  simpl. destruct (decide (x = NUL)) as [|Hx]; [done|].
  apply elem_of_cons in Hin as [?|Hin]; [done|].
  by destruct (IH Hin) as [m ->].
Qed.

Lemma strlen_lookup buf n i :
  strlen buf = Some n → (i < n)%nat → ∃ c, buf !! i = Some c ∧ c ≠ NUL.
Proof.
  revert n i. induction buf as [|x buf IH]; intros n i Hlen Hi; [done|].
  simpl in Hlen. destruct (decide (x = NUL)) as [|Hx]; [simplify_eq; lia|].
  destruct (strlen buf) as [m|] eqn:Hm; [|done]. simplify_eq/=.
  destruct i as [|i]; [by exists x|].
  apply (IH m); [done|lia].
Qed.

(** What 800-814 accept: a buffer whose string is two bytes long and whose
    first byte is a letter; the guess is that letter, lowered. *)
Lemma validate_guess_accepts buf g :
  validate_guess buf = Some (inr g) ↔
  strlen buf = Some 2%nat ∧ ∃ c, buf !! 0%nat = Some c ∧ isalpha c = true ∧ g = tolower c.
Proof.
  unfold validate_guess. split.
  - intros H. destruct (strlen buf) as [n|]; [|done]. simpl in H.
    destruct (decide (n ≠ 2%nat)) as [|Hn]; [done|].
    destruct (buf !! 0%nat) as [c|]; [|done]. simpl in H.
    destruct (isalpha (tolower c)) eqn:Ha; [|done]. simplify_eq/=.
    split; [f_equal; lia|]. exists c. by rewrite <- isalpha_tolower_iff.
  - intros (-> & c & -> & Ha & ->). simpl.
    by rewrite isalpha_tolower_iff, Ha.
Qed.

Lemma validate_guess_lower buf g :
  validate_guess buf = Some (inr g) → is_lower g.
Proof.
  intros (_ & c & _ & Ha & ->)%validate_guess_accepts.
  apply isalpha_tolower_lower. by rewrite isalpha_tolower_iff.
Qed.

Lemma validate_guess_total buf : NUL ∈ buf → is_Some (validate_guess buf).
Proof.
  intros [n Hn]%strlen_is_Some. unfold validate_guess. rewrite Hn. simpl.
  destruct (decide (n ≠ 2%nat)) as [|Hn2]; [done|].
  destruct (strlen_lookup buf n 0 Hn) as (c & -> & _); [lia|]. simpl.
  by destruct (isalpha (tolower c)).
Qed.

Lemma validate_line_of c :
  c ≠ NUL →
  validate_guess (line_of c)
  = Some (if isalpha c then inr (tolower c) else inl InvalidLetterError).
Proof.
  intros Hc. unfold validate_guess, line_of. simpl.
  rewrite decide_False by done. simpl.
  rewrite isalpha_tolower_iff. by destruct (isalpha c).
Qed.

End Validation.

Section GameOver.

Context (word : list ascii) (maxIncorrect : Z).
Implicit Types (gs : list ascii) (g : ascii) (st : Round).

Lemma pattern_no_NUL gs : Forall is_lower gs → NUL ∉ pattern word gs.
Proof.
  intros Hlow Hin. unfold pattern in Hin.
  apply list_elem_of_fmap in Hin as (c & Hc & _).
  unfold reveal in Hc. destruct (decide (c ∈ gs)) as [Hin|]; [|done].
  subst c. by eapply lower_no_NUL.
Qed.

Lemma placeholder_in_display gs :
  placeholder ∈ pattern word gs ++ [NUL] ↔ placeholder ∈ pattern word gs.
Proof.
  rewrite elem_of_app, list_elem_of_singleton. split; [|by left].
  by intros [?|?].
Qed.

Lemma check_game_over_inv gs st :
  RoundInv word maxIncorrect gs st →
  check_game_over st = Some (game_over_checked st).
Proof.
  intros H. unfold check_game_over, game_over_checked.
  destruct (decide (incorrectGuesses st = maxIncorrectGuesses st)); [done|].
  pose proof (pattern_no_NUL gs (inv_lower _ _ _ _ H)) as Hnul.
  rewrite (inv_display _ _ _ _ H).
  destruct (decide (placeholder ∈ pattern word gs)) as [Hin|Hnin].
  - destruct (strchr_present _ [] _ Hnul Hin) as (i & -> & _). simpl.
    by rewrite decide_True by by apply placeholder_in_display.
  - rewrite strchr_absent by done. simpl.
    by rewrite decide_False by by rewrite placeholder_in_display.
Qed.

Lemma set_outcome_inv gs st won :
  RoundInv word maxIncorrect gs st →
  (won = true → placeholder ∉ pattern word gs) →
  RoundInv word maxIncorrect gs (set_outcome won st).
Proof. intros [] Hwon. by split. Qed.

Lemma set_gameOver_inv gs st :
  RoundInv word maxIncorrect gs st →
  RoundInv word maxIncorrect gs (set_gameOver st).
Proof. intros []. by split. Qed.

Lemma game_over_checked_inv gs st :
  RoundInv word maxIncorrect gs st →
  RoundInv word maxIncorrect gs (game_over_checked st).
Proof.
  intros H. unfold game_over_checked. repeat case_decide; [|done|].
  - by apply set_outcome_inv.
  - apply set_outcome_inv; [done|]. intros _.
    by rewrite (inv_display _ _ _ _ H), placeholder_in_display in *.
Qed.

End GameOver.

Section Turn.

Context (word : list ascii) (maxIncorrect : Z).
Implicit Types (gs buf : list ascii) (g : ascii) (st : Round).

Lemma guess_step_invalid st buf e :
  validate_guess buf = Some (inl e) →
  guess_step st buf = Some (st, Rejected e, [error_message e]).
Proof. intros H. unfold guess_step. rewrite H. by destruct e. Qed.

Lemma guess_step_duplicate gs st buf g :
  RoundInv word maxIncorrect gs st →
  validate_guess buf = Some (inr g) → g ∈ gs →
  guess_step st buf = Some (st, Rejected DuplicateGuessError, [MsgAlreadyGuessed g]).
Proof.
  intros H Hv Hin. unfold guess_step. rewrite Hv. simpl.
  by rewrite (apply_guess_duplicate _ _ _ _ _ H Hin).
Qed.

Lemma guess_step_new gs st buf g :
  RoundInv word maxIncorrect gs st → gameOver st = false →
  validate_guess buf = Some (inr g) → g ∉ gs →
  guess_step st buf
  = Some (game_over_checked (applied st g), Applied (bool_decide (g ∈ word)),
          [MsgProcessing g;
           if bool_decide (g ∈ word) then MsgCorrect g else MsgIncorrect g]).
Proof.
  intros H Hover Hv Hnew. unfold guess_step. rewrite Hv. simpl.
  pose proof (validate_guess_lower _ _ Hv) as Hg.
  rewrite (apply_guess_new _ _ _ _ _ H Hg Hnew). simpl.
  by rewrite (check_game_over_inv _ _ _ _ (applied_inv _ _ _ _ _ H Hover Hg Hnew)).
Qed.

(** A rejected line leaves by [continue]: whatever the state, nothing of
    it changes. *)
Lemma guess_step_rejected st buf st' e out :
  guess_step st buf = Some (st', Rejected e, out) → st' = st.
Proof.
  unfold guess_step, apply_guess. intros H.
  destruct (validate_guess buf) as [[e'|g]|]; simpl in H; [| |done].
  - destruct e'; by simplify_eq.
  - destruct (strchr (guessedLetters st) g) as [[i|]|]; simpl in H; [by simplify_eq| |done].
    destruct (store (guessedLetters st) _ g); simpl in H; [|done].
    destruct (int_succ (numGuessedLetters st)); simpl in H; [|done].
    destruct (store _ _ NUL); simpl in H; [|done].
    destruct (reveal_loop _ _ _ _ _ _) as [[d c]|]; simpl in H; [|done].
    destruct c; simpl in H.
    + destruct (check_game_over _); simpl in H; by simplify_eq.
    + destruct (int_succ (incorrectGuesses st)); simpl in H; [|done].
      destruct (check_game_over _); simpl in H; by simplify_eq.
Qed.

Lemma applied_letter_new gs st buf g :
  RoundInv word maxIncorrect gs st → gameOver st = false →
  validate_guess buf = Some (inr g) → g ∉ gs →
  applied_letter st (Some buf) = [g].
Proof.
  intros H Hover Hv Hnew. unfold applied_letter.
  by rewrite (guess_step_new _ _ _ _ H Hover Hv Hnew), Hv.
Qed.

Lemma applied_letter_rejected st buf e out :
  guess_step st buf = Some (st, Rejected e, out) →
  applied_letter st (Some buf) = [].
Proof. intros H. unfold applied_letter. by rewrite H. Qed.

(** One turn, whatever the line: the invariant is kept, for the letters
    applied so far. *)
Lemma turn_state_inv gs st line st' :
  RoundInv word maxIncorrect gs st → gameOver st = false →
  turn_state st line = Some st' →
  RoundInv word maxIncorrect (gs ++ applied_letter st line) st'.
Proof.
  intros H Hover Hturn. destruct line as [buf|]; simpl in Hturn.
  - destruct (validate_guess buf) as [[e|g]|] eqn:Hv.
    + rewrite (guess_step_invalid st _ _ Hv) in Hturn. simpl in Hturn. simplify_eq.
      rewrite (applied_letter_rejected _ _ _ _ (guess_step_invalid _ _ _ Hv)).
      by rewrite app_nil_r.
    + destruct (decide (g ∈ gs)) as [Hin|Hnew].
      * rewrite (guess_step_duplicate _ _ _ _ H Hv Hin) in Hturn. simpl in Hturn. simplify_eq.
        rewrite (applied_letter_rejected _ _ _ _ (guess_step_duplicate _ _ _ _ H Hv Hin)).
        by rewrite app_nil_r.
      * rewrite (guess_step_new _ _ _ _ H Hover Hv Hnew) in Hturn. simpl in Hturn. simplify_eq.
        rewrite (applied_letter_new _ _ _ _ H Hover Hv Hnew).
        apply game_over_checked_inv, applied_inv; try done.
        by eapply validate_guess_lower.
    + unfold guess_step in Hturn. by rewrite Hv in Hturn.
  - simplify_eq. rewrite app_nil_r. by apply set_gameOver_inv.
Qed.

Lemma played_inv gs st :
  played word maxIncorrect gs st → RoundInv word maxIncorrect gs st.
Proof.
  induction 1 as [|gs st line st' _ IH Hover Hturn].
  - apply init_round_inv.
  - by eapply turn_state_inv.
Qed.

(** No line that holds a terminator leads to undefined behaviour. *)
Lemma guess_step_total gs st buf :
  RoundInv word maxIncorrect gs st → gameOver st = false →
  NUL ∈ buf → is_Some (guess_step st buf).
Proof.
  intros H Hover Hbuf.
  destruct (validate_guess_total _ Hbuf) as [[e|g] Hv].
  - by rewrite (guess_step_invalid _ _ _ Hv).
  - destruct (decide (g ∈ gs)) as [Hin|Hnew].
    + by rewrite (guess_step_duplicate _ _ _ _ H Hv Hin).
    + by rewrite (guess_step_new _ _ _ _ H Hover Hv Hnew).
Qed.

End Turn.

Section Misses.

Context (word : list ascii) (maxIncorrect : Z).
Implicit Types (gs cs : list ascii) (g c : ascii) (st : Round).

Lemma pattern_all_missed gs :
  word ≠ [] → (∀ g, g ∈ gs → g ∉ word) → placeholder ∈ pattern word gs.
Proof.
  intros Hword Hmiss. destruct word as [|w ws]; [done|].
  unfold pattern. simpl. unfold reveal at 1.
  rewrite decide_False; [apply list_elem_of_here|].
  intros Hin. apply (Hmiss w Hin), list_elem_of_here.
Qed.

Lemma misses_all gs : (∀ g, g ∈ gs → g ∉ word) → misses word gs = gs.
Proof.
  intros H. unfold misses. induction gs as [|g gs IH]; [done|].
  rewrite filter_cons_True by (apply H, list_elem_of_here).
  f_equal. apply IH. intros x Hx. by apply H, list_elem_of_further.
Qed.

(** The loop fed with letters that all miss: it goes on while fewer than
    [maxIncorrect] of them were applied and ends, lost, with the one that
    makes the count. *)
Lemma play_letters_misses cs : ∀ gs st,
  RoundInv word maxIncorrect gs st → gameOver st = false → word ≠ [] →
  Forall (λ c, isalpha c = true) cs →
  NoDup (gs ++ (tolower <$> cs)) →
  (∀ g, g ∈ gs ++ (tolower <$> cs) → g ∉ word) →
  Z.of_nat (length gs + length cs) ≤ maxIncorrect →
  ∃ st', play_letters st cs = Some st'
    ∧ RoundInv word maxIncorrect (gs ++ (tolower <$> cs)) st'
    ∧ status st' = if decide (Z.of_nat (length gs + length cs) = maxIncorrect
                              ∧ cs ≠ [])
                   then Lost else InProgress.
Proof.
  induction cs as [|c cs IH]; intros gs st H Hover Hword Halpha Hnd Hmiss Hle.
  - exists st. simpl. rewrite app_nil_r. split_and!; [done..|].
    rewrite decide_False by (by intros [_ ?]).
    unfold status. by rewrite Hover.
  - apply Forall_cons in Halpha as [Hc Halpha]. simpl in *. rewrite Hover.
    set (g := tolower c) in *.
    assert (g ∉ gs) as Hnew.
    { apply NoDup_app in Hnd as (_ & Hnd & _). intros Hin.
      apply (Hnd g Hin), list_elem_of_here. }
    assert (c ≠ NUL) as Hnul by (intros ->; discriminate Hc).
    assert (validate_guess (line_of c) = Some (inr g)) as Hv
      by (by rewrite validate_line_of, Hc).
    pose proof (validate_guess_lower _ _ Hv) as Hg.
    rewrite (guess_step_new _ _ _ _ _ _ H Hover Hv Hnew). simpl.
    pose proof (applied_inv _ _ _ _ _ H Hover Hg Hnew) as H1.
    pose proof (game_over_checked_inv _ _ _ _ H1) as H2.
    assert (g ∉ word) as Hgw.
    { apply Hmiss, elem_of_app. right. apply list_elem_of_here. }
    assert (∀ x, x ∈ gs ++ [g] → x ∉ word) as Hmiss1.
    { intros x Hx. apply Hmiss. rewrite (cons_middle g), app_assoc.
      apply elem_of_app. by left. }
    assert (incorrectGuesses (applied st g) = Z.of_nat (length gs) + 1) as Hinc.
    { rewrite (inv_incorrect _ _ _ _ H1), misses_all, length_app by done.
      simpl. lia. }
    assert (placeholder ∈ displayWord (applied st g)) as Hph.
    { rewrite (inv_display _ _ _ _ H1). apply elem_of_app. left.
      by apply pattern_all_missed. }
    assert (maxIncorrectGuesses (applied st g) = maxIncorrect) as Hmax
      by apply (inv_max _ _ _ _ H1).
    assert (gameOver (applied st g) = false) as Hover1 by done.
    destruct (decide (Z.of_nat (length gs) + 1 = maxIncorrect)) as [Heq|Hneq].
    + assert (cs = []) as -> by (destruct cs; [done|simpl in *; lia]).
      exists (game_over_checked (applied st g)). simpl.
      split_and!; [by destruct (gameOver _)|done|].
      rewrite decide_True by (split; [lia|done]).
      unfold game_over_checked. rewrite decide_True by congruence. done.
    + assert (game_over_checked (applied st g) = applied st g) as Hsame.
      { unfold game_over_checked. rewrite decide_False by congruence.
        by rewrite decide_True. }
      rewrite Hsame in *.
      destruct (IH (gs ++ [g]) (applied st g)) as (st' & Hplay & Hinv & Hst);
        rewrite <- ?app_assoc; simpl; try done.
      { rewrite length_app. simpl. lia. }
      exists st'. split_and!; [done|by rewrite <- app_assoc in Hinv|].
      rewrite Hst, length_app. simpl.
      apply decide_ext. split.
      * intros [? ?]. split; [lia|done].
      * intros [? _]. split; [lia|]. intros ->. simpl in *. lia.
Qed.

End Misses.

(** * The example states are reached *)

Section Examples.

Lemma played_cat_a : played (chars "cat") 6 ["a"] round_cat_a.
Proof.
  change ["a"] with
    ([] ++ applied_letter (init_round (chars "cat") 6) (Some (line_of "a"))).
  by eapply played_turn; [apply played_init|..].
Qed.

Lemma played_Cat_c : played (chars "Cat") 6 ["c"] round_Cat_c.
Proof.
  change ["c"] with
    ([] ++ applied_letter (init_round (chars "Cat") 6) (Some (line_of "c"))).
  by eapply played_turn; [apply played_init|..].
Qed.

End Examples.

(** * The round of the finished game *)

Section Round.

Context (word : list ascii) (maxIncorrect : Z).
Implicit Types (gs buf : list ascii) (g c : ascii) (st : Round).

Lemma display_lookup gs st i c :
  RoundInv word maxIncorrect gs st → word !! i = Some c →
  displayWord st !! i = Some (reveal gs c).
Proof.
  intros H Hi. rewrite (inv_display _ _ _ _ H).
  rewrite lookup_app_l by (rewrite length_pattern; by eapply lookup_lt_Some).
  by apply pattern_lookup.
Qed.

Lemma display_strlen gs st :
  RoundInv word maxIncorrect gs st → strlen (displayWord st) = Some (length word).
Proof.
  intros H. rewrite (inv_display _ _ _ _ H), strlen_terminated.
  - by rewrite length_pattern.
  - apply pattern_no_NUL, (inv_lower _ _ _ _ H).
Qed.

Lemma buffer_strlen gs st :
  RoundInv word maxIncorrect gs st → strlen (guessedLetters st) = Some (length gs).
Proof.
  intros H. rewrite (inv_buffer _ _ _ _ H), guessed_buffer_split by by eapply inv_length.
  apply strlen_terminated, lower_no_NUL, (inv_lower _ _ _ _ H).
Qed.

Lemma status_checked st :
  gameOver st = false → playerWon st = false →
  status (game_over_checked st)
  = if decide (incorrectGuesses st = maxIncorrectGuesses st) then Lost
    else if decide (placeholder ∈ displayWord st) then InProgress else Won.
Proof.
  intros Hover Hwon. unfold game_over_checked, status.
  repeat case_decide; simpl; by rewrite ?Hover, ?Hwon.
Qed.

Lemma checked_fields st :
  incorrectGuesses (game_over_checked st) = incorrectGuesses st
  ∧ maxIncorrectGuesses (game_over_checked st) = maxIncorrectGuesses st
  ∧ displayWord (game_over_checked st) = displayWord st
  ∧ guessedLetters (game_over_checked st) = guessedLetters st
  ∧ numGuessedLetters (game_over_checked st) = numGuessedLetters st
  ∧ secretWord (game_over_checked st) = secretWord st.
Proof. unfold game_over_checked. by repeat case_decide. Qed.

End Round.

(** C3.  In every state the round loop reaches, the display is a string as
    long as the secret word, and each of its positions shows the letter of
    the word there if that letter is among the letters applied so far (and
    then it is not the placeholder), and the placeholder if it is not. *)
Theorem reveal_pattern_invariant (word : list ascii) (maxIncorrect : Z)
    (gs : list ascii) (st : Round) :
  played word maxIncorrect gs st →
  strlen (displayWord st) = Some (length word)
  ∧ ∀ i c, word !! i = Some c →
      (c ∈ gs → displayWord st !! i = Some c ∧ c ≠ placeholder)
      ∧ (c ∉ gs → displayWord st !! i = Some placeholder)
      ∧ (displayWord st !! i ≠ Some placeholder ↔ c ∈ gs).
Proof.
  intros H%played_inv. split; [by eapply display_strlen|].
  intros i c Hi. rewrite (display_lookup _ _ _ _ _ _ H Hi). unfold reveal.
  assert (c ∈ gs → c ≠ placeholder) as Hne.
  { intros Hin. apply lower_not_placeholder.
    by eapply Forall_forall; [apply (inv_lower _ _ _ _ H)|]. }
  destruct (decide (c ∈ gs)) as [Hin|Hnin].
  - split_and!; [by split; [|apply Hne]|done|].
    split; [done|]. intros _ [= ?]. by apply Hne.
  - by split_and!.
Qed.

Lemma reveal_pattern_invariant_witness :
  strlen (displayWord round_cat_a) = Some (length (chars "cat"))
  ∧ ∀ i c, chars "cat" !! i = Some c →
      (c ∈ ["a"] → displayWord round_cat_a !! i = Some c ∧ c ≠ placeholder)
      ∧ (c ∉ ["a"] → displayWord round_cat_a !! i = Some placeholder)
      ∧ (displayWord round_cat_a !! i ≠ Some placeholder ↔ c ∈ ["a"]).
Proof. exact (reveal_pattern_invariant _ _ _ _ played_cat_a). Defined.

(** C9.  When the secret word holds a character that is not a lower-case
    letter, no state the round loop reaches is won: the positions of that
    character keep the placeholder. *)
Theorem non_lowercase_never_won (word : list ascii) (maxIncorrect : Z)
    (gs : list ascii) (st : Round) (c : ascii) :
  c ∈ word → ¬ is_lower c → played word maxIncorrect gs st →
  status st ≠ Won
  ∧ placeholder ∈ displayWord st
  ∧ ∀ i, word !! i = Some c → displayWord st !! i = Some placeholder.
Proof.
  intros Hc Hlow H%played_inv.
  assert (c ∉ gs) as Hnin.
  { intros Hin. apply Hlow. by eapply Forall_forall; [apply (inv_lower _ _ _ _ H)|]. }
  assert (∀ i, word !! i = Some c → displayWord st !! i = Some placeholder) as Hpos.
  { intros i Hi. rewrite (display_lookup _ _ _ _ _ _ H Hi). unfold reveal.
    by rewrite decide_False. }
  assert (placeholder ∈ pattern word gs) as Hph.
  { apply list_elem_of_lookup in Hc as [i Hi]. apply list_elem_of_lookup. exists i.
    rewrite (pattern_lookup _ _ _ _ Hi). unfold reveal. by rewrite decide_False. }
  split_and!; [|by rewrite (inv_display _ _ _ _ H), placeholder_in_display|done].
  unfold status. destruct (gameOver st); [|done].
  destruct (playerWon st) eqn:Hwon; [|done].
  by destruct (inv_won _ _ _ _ H Hwon).
Qed.

Lemma non_lowercase_never_won_witness :
  status round_Cat_c ≠ Won
  ∧ placeholder ∈ displayWord round_Cat_c
  ∧ ∀ i, chars "Cat" !! i = Some "C" → displayWord round_Cat_c !! i = Some placeholder.
Proof.
  apply (non_lowercase_never_won (chars "Cat") 6 ["c"] _ "C").
  - apply list_elem_of_here.
  - unfold is_lower. vm_compute. discriminate.
  - exact played_Cat_c.
Defined.

(** C10.  In every state the round loop reaches, [guessedLetters] is a
    buffer of 27 bytes holding the terminated string of the letters applied
    so far, in guess order; these are pairwise distinct lower-case letters,
    at most 26 of them.  While the round goes on, a line is processed
    without undefined behaviour, the two stores of an append stay inside
    the buffer, and a letter is appended only when the duplicate check has
    not found it. *)
Theorem guessed_letters_in_bounds (word : list ascii) (maxIncorrect : Z)
    (gs : list ascii) (st : Round) :
  played word maxIncorrect gs st →
  length (guessedLetters st) = 27%nat
  ∧ strlen (guessedLetters st) = Some (length gs)
  ∧ guessed st = gs
  ∧ numGuessedLetters st = Z.of_nat (length gs)
  ∧ NoDup gs ∧ Forall is_lower gs ∧ (length gs ≤ 26)%nat
  ∧ (gameOver st = false → ∀ buf, NUL ∈ buf → is_Some (guess_step st buf))
  ∧ (∀ g, is_lower g → g ∉ gs →
       ∃ buffer1,
         store (guessedLetters st) (numGuessedLetters st) g = Some buffer1
         ∧ store buffer1 (numGuessedLetters st + 1) NUL
           = Some (guessed_buffer (gs ++ [g])))
  ∧ (gameOver st = false → ∀ buf st' correct out,
       guess_step st buf = Some (st', Applied correct, out) →
       ∃ g, validate_guess buf = Some (inr g) ∧ (g ∉ gs)
            ∧ strchr (guessedLetters st) g = Some None
            ∧ guessed st' = gs ++ [g]).
Proof.
  intros H%played_inv.
  pose proof (inv_length _ _ _ _ H) as Hlen.
  split_and!.
  - rewrite (inv_buffer _ _ _ _ H). apply guessed_buffer_length. lia.
  - by eapply buffer_strlen.
  - by eapply inv_guessed.
  - apply (inv_num _ _ _ _ H).
  - apply (inv_nodup _ _ _ _ H).
  - apply (inv_lower _ _ _ _ H).
  - done.
  - intros Hover buf Hbuf. by eapply guess_step_total.
  - intros g Hg Hnew.
    destruct (append_letter gs g (inv_room _ _ _ _ _ H Hg Hnew)) as [H1 H2].
    eexists. rewrite (inv_buffer _ _ _ _ H), (inv_num _ _ _ _ H). by split.
  - intros Hover buf st' correct out Hstep.
    destruct (validate_guess buf) as [[e|g]|] eqn:Hv.
    + by rewrite (guess_step_invalid _ _ _ Hv) in Hstep.
    + exists g. destruct (decide (g ∈ gs)) as [Hin|Hnew].
      * by rewrite (guess_step_duplicate _ _ _ _ _ _ H Hv Hin) in Hstep.
      * rewrite (guess_step_new _ _ _ _ _ _ H Hover Hv Hnew) in Hstep.
        simplify_eq. split_and!; [done|done| |].
        -- rewrite (inv_buffer _ _ _ _ H), guessed_buffer_split by done.
           apply strchr_absent; [apply lower_no_NUL, (inv_lower _ _ _ _ H)|done|].
           by eapply lower_not_NUL, validate_guess_lower.
        -- eapply inv_guessed, game_over_checked_inv, applied_inv; try done.
           by eapply validate_guess_lower.
    + unfold guess_step in Hstep. by rewrite Hv in Hstep.
Qed.

Lemma guessed_letters_in_bounds_witness :
  length (guessedLetters round_cat_a) = 27%nat
  ∧ strlen (guessedLetters round_cat_a) = Some (length ["a"])
  ∧ guessed round_cat_a = ["a"]
  ∧ numGuessedLetters round_cat_a = Z.of_nat (length ["a"])
  ∧ NoDup ["a"] ∧ Forall is_lower ["a"] ∧ (length ["a"] ≤ 26)%nat
  ∧ (gameOver round_cat_a = false →
     ∀ buf, NUL ∈ buf → is_Some (guess_step round_cat_a buf))
  ∧ (∀ g, is_lower g → g ∉ ["a"] →
       ∃ buffer1,
         store (guessedLetters round_cat_a) (numGuessedLetters round_cat_a) g
           = Some buffer1
         ∧ store buffer1 (numGuessedLetters round_cat_a + 1) NUL
           = Some (guessed_buffer (["a"] ++ [g])))
  ∧ (gameOver round_cat_a = false → ∀ buf st' correct out,
       guess_step round_cat_a buf = Some (st', Applied correct, out) →
       ∃ g, validate_guess buf = Some (inr g) ∧ (g ∉ ["a"])
            ∧ strchr (guessedLetters round_cat_a) g = Some None
            ∧ guessed st' = ["a"] ++ [g]).
Proof. exact (guessed_letters_in_bounds _ _ _ _ played_cat_a). Defined.

(** C2.  In a state the round loop has reached and that is in progress, a
    validated letter [g] not yet among the applied letters is applied: it is
    appended to the guessed letters; every position of the word holding [g]
    shows [g] afterwards and the other positions are unchanged; the mistake
    counter grows by exactly one when [g] is nowhere in the word and is
    unchanged when it is somewhere.  [g] is the first byte of the line,
    lowered, and against the lower-case letters of a word the exact
    comparison of the code is the comparison without case. *)
Theorem apply_new_guess (word : list ascii) (maxIncorrect : Z)
    (gs : list ascii) (st : Round) (buf : list ascii) (g : ascii) :
  played word maxIncorrect gs st → gameOver st = false →
  validate_guess buf = Some (inr g) → g ∉ gs →
  ∃ st' out,
    guess_step st buf = Some (st', Applied (bool_decide (g ∈ word)), out)
    ∧ guessed st' = gs ++ [g]
    ∧ (∀ i w, word !! i = Some w →
         displayWord st' !! i
         = if decide (w = g) then Some g else displayWord st !! i)
    ∧ (∃ c, buf !! 0%nat = Some c ∧ g = tolower c
            ∧ ∀ w, is_lower w → (w = g ↔ tolower w = tolower c))
    ∧ (g ∉ word → incorrectGuesses st' = incorrectGuesses st + 1)
    ∧ (g ∈ word → incorrectGuesses st' = incorrectGuesses st).
Proof.
  intros H%played_inv Hover Hv Hnew.
  pose proof (validate_guess_lower _ _ Hv) as Hg.
  pose proof (applied_inv _ _ _ _ _ H Hover Hg Hnew) as H1.
  pose proof (game_over_checked_inv _ _ _ _ H1) as H2.
  destruct (checked_fields (applied st g)) as (Einc & _ & Edisp & _).
  eexists _, _. split; [by eapply guess_step_new|].
  split_and!.
  - by eapply inv_guessed.
  - intros i w Hi. rewrite Edisp.
    rewrite (display_lookup _ _ _ _ _ _ H1 Hi), (display_lookup _ _ _ _ _ _ H Hi).
    rewrite reveal_snoc. by case_decide.
  - apply validate_guess_accepts in Hv as (_ & c & Hc & _ & ->).
    exists c. split_and!; [done..|]. intros w Hw.
    by rewrite (tolower_lower w Hw).
  - intros Hnin. rewrite Einc. simpl.
    rewrite (inv_word _ _ _ _ H). by rewrite decide_False.
  - intros Hin. rewrite Einc. simpl.
    rewrite (inv_word _ _ _ _ H). by rewrite decide_True.
Qed.

Lemma apply_new_guess_witness :
  ∃ st' out,
    guess_step round_cat_a (line_of "C")
      = Some (st', Applied (bool_decide ("c" ∈ chars "cat")), out)
    ∧ guessed st' = ["a"] ++ ["c"]
    ∧ (∀ i w, chars "cat" !! i = Some w →
         displayWord st' !! i
         = if decide (w = "c") then Some "c" else displayWord round_cat_a !! i)
    ∧ (∃ c, line_of "C" !! 0%nat = Some c ∧ "c" = tolower c
            ∧ ∀ w, is_lower w → (w = "c" ↔ tolower w = tolower c))
    ∧ ("c" ∉ chars "cat" → incorrectGuesses st' = incorrectGuesses round_cat_a + 1)
    ∧ ("c" ∈ chars "cat" → incorrectGuesses st' = incorrectGuesses round_cat_a).
Proof.
  apply (apply_new_guess (chars "cat") 6 ["a"] round_cat_a (line_of "C") "c").
  - exact played_cat_a.
  - reflexivity.
  - reflexivity.
  - intros Hin. apply list_elem_of_singleton in Hin. discriminate Hin.
Defined.

(** C1.  First part: when a validated new letter is applied in a state the
    round loop has reached, the loss test comes first: the round is lost
    when the mistake counter equals the allowance; otherwise it is won when
    the display holds no placeholder, and goes on when it holds one.
    Second part: on a non-empty word, letters that are pairwise distinct,
    none of which is in the word, as many as mistakes are allowed, leave
    the round in progress after each of them but the last, and lost after
    the last. *)
Theorem loss_checked_before_win (word : list ascii) (maxIncorrect : Z) :
  (∀ gs st buf g,
     played word maxIncorrect gs st → gameOver st = false →
     validate_guess buf = Some (inr g) → g ∉ gs →
     ∃ st' correct out,
       guess_step st buf = Some (st', Applied correct, out)
       ∧ (incorrectGuesses st' = maxIncorrect → status st' = Lost)
       ∧ (incorrectGuesses st' ≠ maxIncorrect →
          placeholder ∉ displayWord st' → status st' = Won)
       ∧ (incorrectGuesses st' ≠ maxIncorrect →
          placeholder ∈ displayWord st' → status st' = InProgress))
  ∧ (∀ cs,
       word ≠ [] → cs ≠ [] →
       Forall (λ c, isalpha c = true) cs →
       NoDup (tolower <$> cs) →
       (∀ c, c ∈ cs → tolower c ∉ word) →
       Z.of_nat (length cs) = maxIncorrect →
       (∀ k, (k < length cs)%nat →
          ∃ st, play_letters (init_round word maxIncorrect) (take k cs) = Some st
                ∧ incorrectGuesses st = Z.of_nat k ∧ status st = InProgress)
       ∧ ∃ st, play_letters (init_round word maxIncorrect) cs = Some st
               ∧ incorrectGuesses st = maxIncorrect ∧ status st = Lost).
Proof.
  split.
  - intros gs st buf g H%played_inv Hover Hv Hnew.
    pose proof (validate_guess_lower _ _ Hv) as Hg.
    pose proof (applied_inv _ _ _ _ _ H Hover Hg Hnew) as H1.
    destruct (checked_fields (applied st g)) as (Einc & Emax & Edisp & _).
    eexists _, _, _. split; [by eapply guess_step_new|].
    rewrite Einc, Edisp, <- (inv_max _ _ _ _ H1).
    rewrite status_checked; [|done|apply (inv_flags _ _ _ _ H Hover)].
    split_and!; intros; repeat case_decide; done.
  - intros cs Hword Hcs Halpha Hnd Hmiss Hlen.
    assert (∀ k, (k ≤ length cs)%nat →
              ∃ st, play_letters (init_round word maxIncorrect) (take k cs) = Some st
                ∧ incorrectGuesses st = Z.of_nat k
                ∧ status st = if decide (k = length cs) then Lost else InProgress)
      as Hall.
    { intros k Hk.
      destruct (play_letters_misses word maxIncorrect (take k cs) []
                  (init_round word maxIncorrect)) as (st & Hplay & Hinv & Hst).
      - apply init_round_inv.
      - done.
      - done.
      - by apply Forall_take.
      - simpl. rewrite fmap_take. eapply sublist_NoDup; [done|apply sublist_take].
      - simpl. intros g (c & -> & Hc)%list_elem_of_fmap.
        apply Hmiss. apply elem_of_take in Hc as (j & Hj & _).
        by eapply list_elem_of_lookup_2.
      - simpl. rewrite length_take. lia.
      - exists st. split; [done|]. simpl in *. split.
        + rewrite (inv_incorrect _ _ _ _ Hinv), misses_all, length_fmap, length_take.
          * f_equal. lia.
          * intros g (c & -> & Hc)%list_elem_of_fmap.
            apply Hmiss. apply elem_of_take in Hc as (j & Hj & _).
        by eapply list_elem_of_lookup_2.
        + rewrite Hst, length_take. apply decide_ext. split.
          * intros [? _]. lia.
          * intros ->. split; [lia|]. rewrite take_ge by lia. done. }
    split.
    + intros k Hk. destruct (Hall k) as (st & ? & ? & Hst); [lia|].
      exists st. rewrite decide_False in Hst by lia. done.
    + destruct (Hall (length cs)) as (st & Hplay & ? & Hst); [lia|].
      exists st. rewrite take_ge in Hplay by lia.
      rewrite decide_True in Hst by done. split_and!; [done|lia|done].
Qed.

Lemma loss_checked_before_win_witness :
  (∃ st' correct out,
     guess_step (init_round (chars "dog") 2) (line_of "x")
       = Some (st', Applied correct, out)
     ∧ (incorrectGuesses st' = 2 → status st' = Lost)
     ∧ (incorrectGuesses st' ≠ 2 → placeholder ∉ displayWord st' → status st' = Won)
     ∧ (incorrectGuesses st' ≠ 2 → placeholder ∈ displayWord st' →
        status st' = InProgress))
  ∧ ((∀ k, (k < length ["x"; "Y"])%nat →
        ∃ st, play_letters (init_round (chars "dog") 2) (take k ["x"; "Y"]) = Some st
              ∧ incorrectGuesses st = Z.of_nat k ∧ status st = InProgress)
     ∧ ∃ st, play_letters (init_round (chars "dog") 2) ["x"; "Y"] = Some st
             ∧ incorrectGuesses st = 2 ∧ status st = Lost).
Proof.
  destruct (loss_checked_before_win (chars "dog") 2) as [Hfirst Hsecond].
  split.
  - apply (Hfirst [] _ _ "x").
    + apply played_init.
    + reflexivity.
    + reflexivity.
    + apply not_elem_of_nil.
  - apply Hsecond.
    + discriminate.
    + discriminate.
    + repeat constructor.
    + vm_compute. repeat constructor; rewrite ?list_elem_of_singleton; try discriminate.
      apply not_elem_of_nil.
    + intros c Hc. vm_compute in Hc.
      apply elem_of_cons in Hc as [->|Hc];
        [|apply list_elem_of_singleton in Hc as ->];
        vm_compute; intros Hin;
        repeat (apply elem_of_cons in Hin as [Hin|Hin]; [discriminate Hin|]);
        by apply elem_of_nil in Hin.
    + reflexivity.
Defined.

(** * Standard input *)

Section Stdio.

Implicit Types (input line rest cs buf : list ascii) (w : World).

Lemma read_chars_spec k input cs rest :
  read_chars k input = (cs, rest) →
  input = cs ++ rest ∧ (length cs ≤ k)%nat
  ∧ (input ≠ [] → (0 < k)%nat → cs ≠ []).
Proof.
  revert input cs rest. induction k as [|k IH]; intros input cs rest H.
  - simpl in H. simplify_eq. split_and!; [done|simpl; lia|lia].
  - destruct input as [|c input]; simpl in H.
    { simplify_eq. split_and!; [done|simpl; lia|done]. }
    destruct (decide (c = newline)).
    + simplify_eq. split_and!; [done|simpl; lia|done].
    + destruct (read_chars k input) as [cs' rest'] eqn:Hr. simplify_eq.
      destruct (IH _ _ _ Hr) as (Heq & Hlen & _).
      split_and!; [by rewrite Heq|simpl; lia|done].
Qed.

(** A line that ends in a newline: [fgets] stores it with its newline when
    there is room, and its first bytes otherwise. *)
Lemma read_chars_line k line rest :
  newline ∉ line →
  read_chars k (line ++ newline :: rest)
  = if decide (length line < k)%nat then (line ++ [newline], rest)
    else (take k line, drop k line ++ newline :: rest).
Proof.
  revert line. induction k as [|k IH]; intros line Hnl.
  - cbn [read_chars]. case_decide; [lia|]. by rewrite take_0, drop_0.
  - destruct line as [|c line]; cbn [read_chars app length].
    + rewrite decide_True by done. case_decide; [done|lia].
    + apply not_elem_of_cons in Hnl as [Hc Hnl].
      rewrite decide_False by done. rewrite IH by done.
      repeat case_decide; try lia; done.
Qed.

Lemma fgets_eof size w : stdin w = [] → fgets size w = (None, w).
Proof. intros H. unfold fgets. by rewrite H. Qed.

Lemma fgets_cases size w :
  (stdin w = [] ∧ fgets size w = (None, w))
  ∨ (∃ cs rest, stdin w = cs ++ rest ∧ (length cs ≤ size - 1)%nat
       ∧ ((1 < size)%nat → cs ≠ [])
       ∧ fgets size w = (Some (cs ++ [NUL]), set_stdin rest w)).
Proof.
  unfold fgets. destruct (stdin w) as [|c input] eqn:Hin; [by left|right].
  destruct (read_chars (size - 1) (c :: input)) as [cs rest] eqn:Hr.
  destruct (read_chars_spec _ _ _ _ Hr) as (Heq & Hlen & Hne).
  exists cs, rest. split_and!; [done|done| |done].
  intros Hsize. apply Hne; [done|lia].
Qed.

Lemma fgets_line w line rest :
  newline ∉ line → stdin w = line ++ newline :: rest →
  fgets INPUT_BUFFER_SIZE w
  = if decide (length line < 9)%nat
    then (Some ((line ++ [newline]) ++ [NUL]), set_stdin rest w)
    else (Some (take 9 line ++ [NUL]),
          set_stdin (drop 9 line ++ newline :: rest) w).
Proof.
  intros Hnl Hin. unfold fgets. rewrite Hin.
  destruct (line ++ newline :: rest) as [|c input] eqn:Heq;
    [by destruct line|].
  rewrite <- Heq, read_chars_line by done.
  unfold INPUT_BUFFER_SIZE. simpl Nat.sub. by case_decide.
Qed.

Lemma skip_line_length input : (length (skip_line input) ≤ length input)%nat.
Proof.
  induction input as [|c input IH]; simpl; [done|].
  destruct (decide (c = newline)); lia.
Qed.

Lemma pauseForUser_spec w :
  stdout (pauseForUser w) = stdout w ++ [MsgPressEnter]
  ∧ rng (pauseForUser w) = rng w
  ∧ (length (stdin (pauseForUser w)) ≤ length (stdin w))%nat.
Proof.
  unfold pauseForUser, consumeRemainingInput. simpl.
  split_and!; [done|done|apply skip_line_length].
Qed.

End Stdio.

(** C4, as the code has it.  For a line that ends in a newline (and holds no
    NUL), what [fgets] stores is accepted exactly when the line, without its
    newline and without any trimming, is one letter; the guess is that
    letter, lowered.  An empty line, a line of several bytes (a letter with
    a blank before or after it included) and a single byte that is no
    letter are rejected, the first two with InvalidFormatError, the last
    with InvalidLetterError. *)
Theorem validate_terminated_line (line rest : list ascii) (w : World) :
  newline ∉ line → NUL ∉ line → stdin w = line ++ newline :: rest →
  read_and_validate w = Some (normalizeGuess_untrimmed line)
  ∧ (length line ≠ 1%nat → read_and_validate w = Some (inl InvalidFormatError))
  ∧ (∀ c, line = [c] → isalpha c = false →
       read_and_validate w = Some (inl InvalidLetterError))
  ∧ (∀ c, line = [c] → isalpha c = true →
       read_and_validate w = Some (inr (tolower c)) ∧ is_lower (tolower c)).
Proof.
  intros Hnl Hnul Hin.
  assert (read_and_validate w = Some (normalizeGuess_untrimmed line)) as Hmain.
  { unfold read_and_validate. rewrite (fgets_line _ _ _ Hnl Hin).
    unfold validate_guess. case_decide as Hshort.
    - rewrite (strlen_terminated (line ++ [newline]) []).
      + rewrite length_app. simpl.
        destruct line as [|c [|c' line]]; simpl; [done| |].
        * by destruct (isalpha (tolower c)).
        * by rewrite decide_True by lia.
      + rewrite elem_of_app, list_elem_of_singleton. by intros [?|?].
    - rewrite (strlen_terminated (take 9 line) []).
      + rewrite length_take. cbn [mbind option_bind].
        rewrite decide_True by lia.
        by destruct line as [|? [|? ?]]; simpl in *; [lia..|].
      + intros (j & Hj & _)%elem_of_take. apply Hnul.
        by eapply list_elem_of_lookup_2. }
  split_and!; [done| | |].
  - intros Hlen. rewrite Hmain. by destruct line as [|? [|? ?]].
  - intros c -> Hc. rewrite Hmain. simpl. by rewrite isalpha_tolower_iff, Hc.
  - intros c -> Hc. rewrite Hmain. simpl. rewrite isalpha_tolower_iff, Hc.
    split; [done|]. apply isalpha_tolower_lower. by rewrite isalpha_tolower_iff.
Qed.

Lemma validate_terminated_line_witness :
  read_and_validate (world_of (chars "Q" ++ newline :: chars "rest") (λ _, 0%nat))
    = Some (normalizeGuess_untrimmed (chars "Q"))
  ∧ (length (chars "Q") ≠ 1%nat →
     read_and_validate (world_of (chars "Q" ++ newline :: chars "rest") (λ _, 0%nat))
       = Some (inl InvalidFormatError))
  ∧ (∀ c, chars "Q" = [c] → isalpha c = false →
       read_and_validate (world_of (chars "Q" ++ newline :: chars "rest") (λ _, 0%nat))
         = Some (inl InvalidLetterError))
  ∧ (∀ c, chars "Q" = [c] → isalpha c = true →
       read_and_validate (world_of (chars "Q" ++ newline :: chars "rest") (λ _, 0%nat))
         = Some (inr (tolower c)) ∧ is_lower (tolower c)).
Proof.
  apply (validate_terminated_line (chars "Q") (chars "rest")).
  - intros Hin. apply list_elem_of_singleton in Hin. discriminate Hin.
  - intros Hin. apply list_elem_of_singleton in Hin. discriminate Hin.
  - reflexivity.
Defined.

(** C4, as it is stated, fails: the line of a blank and a letter is
    rejected though its trimmed text is one letter, and the two letters of
    a last line without newline are accepted as the first of them. *)
Lemma trimmed_letter_rejected :
  read_and_validate (world_of (chars " a" ++ [newline]) (λ _, 0%nat))
    = Some (inl InvalidFormatError)
  ∧ normalizeGuess_spec (chars " a") = inr "a"
  ∧ read_and_validate (world_of (chars "ab") (λ _, 0%nat)) = Some (inr "a")
  ∧ normalizeGuess_spec (chars "ab") = inl InvalidFormatError.
Proof. by split_and!. Qed.

(** * The round loop on standard input *)

Section RoundLoop.

Context (word : list ascii) (maxIncorrect : Z).
Implicit Types (gs buf : list ascii) (g : ascii) (st : Round) (w : World).

(** What a line does to a state kept by the invariant. *)
Lemma guess_step_cases gs st buf :
  RoundInv word maxIncorrect gs st → gameOver st = false → NUL ∈ buf →
  ∃ st' r out,
    guess_step st buf = Some (st', r, out)
    ∧ Forall (λ m, round_msg m = true) out
    ∧ RoundInv word maxIncorrect (gs ++ applied_letter st (Some buf)) st'
    ∧ match r with
      | Rejected _ => st' = st
      | Applied _ => gameOver st' = false → playerWon st' = false
      end.
Proof.
  intros H Hover Hbuf.
  destruct (guess_step_total _ _ _ _ _ H Hover Hbuf) as [[[st' r] out] Hstep].
  exists st', r, out. split; [done|].
  assert (turn_state st (Some buf) = Some st') as Hturn
    by (simpl; by rewrite Hstep).
  pose proof (turn_state_inv _ _ _ _ _ _ H Hover Hturn) as H'.
  split_and!; [|done|].
  - destruct (validate_guess buf) as [[e|g]|] eqn:Hv.
    + rewrite (guess_step_invalid _ _ _ Hv) in Hstep. simplify_eq.
      by destruct e; repeat constructor.
    + destruct (decide (g ∈ gs)) as [Hin|Hnew].
      * rewrite (guess_step_duplicate _ _ _ _ _ _ H Hv Hin) in Hstep.
        simplify_eq. by repeat constructor.
      * rewrite (guess_step_new _ _ _ _ _ _ H Hover Hv Hnew) in Hstep.
        simplify_eq. by case_bool_decide; repeat constructor.
    + unfold guess_step in Hstep. by rewrite Hv in Hstep.
  - destruct r as [e|b].
    + by eapply guess_step_rejected.
    + apply (inv_flags _ _ _ _ H').
Qed.

Lemma turn_spec gs st w :
  played word maxIncorrect gs st → gameOver st = false →
  ∃ st' w' line out,
    turn st w = Some (st', w')
    ∧ turn_state st line = Some st'
    ∧ stdout w' = stdout w ++ screen st :: MsgPromptGuess :: out
    ∧ Forall (λ m, round_msg m = true) out
    ∧ rng w' = rng w
    ∧ (length (stdin w') ≤ length (stdin w))%nat
    ∧ (gameOver st' = true ∨ (length (stdin w') < length (stdin w))%nat)
    ∧ (gameOver st' = true →
       playerWon st' = true ∨ incorrectGuesses st' = maxIncorrect ∨ stdin w' = [])
    ∧ (stdin w = [] → stdin w' = [] ∧ st' = set_gameOver st ∧ out = [MsgEOFGame]).
Proof.
  intros Hplayed Hover. pose proof (played_inv _ _ _ _ Hplayed) as H.
  unfold turn.
  set (w0 := print MsgPromptGuess (print (screen st) w)).
  assert (stdout w0 = stdout w ++ [screen st; MsgPromptGuess]) as Hout0
    by (simpl; by rewrite <- app_assoc).
  destruct (fgets_cases INPUT_BUFFER_SIZE w0)
    as [[Hnil ->]|(cs & rest & Hin & _ & Hne & ->)].
  - exists (set_gameOver st), (print MsgEOFGame w0), None, [MsgEOFGame].
    split_and!; [done|done| |by repeat constructor|done|done|by left| |done].
    + simpl. by rewrite <- !app_assoc.
    + intros _. by right; right.
  - destruct (guess_step_cases gs st (cs ++ [NUL]) H Hover)
      as (st' & r & out & Hstep & Hmsgs & H' & Hr).
    { apply elem_of_app. right. apply list_elem_of_here. }
    rewrite Hstep. simpl.
    assert (length rest < length (stdin w))%nat as Hless.
    { change (stdin w) with (stdin w0). rewrite Hin, length_app.
      specialize (Hne ltac:(unfold INPUT_BUFFER_SIZE; lia)).
      destruct cs; [done|simpl; lia]. }
    assert (stdin w ≠ []) as Hnonempty.
    { change (stdin w) with (stdin w0). rewrite Hin.
      specialize (Hne ltac:(unfold INPUT_BUFFER_SIZE; lia)). by destruct cs. }
    destruct r as [e|b].
    + destruct (pauseForUser_spec (prints out (set_stdin rest w0)))
        as (_ & _ & Hlen).
      assert (length (stdin (pauseForUser (prints out (set_stdin rest w0))))
              < length (stdin w))%nat as Hless'
        by (eapply Nat.le_lt_trans; [apply Hlen|done]).
      exists st', (pauseForUser (prints out (set_stdin rest w0))),
        (Some (cs ++ [NUL])), (out ++ [MsgPressEnter]).
      split_and!; [done|by simpl; rewrite Hstep| | |done|lia|by right| |done].
      * simpl. rewrite <- !app_assoc. done.
      * apply Forall_app. split; [done|by repeat constructor].
      * subst st'. by rewrite Hover.
    + exists st', (prints out (set_stdin rest w0)), (Some (cs ++ [NUL])), out.
      split_and!; [done|by simpl; rewrite Hstep| |done|done|simpl; lia|by right| |done].
      * simpl. by rewrite <- !app_assoc.
      * intros Hover'. destruct (playerWon st') eqn:Hwon; [by left|right; left].
        revert Hover' Hwon. clear Hr.
        destruct (validate_guess (cs ++ [NUL])) as [[e|g]|] eqn:Hv.
        -- by rewrite (guess_step_invalid _ _ _ Hv) in Hstep.
        -- destruct (decide (g ∈ gs)) as [Hdup|Hnew].
           ++ by rewrite (guess_step_duplicate _ _ _ _ _ _ H Hv Hdup) in Hstep.
           ++ rewrite (guess_step_new _ _ _ _ _ _ H Hover Hv Hnew) in Hstep.
              simplify_eq. unfold game_over_checked.
              pose proof (inv_max _ _ _ _ H) as Hmax.
              destruct (decide (incorrectGuesses (applied st g)
                                = maxIncorrectGuesses (applied st g))) as [Heq|Hneq].
              ** intros _ _. by rewrite <- Hmax.
              ** destruct (decide (placeholder ∈ displayWord (applied st g)));
                   simpl; [intros Hov|done].
                 by rewrite Hover in Hov.
        -- unfold guess_step in Hstep. by rewrite Hv in Hstep.
Qed.

(** The loop of a round ends, without undefined behaviour, whenever the
    fuel exceeds the number of bytes left on standard input. *)
Lemma round_loop_total fuel : ∀ gs st w,
  played word maxIncorrect gs st → (length (stdin w) < fuel)%nat →
  ∃ st' w' gs' out,
    round_loop fuel st w = Some (st', w')
    ∧ played word maxIncorrect gs' st'
    ∧ gameOver st' = true
    ∧ stdout w' = stdout w ++ out
    ∧ Forall (λ m, round_msg m = true) out
    ∧ rng w' = rng w
    ∧ (length (stdin w') ≤ length (stdin w))%nat
    ∧ (gameOver st = false →
       playerWon st' = true ∨ incorrectGuesses st' = maxIncorrect ∨ stdin w' = []).
Proof.
  induction fuel as [|fuel IH]; intros gs st w Hplayed Hfuel; [lia|].
  simpl. destruct (gameOver st) eqn:Hover.
  - exists st, w, gs, []. rewrite app_nil_r. by split_and!.
  - destruct (turn_spec gs st w Hplayed Hover)
      as (st1 & w1 & line & out1 & -> & Hturn & Hout1 & Hmsg1 & Hrng1 & Hle & Hmeasure & Hwhy & _).
    simpl.
    pose proof (played_turn _ _ _ _ _ _ Hplayed Hover Hturn) as Hplayed1.
    destruct Hmeasure as [Hover1|Hless].
    + exists st1, w1, (gs ++ applied_letter st line),
        (screen st :: MsgPromptGuess :: out1).
      split_and!; [by destruct fuel; simpl; rewrite Hover1|done..| |done|done|auto].
      by repeat constructor.
    + destruct (IH _ st1 w1 Hplayed1)
        as (st' & w' & gs' & out & Hloop & ? & Hover' & Hout & ? & Hrng & ? & Hwhy');
        [lia|].
      rewrite Hloop.
      exists st', w', gs', (screen st :: MsgPromptGuess :: out1 ++ out).
      split_and!; [done|done|done| | |congruence|lia|].
      * rewrite Hout, Hout1, <- app_assoc. done.
      * repeat constructor. by apply Forall_app.
      * intros _. destruct (gameOver st1) eqn:Hover1; [|auto].
        destruct fuel; simpl in Hloop; rewrite Hover1 in Hloop; simplify_eq; auto.
Qed.

End RoundLoop.




(** * The session *)

Section Session.

Implicit Types (wordList : list (list ascii)) (st : Round) (w : World).

Lemma tolower_is_y (c : ascii) : tolower c = "y" ↔ c = "y" ∨ c = "Y".
Proof.
  split.
  - destruct c as [[] [] [] [] [] [] [] []]; vm_compute; intros H;
      first [discriminate H | by left | by right].
  - by intros [->| ->].
Qed.

Lemma play_again_eof w :
  stdin w = [] →
  play_again w = Some ("n", print MsgEOFExiting (print MsgPlayAgain w)).
Proof. intros H. unfold play_again. by rewrite fgets_eof. Qed.

Lemma play_again_answer w c rest :
  stdin w = c :: rest →
  ∃ playAgain w',
    play_again w = Some (playAgain, w')
    ∧ (playAgain = "y" ↔ c = "y" ∨ c = "Y")
    ∧ stdout w' = stdout w ++ [MsgPlayAgain]
    ∧ rng w' = rng w
    ∧ (length (stdin w') < length (stdin w))%nat.
Proof.
  intros Hin. unfold play_again.
  destruct (fgets_cases INPUT_BUFFER_SIZE (print MsgPlayAgain w))
    as [[Hnil _]|(cs & rest' & Hcs & _ & Hne & ->)];
    [simpl in Hnil; by rewrite Hin in Hnil|].
  simpl in Hcs. rewrite Hin in Hcs.
  specialize (Hne ltac:(unfold INPUT_BUFFER_SIZE; lia)).
  destruct cs as [|c' cs]; [done|]. simplify_eq/=.
  assert (length rest' < length (stdin w))%nat as Hless
    by (rewrite Hin, length_cons, length_app; lia).
  destruct (decide (c' = NUL)) as [->|Hc]; simpl.
  - eexists _, _. split_and!; [done| |done|done|done].
    split; [done|]. by intros [?|?].
  - destruct (strlen_is_Some (cs ++ [NUL])) as [n ->].
    { apply elem_of_app. right. apply list_elem_of_here. }
    simpl. eexists _, _. split_and!; [done| |done|done|done].
    apply tolower_is_y.
Qed.

Lemma play_again_total w :
  ∃ playAgain w' out,
    play_again w = Some (playAgain, w')
    ∧ (length (stdin w') ≤ length (stdin w))%nat
    ∧ stdout w' = stdout w ++ MsgPlayAgain :: out
    ∧ (out = [] ∨ out = [MsgEOFExiting]).
Proof.
  destruct (stdin w) as [|c rest] eqn:Hin.
  - rewrite play_again_eof by done. eexists _, _, [MsgEOFExiting].
    split_and!; [done| | |by right].
    + simpl. by rewrite Hin.
    + simpl. by rewrite <- app_assoc.
  - destruct (play_again_answer w c rest Hin) as (pa & w' & -> & _ & ? & ? & ?).
    exists pa, w', []. rewrite Hin in *. split_and!; [done|lia|done|by left].
Qed.


(** A round is played to its end whenever words are there: the loop gets
    enough fuel, and nothing in it is undefined. *)
Lemma play_round_total wordList maxIncorrect w :
  wordList ≠ [] →
  ∃ st w' word gs out,
    play_round wordList maxIncorrect w = Some (st, w')
    ∧ word ∈ wordList
    ∧ played word maxIncorrect gs st
    ∧ gameOver st = true
    ∧ stdout w' = stdout w ++ MsgDebugWord word maxIncorrect :: out
                   ++ [MsgGameOver (incorrectGuesses st); final_message st]
    ∧ Forall (λ m, round_msg m = true) out
    ∧ (length (stdin w') ≤ length (stdin w))%nat
    ∧ (playerWon st = true ∨ incorrectGuesses st = maxIncorrect ∨ stdin w' = []).
Proof.
  intros Hwords. unfold play_round, rand.
  destruct (lookup_lt_is_Some_2 wordList (rng w 0%nat `mod` length wordList))
    as [word Hword].
  { apply Nat.mod_upper_bound. by destruct wordList. }
  rewrite Hword. cbn [mbind option_bind].
  set (w0 := print _ _).
  destruct (round_loop_total word maxIncorrect (S (length (stdin w0))) []
              (init_round word maxIncorrect) w0 (played_init _ _))
    as (st & w' & gs & out & -> & Hplayed & Hover & Hout & Hmsg & _ & Hlen & Hwhy);
    [lia|].
  cbn [mbind option_bind].
  exists st, (print (final_message st) (print (MsgGameOver (incorrectGuesses st)) w')),
    word, gs, out.
  split_and!; [done|by eapply list_elem_of_lookup_2|done|done| |done|done|by apply Hwhy].
  simpl. rewrite Hout. simpl. by rewrite <- !app_assoc.
Qed.

(** One pass through the body of the session loop. *)
Lemma session_body_eof wordList w :
  stdin w = [] →
  session_body wordList w
  = Some (None, "n", print MsgEOFExiting (print MsgDifficultyMenu w)).
Proof. intros H. unfold session_body. by rewrite fgets_eof. Qed.

Lemma session_body_round wordList w :
  wordList ≠ [] → stdin w ≠ [] →
  ∃ difficultyBuffer w1 st w2 playAgain w' word gs,
    fgets INPUT_BUFFER_SIZE (print MsgDifficultyMenu w) = (Some difficultyBuffer, w1)
    ∧ play_round wordList (select_difficulty difficultyBuffer).1
        (pauseForUser (print (select_difficulty difficultyBuffer).2 w1))
      = Some (st, w2)
    ∧ play_again w2 = Some (playAgain, w')
    ∧ session_body wordList w = Some (Some st, playAgain, w')
    ∧ played word (select_difficulty difficultyBuffer).1 gs st
    ∧ gameOver st = true
    ∧ (playerWon st = true
       ∨ incorrectGuesses st = (select_difficulty difficultyBuffer).1
       ∨ stdin w2 = [])
    ∧ (length (stdin w') < length (stdin w))%nat
    ∧ ∃ tail,
        stdout w' = stdout w ++ MsgDifficultyMenu
                      :: (select_difficulty difficultyBuffer).2 :: tail
        ∧ (MsgDifficultyMenu ∉ tail)
        ∧ final_message st ∈ tail.
Proof.
  intros Hwords Hin. unfold session_body.
  destruct (fgets_cases INPUT_BUFFER_SIZE (print MsgDifficultyMenu w))
    as [[Hnil _]|(cs & rest & Hcs & _ & Hne & Hread)]; [done|].
  rewrite Hread.
  destruct (select_difficulty (cs ++ [NUL])) as [maxIncorrect m] eqn:Hsel.
  set (w1 := set_stdin rest (print MsgDifficultyMenu w)) in *.
  destruct (play_round_total wordList maxIncorrect (pauseForUser (print m w1)) Hwords)
    as (st & w2 & word & gs & out & Hround & _ & Hplayed & Hover & Hout & Hmsg & Hlen & Hwhy).
  destruct (play_again_total w2) as (pa & w' & out' & Hagain & Hlen' & Hout' & Hcases).
  exists (cs ++ [NUL]), w1, st, w2, pa, w', word, gs.
  rewrite Hsel. simpl. rewrite Hround. simpl. rewrite Hagain. simpl.
  destruct (pauseForUser_spec (print m w1)) as (Hpout & _ & Hpause).
  split_and!; try done.
  - specialize (Hne ltac:(unfold INPUT_BUFFER_SIZE; lia)).
    change (stdin (print m w1)) with rest in Hpause.
    change (stdin (print MsgDifficultyMenu w)) with (stdin w) in Hcs.
    rewrite Hcs, length_app.
    destruct cs; [done|]. simpl. lia.
  - exists (MsgPressEnter :: MsgDebugWord word maxIncorrect :: out
            ++ [MsgGameOver (incorrectGuesses st); final_message st]
            ++ MsgPlayAgain :: out').
    split_and!.
    + rewrite Hout', Hout, Hpout. simpl. rewrite <- !app_assoc. simpl.
      by rewrite <- !app_assoc.
    + rewrite !elem_of_cons, !elem_of_app, !elem_of_cons.
      intros [?|[?|[Hin'|[[?|[Hfin|[]%elem_of_nil]]|[?|Hin']]]]]; try done.
      * pose proof (proj1 (Forall_forall _ _) Hmsg _ Hin') as Hm. discriminate Hm.
      * unfold final_message in Hfin. by destruct (playerWon st).
      * by destruct Hcases as [-> | ->]; [apply elem_of_nil in Hin'|
          apply list_elem_of_singleton in Hin'].
    + rewrite !elem_of_cons, !elem_of_app, !elem_of_cons. auto 10.
Qed.

Lemma session_total fuel wordList : ∀ w,
  wordList ≠ [] → (length (stdin w) < fuel)%nat →
  ∃ rounds w', session fuel wordList w = Some (rounds, w').
Proof.
  induction fuel as [|fuel IH]; intros w Hwords Hfuel; [lia|].
  cbn [session]. destruct (stdin w) as [|c rest] eqn:Hin.
  - rewrite session_body_eof by done. simpl. by eexists _, _.
  - destruct (session_body_round wordList w Hwords)
      as (buf & w1 & st & w2 & pa & w' & word & gs & _ & _ & _ & -> & _ & _ & _ & Hlen & _);
      [by rewrite Hin|].
    simpl. destruct (decide (pa = "y")); [|by eexists _, _].
    destruct (IH w' Hwords) as (rounds & w'' & ->);
      [rewrite Hin in Hlen; simpl in *; lia|].
    simpl. by eexists _, _.
Qed.

(** The finished game returns on every input: it ends, and nothing in its
    run is undefined. *)
Lemma main_total (wordList : option (list (list ascii))) w :
  ∃ code rounds w', main wordList w = Some (code, rounds, w').
Proof.
  unfold main. destruct wordList as [[|word wordList]|]; [by eexists _, _, _| |by eexists _, _, _].
  destruct (session_total (S (length (stdin w))) (word :: wordList) w)
    as (rounds & w' & ->); [done|lia|].
  simpl. by eexists _, _, _.
Qed.

End Session.

(** * The difficulty line *)

Section DifficultyLine.

Implicit Types (line input s t : list ascii) (c x : ascii) (w : World).

(** What [fgets] stores is the start of the first line, with its newline
    when that was reached. *)
Lemma read_chars_first_line k : ∀ input,
  (read_chars k input).1 = take k (first_line input)
  ∨ (read_chars k input).1 = take k (first_line input) ++ [newline].
Proof.
  induction k as [|k IH]; intros input; [by left|].
  destruct input as [|c input]; [by left|]. cbn [read_chars first_line].
  destruct (decide (c = newline)) as [->|Hc]; [by right|].
  destruct (read_chars k input) as [cs rest] eqn:Hr. specialize (IH input).
  rewrite Hr in IH. cbn [fst take] in *.
  destruct IH as [-> | ->]; [by left|by right].
Qed.

Lemma scan_digits_stop s x t : ∀ acc,
  isdigit x = false → scan_digits acc (s ++ x :: t) = scan_digits acc (s ++ [NUL]).
Proof.
  intros acc Hx. revert acc. induction s as [|c s IH]; intros acc; cbn [app scan_digits].
  - by rewrite Hx.
  - destruct (isdigit c); [apply IH|done].
Qed.

Lemma scan_unsigned_stop s x t :
  isdigit x = false → scan_unsigned (s ++ x :: t) = scan_unsigned (s ++ [NUL]).
Proof.
  intros Hx. destruct s as [|c s]; cbn [app scan_unsigned].
  - by rewrite Hx.
  - destruct (isdigit c); [|done]. f_equal.
    apply (scan_digits_stop (c :: s) x t 0 Hx).
Qed.

(** The newline [fgets] stores makes no difference to the number read. *)
Lemma sscanf_d_newline s : sscanf_d ((s ++ [newline]) ++ [NUL]) = sscanf_d (s ++ [NUL]).
Proof.
  rewrite <- app_assoc. cbn [app]. unfold sscanf_d.
  induction s as [|c s IH]; [done|]. cbn [app skip_space].
  destruct (isspace c); [apply IH|].
  destruct (decide (c = "-")); [by rewrite scan_unsigned_stop|].
  destruct (decide (c = "+")); [by rewrite scan_unsigned_stop|].
  by apply (scan_unsigned_stop (c :: s)).
Qed.

Lemma buffer_parse w difficultyBuffer w1 :
  fgets INPUT_BUFFER_SIZE (print MsgDifficultyMenu w) = (Some difficultyBuffer, w1) →
  sscanf_d difficultyBuffer = parse_number (take 9 (first_line (stdin w))).
Proof.
  unfold fgets. change (stdin (print MsgDifficultyMenu w)) with (stdin w).
  destruct (stdin w) as [|c input] eqn:Hin; [done|].
  change (INPUT_BUFFER_SIZE - 1)%nat with 9%nat.
  pose proof (read_chars_first_line 9 (c :: input)) as Hcs.
  destruct (read_chars 9 (c :: input)) as [cs rest]. intros [= <- _].
  unfold parse_number. cbn [fst] in Hcs.
  destruct Hcs as [-> | ->]; [done|apply sscanf_d_newline].
Qed.

Lemma select_difficulty_spec w difficultyBuffer w1 :
  fgets INPUT_BUFFER_SIZE (print MsgDifficultyMenu w) = (Some difficultyBuffer, w1) →
  select_difficulty difficultyBuffer
  = selectDifficulty_spec (take 9 (first_line (stdin w))).
Proof.
  intros Hread. unfold select_difficulty, selectDifficulty_spec.
  rewrite (buffer_parse _ _ _ Hread).
  destruct (parse_number _) as [[|p|p]|]; try done;
    by destruct p as [[p|p|]|[p|p|]|].
Qed.

End DifficultyLine.

(** C6, as the code has it.  The difficulty line is read into a buffer of
    ten bytes (704), so the number is read from the first nine bytes of the
    line, as [sscanf] reads it: 1 selects Easy with 8 mistakes, 2 Medium
    with 6, 3 Hard with 4; no number there, and a number other than 1, 2
    and 3, select Medium with 6 and the notice of the default.  Whatever
    the line, the round follows at once with the allowance selected: the
    menu is printed once in the pass.  A line of at most nine bytes is
    parsed whole. *)
Theorem difficulty_selection (wordList : list (list ascii)) (w : World) :
  wordList ≠ [] → stdin w ≠ [] →
  ∃ st playAgain w' tail,
    session_body wordList w = Some (Some st, playAgain, w')
    ∧ stdout w' = stdout w ++ MsgDifficultyMenu
                    :: (selectDifficulty_spec (take 9 (first_line (stdin w)))).2
                    :: tail
    ∧ (MsgDifficultyMenu ∉ tail)
    ∧ maxIncorrectGuesses st
      = (selectDifficulty_spec (take 9 (first_line (stdin w)))).1
    ∧ (maxIncorrectGuesses st = 8
       ↔ parse_number (take 9 (first_line (stdin w))) = Some 1)
    ∧ (maxIncorrectGuesses st = 4
       ↔ parse_number (take 9 (first_line (stdin w))) = Some 3)
    ∧ (maxIncorrectGuesses st = 6
       ↔ parse_number (take 9 (first_line (stdin w))) ≠ Some 1
         ∧ parse_number (take 9 (first_line (stdin w))) ≠ Some 3)
    ∧ ((length (first_line (stdin w)) ≤ 9)%nat →
       maxIncorrectGuesses st = (selectDifficulty_spec (first_line (stdin w))).1).
Proof.
  intros Hwords Hin.
  destruct (session_body_round wordList w Hwords Hin)
    as (buf & w1 & st & w2 & pa & w' & word & gs
        & Hread & _ & _ & Hbody & Hplayed & _ & _ & _ & tail & Hout & Hmenu & _).
  pose proof (inv_max _ _ _ _ (played_inv _ _ _ _ Hplayed)) as Hmax.
  rewrite (select_difficulty_spec _ _ _ Hread) in Hout, Hmax.
  exists st, pa, w', tail. split_and!; [done|done|done|done| | | |].
  - rewrite Hmax. unfold selectDifficulty_spec.
    destruct (parse_number _) as [[|p|p]|]; try done;
      by destruct p as [[p|p|]|[p|p|]|].
  - rewrite Hmax. unfold selectDifficulty_spec.
    destruct (parse_number _) as [[|p|p]|]; try done;
      by destruct p as [[p|p|]|[p|p|]|].
  - rewrite Hmax. unfold selectDifficulty_spec.
    destruct (parse_number _) as [[|p|p]|];
      [|destruct p as [[p|p|]|[p|p|]|]|..]; cbn [fst];
      (split; [first [done | by split]
              |intros [H1 H3]; first [done | by destruct H1 | by destruct H3]]).
  - intros Hshort. by rewrite Hmax, take_ge.
Qed.

Lemma difficulty_selection_witness :
  ∃ st playAgain w' tail,
    session_body [chars "cat"] (world_of (chars "banana" ++ [newline]) (λ _, 0%nat))
    = Some (Some st, playAgain, w')
    ∧ stdout w' = [] ++ MsgDifficultyMenu :: MsgDefaultMedium :: tail
    ∧ (MsgDifficultyMenu ∉ tail)
    ∧ maxIncorrectGuesses st = 6
    ∧ (maxIncorrectGuesses st = 8 ↔ parse_number (chars "banana") = Some 1)
    ∧ (maxIncorrectGuesses st = 4 ↔ parse_number (chars "banana") = Some 3)
    ∧ (maxIncorrectGuesses st = 6
       ↔ parse_number (chars "banana") ≠ Some 1
         ∧ parse_number (chars "banana") ≠ Some 3)
    ∧ ((length (chars "banana") ≤ 9)%nat →
       maxIncorrectGuesses st = (selectDifficulty_spec (chars "banana")).1).
Proof.
  apply (difficulty_selection [chars "cat"]
           (world_of (chars "banana" ++ [newline]) (λ _, 0%nat)));
    discriminate.
Defined.

(** C6, as it is stated, fails on a line longer than the buffer: the line
    00000000312 holds the number 312, outside 1..3, and selects Hard with 4
    mistakes, for [fgets] stored 000000003; nine blanks and 1 hold the
    number 1 and select Medium with the notice of the default. *)
Lemma long_difficulty_line_cut :
  (parse_number (chars "00000000312") = Some 312
   ∧ selectDifficulty_spec (chars "00000000312") = (6, MsgDefaultMedium)
   ∧ ∃ st playAgain w',
       session_body [chars "cat"]
         (world_of (chars "00000000312" ++ [newline]) (λ _, 0%nat))
       = Some (Some st, playAgain, w')
       ∧ maxIncorrectGuesses st = 4
       ∧ stdout w' !! 1%nat = Some MsgHard)
  ∧ (parse_number (chars "         1") = Some 1
     ∧ selectDifficulty_spec (chars "         1") = (8, MsgEasy)
     ∧ ∃ st playAgain w',
         session_body [chars "cat"]
           (world_of (chars "         1" ++ [newline]) (λ _, 0%nat))
         = Some (Some st, playAgain, w')
         ∧ maxIncorrectGuesses st = 6
         ∧ stdout w' !! 1%nat = Some MsgDefaultMedium).
Proof.
  split; (split_and!; [done|done|]);
    (eexists _, _, _; split; [vm_compute; reflexivity|by split]).
Qed.




(** * The draft *)

Section DraftGame.

Context (word : list ascii).
Implicit Types (gs buf : list ascii) (g : ascii) (st : Round) (w : World).

Lemma draft_skip_line_length (input : list ascii) :
  (length (Draft.skip_line input) ≤ length input)%nat.
Proof.
  induction input as [|c input IH]; simpl; [done|].
  repeat case_decide; lia.
Qed.

Lemma draft_pause_spec w :
  stdout (Draft.pauseForUser w) = stdout w ++ [MsgPressEnter]
  ∧ (length (stdin (Draft.pauseForUser w)) ≤ length (stdin w))%nat.
Proof.
  unfold Draft.pauseForUser. simpl. split; [done|].
  etransitivity; apply draft_skip_line_length.
Qed.

(** One turn of the draft keeps the invariant of a round and never touches
    [playerWon]. *)
Lemma draft_turn_spec gs st w :
  RoundInv word MAX_INCORRECT_GUESSES gs st →
  playerWon st = false → gameOver st = false →
  ∃ st' w' gs' out,
    Draft.turn st w = Some (st', w')
    ∧ RoundInv word MAX_INCORRECT_GUESSES gs' st'
    ∧ playerWon st' = false
    ∧ stdout w' = stdout w ++ out
    ∧ Forall (λ m, round_msg m = true) out
    ∧ (length (stdin w') ≤ length (stdin w))%nat
    ∧ (gameOver st' = true ∨ (length (stdin w') < length (stdin w))%nat).
Proof.
  intros H Hwon Hover. unfold Draft.turn.
  set (w0 := print MsgPromptGuess (print (screen st) w)).
  assert (stdout w0 = stdout w ++ [screen st; MsgPromptGuess]) as Hout0
    by (simpl; by rewrite <- app_assoc).
  destruct (fgets_cases INPUT_BUFFER_SIZE w0)
    as [[Hnil ->]|(cs & rest & Hin & _ & Hne & ->)].
  - exists (set_gameOver st), (print MsgEOFGame w0), gs,
      [screen st; MsgPromptGuess; MsgEOFGame].
    split_and!; [done|by apply set_gameOver_inv|done| |by repeat constructor|done|by left].
    simpl. by rewrite <- !app_assoc.
  - specialize (Hne ltac:(unfold INPUT_BUFFER_SIZE; lia)).
    assert (length rest < length (stdin w))%nat as Hless.
    { change (stdin w) with (stdin w0). rewrite Hin, length_app.
      destruct cs; [done|simpl; lia]. }
    set (w1 := set_stdin rest w0).
    assert (∀ out, (length (stdin (Draft.pauseForUser (prints out w1)))
                    < length (stdin w))%nat) as Hpause.
    { intros out. destruct (draft_pause_spec (prints out w1)) as [_ Hle].
      eapply Nat.le_lt_trans; [apply Hle|done]. }
    destruct (validate_guess_total (cs ++ [NUL])) as [[e|g] Hv].
    { apply elem_of_app. right. apply list_elem_of_here. }
    + rewrite Hv. cbn [mbind option_bind].
      exists st, (Draft.pauseForUser (prints [error_message e] w1)), gs,
        [screen st; MsgPromptGuess; error_message e; MsgPressEnter].
      pose proof (Hpause [error_message e]).
      split_and!; [by destruct e|done|done| | |lia|by right].
      * simpl. by rewrite <- !app_assoc.
      * destruct e; by repeat constructor.
    + rewrite Hv. cbn [mbind option_bind].
      pose proof (validate_guess_lower _ _ Hv) as Hg.
      destruct (decide (g ∈ gs)) as [Hdup|Hnew].
      * rewrite (apply_guess_duplicate _ _ _ _ _ H Hdup). cbn [mbind option_bind].
        exists st, (Draft.pauseForUser (prints [MsgAlreadyGuessed g] w1)), gs,
          [screen st; MsgPromptGuess; MsgAlreadyGuessed g; MsgPressEnter].
        pose proof (Hpause [MsgAlreadyGuessed g]).
        split_and!; [done|done|done| |by repeat constructor|lia|by right].
        simpl. by rewrite <- !app_assoc.
      * rewrite (apply_guess_new _ _ _ _ _ H Hg Hnew). cbn [mbind option_bind].
        pose proof (applied_inv _ _ _ _ _ H Hover Hg Hnew) as H1.
        set (out := [MsgProcessing g;
                     if bool_decide (g ∈ word) then MsgCorrect g else MsgIncorrect g]).
        assert (Forall (λ m, round_msg m = true) out) as Hmsg
          by (unfold out; case_bool_decide; by repeat constructor).
        clearbody out.
        destruct (bool_decide (MAX_INCORRECT_GUESSES - incorrectGuesses st ≤ 0)
                  && negb (gameOver (applied st g))).
        -- exists (set_gameOver (applied st g)),
             (Draft.pauseForUser (print MsgForcedGameOver (prints out w1))),
             (gs ++ [g]),
             (screen st :: MsgPromptGuess :: out ++ [MsgForcedGameOver; MsgPressEnter]).
           destruct (draft_pause_spec (print MsgForcedGameOver (prints out w1)))
             as [_ Hle].
           split_and!; [done|by apply set_gameOver_inv|done| | | |by left].
           ++ simpl. by rewrite <- !app_assoc.
           ++ repeat constructor. apply Forall_app. split; [done|by repeat constructor].
           ++ etransitivity; [apply Hle|]. simpl. lia.
        -- exists (applied st g), (prints out w1), (gs ++ [g]),
             (screen st :: MsgPromptGuess :: out).
           split_and!; [done|done|done| |by repeat constructor|simpl; lia|by right].
           simpl. by rewrite <- !app_assoc.
Qed.

Lemma draft_game_loop_total fuel : ∀ gs st w,
  RoundInv word MAX_INCORRECT_GUESSES gs st → playerWon st = false →
  (length (stdin w) < fuel)%nat →
  ∃ st' w' gs' out,
    Draft.game_loop fuel st w = Some (st', w')
    ∧ RoundInv word MAX_INCORRECT_GUESSES gs' st'
    ∧ playerWon st' = false
    ∧ gameOver st' = true
    ∧ stdout w' = stdout w ++ out
    ∧ Forall (λ m, round_msg m = true) out.
Proof.
  induction fuel as [|fuel IH]; intros gs st w H Hwon Hfuel; [lia|].
  simpl. destruct (gameOver st) eqn:Hover.
  - exists st, w, gs, []. rewrite app_nil_r. by split_and!.
  - destruct (draft_turn_spec gs st w H Hwon Hover)
      as (st1 & w1 & gs1 & out1 & -> & H1 & Hwon1 & Hout1 & Hmsg1 & Hle & Hmeasure).
    simpl. destruct Hmeasure as [Hover1|Hless].
    + exists st1, w1, gs1, out1.
      split_and!; [by destruct fuel; simpl; rewrite Hover1|done..].
    + destruct (IH gs1 st1 w1 H1 Hwon1)
        as (st' & w' & gs' & out & -> & ? & ? & ? & Hout & ?); [lia|].
      exists st', w', gs', (out1 ++ out).
      split_and!; [done..| |by apply Forall_app].
      by rewrite Hout, Hout1, <- app_assoc.
Qed.

End DraftGame.

(** C8.  The draft plays its round to the end on every word and every
    input, and [playerWon] is 0 at the end: the message after the loop is
    the one of a loss, and no message of the run is the one of a win.  So
    it is when every letter of the word was guessed: on "cat" and the lines
    a, c, t the display ends as "cat" and the loss message is printed. *)
Theorem draft_never_congratulates :
  (∀ word w,
     ∃ st w' out,
       Draft.play word w = Some (st, w')
       ∧ gameOver st = true
       ∧ playerWon st = false
       ∧ final_message st = MsgSorry word
       ∧ stdout w' = stdout w ++ MsgDebugWord word MAX_INCORRECT_GUESSES :: out
                      ++ [MsgGameOver (incorrectGuesses st); MsgSorry word]
       ∧ ∀ x, MsgCongratulations x ∉ out)
  ∧ (∀ wordList w,
       ∃ code round w',
         Draft.main wordList w = Some (code, round, w')
         ∧ ∀ x, MsgCongratulations x ∈ stdout w' → MsgCongratulations x ∈ stdout w)
  ∧ ∃ st w',
      Draft.play (chars "cat")
        (world_of (chars "a" ++ newline :: chars "c" ++ newline :: chars "t" ++ [newline])
                  (λ _, 0%nat)) = Some (st, w')
      ∧ displayWord st = chars "cat" ++ [NUL]
      ∧ incorrectGuesses st = 0
      ∧ last (stdout w') = Some (MsgSorry (chars "cat")).
Proof.
  assert (∀ word w,
     ∃ st w' out,
       Draft.play word w = Some (st, w')
       ∧ gameOver st = true
       ∧ playerWon st = false
       ∧ final_message st = MsgSorry word
       ∧ stdout w' = stdout w ++ MsgDebugWord word MAX_INCORRECT_GUESSES :: out
                      ++ [MsgGameOver (incorrectGuesses st); MsgSorry word]
       ∧ ∀ x, MsgCongratulations x ∉ out) as Hplay.
  { intros word w. unfold Draft.play.
    set (w0 := print _ w).
    destruct (draft_game_loop_total word (S (length (stdin w0))) []
                (init_round word MAX_INCORRECT_GUESSES) w0)
      as (st & w' & gs & out & -> & H & Hwon & Hover & Hout & Hmsg);
      [apply init_round_inv|done|lia|].
    cbn [mbind option_bind].
    assert (final_message st = MsgSorry word) as Hfinal
      by (unfold final_message; by rewrite Hwon, (inv_word _ _ _ _ H)).
    eexists _, _, out. split_and!; [done|done|done|done| |].
    - simpl. rewrite Hfinal, Hout. simpl. by rewrite <- !app_assoc.
    - intros x Hin.
      pose proof (proj1 (Forall_forall _ _) Hmsg _ Hin) as Hm. discriminate Hm. }
  split_and!; [done| |].
  - intros wordList w. unfold Draft.main.
    destruct wordList as [[|word0 wordList]|]; [by eexists _, _, _| |by eexists _, _, _].
    unfold rand.
    destruct (lookup_lt_is_Some_2 (word0 :: wordList)
                (rng w 0%nat `mod` length (word0 :: wordList))) as [word Hword].
    { by apply Nat.mod_upper_bound. }
    rewrite Hword. cbn [mbind option_bind].
    set (w0 := mkWorld _ _ _).
    destruct (Hplay word w0) as (st & w' & out & -> & _ & _ & _ & Hout & Hno).
    cbn [mbind option_bind]. eexists _, _, _. split; [done|].
    intros x. simpl. rewrite Hout. simpl.
    rewrite !elem_of_app, !elem_of_cons, !elem_of_app, !elem_of_cons.
    intros [[?|[?|[Hin|[?|[?|[]%elem_of_nil]]]]]|[?|[]%elem_of_nil]]; try done.
    by destruct (Hno x).
  - eexists _, _. split; [vm_compute; reflexivity|]. by split_and!.
Qed.

Lemma draft_never_congratulates_witness :
  (∃ st w' out,
     Draft.play (chars "cat") no_input = Some (st, w')
     ∧ gameOver st = true
     ∧ playerWon st = false
     ∧ final_message st = MsgSorry (chars "cat")
     ∧ stdout w' = stdout no_input
                     ++ MsgDebugWord (chars "cat") MAX_INCORRECT_GUESSES :: out
                     ++ [MsgGameOver (incorrectGuesses st); MsgSorry (chars "cat")]
     ∧ ∀ x, MsgCongratulations x ∉ out)
  ∧ ∃ code round w',
      Draft.main (Some [chars "cat"]) abandoned_input = Some (code, round, w')
      ∧ ∀ x, MsgCongratulations x ∈ stdout w' →
             MsgCongratulations x ∈ stdout abandoned_input.
Proof.
  destruct draft_never_congratulates as (Hplay & Hmain & _).
  split.
  - apply (Hplay (chars "cat") no_input).
  - apply (Hmain (Some [chars "cat"]) abandoned_input).
Defined.

(** The test that ends the draft looks at the mistakes counted before the
    guess of the turn: after the sixth miss the draft asks for one more
    guess, and a seventh miss is counted. *)
Lemma draft_ends_one_guess_late :
  ∃ st w',
    Draft.play (chars "cat")
      (world_of (chars "b" ++ newline :: chars "d" ++ newline :: chars "e"
                 ++ newline :: chars "f" ++ newline :: chars "g" ++ newline
                 :: chars "h" ++ newline :: chars "i" ++ [newline])
                (λ _, 0%nat)) = Some (st, w')
    ∧ incorrectGuesses st = 7
    ∧ guessed st = chars "bdefghi".
Proof. eexists _, _. split; [vm_compute; reflexivity|]. by split. Qed.

(** * The scenarios of the specification *)

(** The word "cat" and the guesses a, c, t: the display after each guess,
    and the round won with the last. *)
Lemma scenario_cat :
  (displayWord <$> play_letters (init_round (chars "cat") 6) (chars "a"))
    = Some (chars "_a_" ++ [NUL])
  ∧ (status <$> play_letters (init_round (chars "cat") 6) (chars "a"))
    = Some InProgress
  ∧ (displayWord <$> play_letters (init_round (chars "cat") 6) (chars "ac"))
    = Some (chars "ca_" ++ [NUL])
  ∧ (displayWord <$> play_letters (init_round (chars "cat") 6) (chars "act"))
    = Some (chars "cat" ++ [NUL])
  ∧ (status <$> play_letters (init_round (chars "cat") 6) (chars "act"))
    = Some Won.
Proof. by split_and!. Qed.

(** The word "dog", two mistakes allowed, and the guesses x, y, z: the round
    is lost with y, and z is never applied. *)
Lemma scenario_dog :
  (incorrectGuesses <$> play_letters (init_round (chars "dog") 2) (chars "x"))
    = Some 1
  ∧ (status <$> play_letters (init_round (chars "dog") 2) (chars "x"))
    = Some InProgress
  ∧ (status <$> play_letters (init_round (chars "dog") 2) (chars "xy"))
    = Some Lost
  ∧ (guessed <$> play_letters (init_round (chars "dog") 2) (chars "xyz"))
    = Some (chars "xy").
Proof. by split_and!. Qed.

(** * loadWords *)

Section LoadWords.

Implicit Types (stream cs buf line rest : list ascii) (wordList : list (list ascii)).

Lemma strlen_spec buf : ∀ n,
  strlen buf = Some n ↔ (NUL ∉ take n buf) ∧ buf !! n = Some NUL.
Proof.
  induction buf as [|x buf IH]; intros n; simpl.
  - split; [done|]. by intros [_ ?].
  - destruct (decide (x = NUL)) as [->|Hx].
    + split.
      * intros [= <-]. split; [apply not_elem_of_nil|done].
      * intros [Hno Hn]. destruct n as [|n]; [done|].
        destruct Hno. simpl. apply list_elem_of_here.
    + split.
      * destruct (strlen buf) as [m|] eqn:Hm; [|done]. intros [= <-].
        destruct (proj1 (IH m) eq_refl) as [Hno Hm']. split; [|done].
        simpl. by apply not_elem_of_cons.
      * intros [Hno Hn]. destruct n as [|n]; [by simplify_eq/=|].
        simpl in Hno, Hn. apply not_elem_of_cons in Hno as [_ Hno].
        by rewrite (proj2 (IH n) (conj Hno Hn)).
Qed.

Lemma strlen_bound buf n : strlen buf = Some n → (n < length buf)%nat.
Proof. intros [_ Hn]%strlen_spec. by eapply lookup_lt_Some. Qed.

(** In what [fgets] stores, a newline can only be the last byte. *)
Lemma read_chars_newline k : ∀ input cs rest,
  read_chars k input = (cs, rest) →
  newline ∉ cs ∨ ∃ pre, cs = pre ++ [newline] ∧ newline ∉ pre.
Proof.
  induction k as [|k IH]; intros input cs rest H.
  - simpl in H. simplify_eq. left. apply not_elem_of_nil.
  - destruct input as [|c input]; simpl in H.
    { simplify_eq. left. apply not_elem_of_nil. }
    destruct (decide (c = newline)) as [->|Hc].
    + simplify_eq. right. exists []. split; [done|apply not_elem_of_nil].
    + destruct (read_chars k input) as [cs' rest'] eqn:Hr. simplify_eq.
      destruct (IH _ _ _ Hr) as [Hno|(pre & -> & Hno)].
      * left. by apply not_elem_of_cons.
      * right. exists (c :: pre). split; [done|by apply not_elem_of_cons].
Qed.

Lemma file_gets_None stream : file_gets MAX_WORD_LENGTH stream = None ↔ stream = [].
Proof.
  unfold file_gets. destruct stream as [|c stream]; [done|].
  by destruct (read_chars _ _).
Qed.

Lemma file_gets_spec stream buf rest :
  file_gets MAX_WORD_LENGTH stream = Some (buf, rest) →
  ∃ cs, buf = cs ++ [NUL] ∧ stream = cs ++ rest ∧ cs ≠ []
        ∧ (length cs ≤ 99)%nat
        ∧ (newline ∉ cs ∨ ∃ pre, cs = pre ++ [newline] ∧ newline ∉ pre).
Proof.
  unfold file_gets. destruct stream as [|c stream]; [done|].
  destruct (read_chars _ _) as [cs rest'] eqn:Hr. intros [= <- <-].
  destruct (read_chars_spec _ _ _ _ Hr) as (Heq & Hlen & Hne).
  exists cs. split_and!; [done|done| |done|by eapply read_chars_newline].
  apply Hne; [done|unfold MAX_WORD_LENGTH; lia].
Qed.

(** What 99-104 leave in the buffer is a string without newline and without
    NUL, no longer than what was read. *)
Lemma strip_newline_spec cs :
  newline ∉ cs ∨ (∃ pre, cs = pre ++ [newline] ∧ newline ∉ pre) →
  ∃ buf len,
    strip_newline (cs ++ [NUL]) = Some (buf, len)
    ∧ length (take len buf) = len
    ∧ (NUL ∉ take len buf)
    ∧ (newline ∉ take len buf)
    ∧ (len ≤ length cs)%nat.
Proof.
  intros Hnl. unfold strip_newline.
  destruct (strlen_is_Some (cs ++ [NUL])) as [n Hn].
  { apply elem_of_app. right. apply list_elem_of_here. }
  rewrite Hn. cbn [mbind option_bind].
  pose proof (strlen_bound _ _ Hn) as Hbound.
  destruct (proj1 (strlen_spec _ _) Hn) as [Hno Hat].
  rewrite length_app in Hbound. simpl in Hbound.
  assert (n ≤ length cs)%nat as Hle by lia.
  assert (take n (cs ++ [NUL]) = take n cs) as Htake
    by (by rewrite take_app_le by lia).
  destruct (decide (0 < n)%nat) as [Hpos|Hzero].
  - destruct (lookup_lt_is_Some_2 (cs ++ [NUL]) (n - 1)) as [c Hc];
      [rewrite length_app; simpl; lia|].
    rewrite Hc. cbn [mbind option_bind].
    destruct (decide (c = newline)) as [->|Hc'].
    + unfold store. rewrite decide_True by (rewrite length_app; simpl; lia).
      cbn [mbind option_bind]. rewrite Nat2Z.id.
      assert (strlen (<[(n - 1)%nat:=NUL]> (cs ++ [NUL])) = Some (n - 1)%nat) as Hn'.
      { apply strlen_spec. split.
        - rewrite take_insert_ge by lia. intros Hin. apply Hno.
          apply elem_of_take in Hin as (j & Hj & ?).
          apply elem_of_take. exists j. split; [done|lia].
        - apply list_lookup_insert_eq. rewrite length_app. simpl. lia. }
      rewrite Hn'. cbn [mbind option_bind]. eexists _, _. split; [done|].
      rewrite take_insert_ge by lia.
      assert (take (n - 1) (cs ++ [NUL]) = take (n - 1) cs) as Htake'
        by (by rewrite take_app_le by lia).
      rewrite Htake'. split_and!.
      * rewrite length_take. lia.
      * intros Hin. apply Hno. rewrite Htake.
        apply elem_of_take in Hin as (j & Hj & ?).
        apply elem_of_take. exists j. split; [done|lia].
      * destruct Hnl as [Hnl|(pre & -> & Hnl)].
        -- intros (j & Hj & _)%elem_of_take. apply Hnl.
           by eapply list_elem_of_lookup_2.
        -- intros (j & Hj & Hlt)%elem_of_take.
           rewrite length_app in Hle. simpl in Hle.
           rewrite lookup_app_l in Hj by lia.
           apply Hnl. by eapply list_elem_of_lookup_2.
      * lia.
    + eexists _, _. split; [done|]. rewrite Htake. split_and!.
      * rewrite length_take. lia.
      * by rewrite <- Htake.
      * destruct Hnl as [Hnl|(pre & -> & Hnl)].
        -- intros (j & Hj & _)%elem_of_take. apply Hnl.
           by eapply list_elem_of_lookup_2.
        -- intros (j & Hj & Hlt)%elem_of_take.
           rewrite length_app in Hle. simpl in Hle.
           destruct (decide (j < length pre)%nat) as [Hjl|Hjl].
           ++ rewrite lookup_app_l in Hj by lia.
              apply Hnl. by eapply list_elem_of_lookup_2.
           ++ assert (j = length pre) as -> by lia.
              assert (n = length pre + 1)%nat as -> by lia.
              rewrite lookup_app_l in Hc by (rewrite length_app; simpl; lia).
              replace (length pre + 1 - 1)%nat with (length pre) in Hc by lia.
              rewrite list_lookup_middle in Hc by done. by simplify_eq.
      * done.
  - assert (n = 0)%nat as -> by lia. eexists _, _. split; [done|].
    rewrite take_0. split_and!; [done|apply not_elem_of_nil..|lia].
Qed.

Lemma count_lines_nonneg fuel : ∀ stream c,
  count_lines fuel stream = Some c → 0 ≤ c.
Proof.
  induction fuel as [|fuel IH]; intros stream c; simpl;
    destruct (file_gets _ stream) as [[buf rest]|]; intros H; simplify_eq; try done.
  revert H.
  destruct (count_lines fuel rest) as [c'|] eqn:Hc; [|done]. simpl.
  unfold int_succ. case_decide; [|done]. intros [= <-].
  specialize (IH _ _ Hc). lia.
Qed.

Lemma count_lines_total fuel : ∀ stream,
  (length stream ≤ fuel)%nat → Z.of_nat (length stream) < INT_MAX →
  ∃ c, count_lines fuel stream = Some c
       ∧ 0 ≤ c ≤ Z.of_nat (length stream)
       ∧ (c = 0 ↔ stream = []).
Proof.
  induction fuel as [|fuel IH]; intros stream Hfuel Hmax.
  - destruct stream; [|simpl in Hfuel; lia]. exists 0. by split_and!.
  - simpl. destruct (file_gets _ stream) as [[buf rest]|] eqn:Hget.
    + destruct (file_gets_spec _ _ _ Hget) as (cs & _ & -> & Hne & _).
      rewrite length_app in *.
      assert (0 < length cs)%nat by (destruct cs; [done|simpl; lia]).
      destruct (IH rest) as (c & -> & Hc & _); [lia..|]. simpl.
      unfold int_succ. rewrite decide_True by lia.
      exists (c + 1). split_and!; [done|lia|lia|].
      split; [lia|]. intros Heq. by destruct cs.
    + apply file_gets_None in Hget as ->. exists 0. by split_and!.
Qed.

(** The second pass never stops at the test of 92-98, and every word it
    stores is a non-empty string without newline. *)
Lemma read_words_total fuel : ∀ stream lineCount wordList i c,
  count_lines fuel stream = Some c →
  0 ≤ i → i + c ≤ lineCount → lineCount ≤ INT_MAX →
  ∃ ws, read_words fuel lineCount stream wordList i
        = Some (wordList ++ ws, i + Z.of_nat (length ws))
        ∧ Forall (λ word, word ≠ [] ∧ plain_line word) ws
        ∧ Z.of_nat (length ws) ≤ c.
Proof.
  induction fuel as [|fuel IH]; intros stream lineCount wordList i c; simpl;
    destruct (file_gets _ stream) as [[buf rest]|] eqn:Hget;
    intros Hcount Hi Hle Hmax; try done.
  - simplify_eq. exists []. rewrite app_nil_r, Z.add_0_r. by split_and!.
  - destruct (count_lines fuel rest) as [c'|] eqn:Hc; [|done].
    simpl in Hcount. unfold int_succ in Hcount.
    case_decide; [|done]. simplify_eq.
    pose proof (count_lines_nonneg _ _ _ Hc) as Hc'.
    rewrite decide_False by lia.
    destruct (file_gets_spec _ _ _ Hget) as (cs & -> & _ & _ & Hlen & Hnl).
    destruct (strip_newline_spec cs Hnl)
      as (buf' & len & -> & Hwlen & Hnul & Hnonl & Hlen').
    cbn [mbind option_bind].
    destruct (decide (len = 0%nat)) as [->|Hpos].
    + destruct (IH rest lineCount wordList i c' Hc) as (ws & -> & Hok & Hws);
        [lia..|].
      exists ws. split_and!; [done|done|lia].
    + unfold int_succ. rewrite decide_True by lia. cbn [mbind option_bind].
      destruct (IH rest lineCount (wordList ++ [take len buf']) (i + 1) c' Hc)
        as (ws & -> & Hok & Hws); [lia..|].
      exists (take len buf' :: ws). split_and!.
      * rewrite <- app_assoc. simpl. do 2 f_equal. lia.
      * constructor; [|done]. split.
        -- intros Hnil. rewrite Hnil in Hwlen. simpl in Hwlen. lia.
        -- split_and!; [done|done|lia].
      * simpl. lia.
  - simplify_eq. exists []. rewrite app_nil_r, Z.add_0_r. by split_and!.
Qed.

End LoadWords.

(** X1.  [loadWords] returns on every file shorter than [INT_MAX] bytes.
    It returns NULL exactly when the file cannot be opened or is empty;
    otherwise the count it reports is the number of words in the list, and
    every word is a non-empty string of at most 99 bytes without newline
    (and, being a string, without NUL). *)
Theorem loadWords_well_formed (content : list ascii) :
  Z.of_nat (length content) < INT_MAX →
  loadWords None = Some (None, 0)
  ∧ ∃ result,
      loadWords (Some content) = Some result
      ∧ (content = [] → result = (None, 0))
      ∧ (content ≠ [] →
         ∃ ws, result = (Some ws, Z.of_nat (length ws))
               ∧ Forall (λ word, word ≠ [] ∧ plain_line word) ws
               ∧ (length ws ≤ length content)%nat).
Proof.
  intros Hmax. split; [done|]. unfold loadWords.
  destruct (count_lines_total (length content) content) as (c & Hc & Hrange & Hzero);
    [done..|].
  rewrite Hc. cbn [mbind option_bind].
  destruct (decide (c = 0)) as [->|Hpos].
  - eexists. split_and!; [done|done|]. intros Hne. by destruct Hne, Hzero as [-> _].
  - destruct (read_words_total _ content c [] 0 c Hc) as (ws & -> & Hok & Hws);
      [lia..|].
    cbn [mbind option_bind]. eexists. split_and!; [done| |].
    + intros ->. by destruct Hpos, Hzero as [_ ->].
    + intros _. exists ws. split_and!; [done|done|lia].
Qed.

Section LoadText.

Implicit Types (line last rest : list ascii) (lines wordList : list (list ascii)).

Lemma read_chars_all k : ∀ line,
  newline ∉ line → (length line ≤ k)%nat → read_chars k line = (line, []).
Proof.
  induction k as [|k IH]; intros [|c line] Hnl Hlen; simpl in *; try done; [lia|].
  apply not_elem_of_cons in Hnl as [Hc Hnl].
  rewrite decide_False by done. by rewrite IH by (done || lia).
Qed.

Lemma file_gets_line line rest :
  newline ∉ line → (length line < 99)%nat →
  file_gets MAX_WORD_LENGTH (line ++ newline :: rest)
  = Some ((line ++ [newline]) ++ [NUL], rest).
Proof.
  intros Hnl Hlen. unfold file_gets.
  destruct (line ++ newline :: rest) as [|c input] eqn:Heq; [by destruct line|].
  rewrite <- Heq, read_chars_line by done.
  unfold MAX_WORD_LENGTH. simpl Nat.sub. by rewrite decide_True by lia.
Qed.

Lemma file_gets_full line rest :
  newline ∉ line → length line = 99%nat →
  file_gets MAX_WORD_LENGTH (line ++ newline :: rest)
  = Some (line ++ [NUL], newline :: rest).
Proof.
  intros Hnl Hlen. unfold file_gets.
  destruct (line ++ newline :: rest) as [|c input] eqn:Heq; [by destruct line|].
  rewrite <- Heq, read_chars_line by done.
  unfold MAX_WORD_LENGTH. simpl Nat.sub. rewrite decide_False by lia.
  by rewrite take_ge, drop_ge by lia.
Qed.

Lemma file_gets_last last :
  last ≠ [] → newline ∉ last → (length last ≤ 99)%nat →
  file_gets MAX_WORD_LENGTH last = Some (last ++ [NUL], []).
Proof.
  intros Hne Hnl Hlen. unfold file_gets. destruct last as [|c last]; [done|].
  by rewrite read_chars_all.
Qed.

Lemma strip_newline_terminated line :
  NUL ∉ line → newline ∉ line →
  ∃ buf, strip_newline ((line ++ [newline]) ++ [NUL]) = Some (buf, length line)
         ∧ take (length line) buf = line.
Proof.
  intros Hnul Hnl. unfold strip_newline.
  rewrite (strlen_terminated (line ++ [newline]) []).
  2:{ rewrite elem_of_app, list_elem_of_singleton. by intros [?|?]. }
  cbn [mbind option_bind]. rewrite length_app. simpl length.
  rewrite decide_True by lia.
  replace (length line + 1 - 1)%nat with (length line) by lia.
  rewrite <- app_assoc. cbn [app]. rewrite list_lookup_middle by done.
  cbn [mbind option_bind]. rewrite decide_True by done.
  rewrite store_middle. cbn [mbind option_bind].
  rewrite (strlen_terminated line). 2: done.
  cbn [mbind option_bind]. eexists. split; [done|].
  by rewrite take_app_length.
Qed.

Lemma strip_newline_unterminated line :
  NUL ∉ line → newline ∉ line →
  strip_newline (line ++ [NUL]) = Some (line ++ [NUL], length line).
Proof.
  intros Hnul Hnl. unfold strip_newline.
  rewrite (strlen_terminated line []) by done. cbn [mbind option_bind].
  destruct (decide (0 < length line)%nat) as [Hpos|]; [|done].
  destruct (lookup_lt_is_Some_2 line (length line - 1)) as [c Hc]; [lia|].
  rewrite lookup_app_l by lia. rewrite Hc. cbn [mbind option_bind].
  rewrite decide_False; [done|]. intros ->. apply Hnl.
  by eapply list_elem_of_lookup_2.
Qed.

(** Both passes on a text of plain lines, the last of which may lack its
    newline: [n] calls of [fgets] return a line. *)
Lemma passes_on_text last lines :
  plain_line last → Forall plain_line lines →
  ∃ n : nat,
    (n ≤ length (unlines lines ++ last))%nat
    ∧ (n = 0%nat ↔ lines = [] ∧ last = [])
    ∧ (∀ fuel, (n ≤ fuel)%nat → Z.of_nat n ≤ INT_MAX →
         count_lines fuel (unlines lines ++ last) = Some (Z.of_nat n))
    ∧ (∀ fuel lineCount wordList i,
         (n ≤ fuel)%nat → 0 ≤ i → i + Z.of_nat n ≤ lineCount →
         lineCount ≤ INT_MAX →
         read_words fuel lineCount (unlines lines ++ last) wordList i
         = Some (wordList ++ filter (λ l, l ≠ []) (lines ++ [last]),
                 i + Z.of_nat (length (filter (λ l, l ≠ []) (lines ++ [last]))))).
Proof.
  intros (Hlnl & Hlnul & Hllen) Hlines.
  induction Hlines as [|line lines (Hnl & Hnul & Hlen) _ IH].
  - simpl. destruct (decide (last = [])) as [->|Hne].
    + exists 0%nat. split_and!; [done|done| |].
      * intros fuel _ _. by destruct fuel.
      * intros fuel lineCount wordList i _ _ _ _.
        rewrite filter_cons_False by (by intros ?). rewrite filter_nil.
        rewrite app_nil_r, Z.add_0_r. by destruct fuel.
    + exists 1%nat. split_and!.
      * destruct last; [done|simpl; lia].
      * split; [done|]. by intros [_ ?].
      * intros [|fuel] Hfuel Hmax; [lia|]. simpl.
        rewrite file_gets_last by done.
        destruct fuel; simpl; unfold int_succ; by rewrite decide_True by (unfold INT_MAX; lia).
      * intros [|fuel] lineCount wordList i Hfuel Hi Hle Hmax; [lia|]. simpl.
        rewrite file_gets_last by done. rewrite decide_False by lia.
        rewrite strip_newline_unterminated by done. cbn [mbind option_bind].
        rewrite decide_False by (by destruct last).
        unfold int_succ. rewrite decide_True by lia. cbn [mbind option_bind].
        rewrite take_app_length. rewrite filter_cons_True by done.
        rewrite filter_nil. by destruct fuel.
  - destruct IH as (n & Hn & Hzero & Hcount & Hread).
    change (unlines (line :: lines) ++ last)
      with (((line ++ [newline]) ++ unlines lines) ++ last).
    rewrite <- !app_assoc. cbn [app].
    set (rest := unlines lines ++ last) in *.
    destruct (decide (length line < 99)%nat) as [Hshort|Hfull].
    + exists (S n). split_and!.
      * rewrite length_app. simpl. lia.
      * split; [done|by intros [? _]].
      * intros [|fuel] Hfuel Hmax; [lia|]. simpl.
        rewrite file_gets_line by done.
        rewrite Hcount by lia. simpl. unfold int_succ.
        rewrite decide_True by lia. f_equal. lia.
      * intros [|fuel] lineCount wordList i Hfuel Hi Hle Hmax; [lia|]. simpl.
        rewrite file_gets_line by done. rewrite decide_False by lia.
        destruct (strip_newline_terminated line Hnul Hnl) as (buf & -> & Htake).
        cbn [mbind option_bind].
        destruct (decide (length line = 0%nat)) as [Hempty|Hnonempty].
        -- apply nil_length_inv in Hempty as ->.
           rewrite filter_cons_False by (by intros ?).
           apply Hread; lia.
        -- unfold int_succ. rewrite decide_True by lia. cbn [mbind option_bind].
           rewrite Htake, Hread by lia.
           rewrite filter_cons_True by (by destruct line).
           rewrite <- app_assoc. simpl. do 2 f_equal. lia.
    + assert (length line = 99%nat) as Hlen99 by lia.
      exists (S (S n)). split_and!.
      * rewrite length_app. simpl. lia.
      * split; [done|by intros [? _]].
      * intros [|[|fuel]] Hfuel Hmax; [lia..|].
        cbn [count_lines]. rewrite file_gets_full by done.
        change (newline :: rest) with ([] ++ newline :: rest).
        rewrite file_gets_line by (simpl; (apply not_elem_of_nil || lia)).
        rewrite Hcount by lia. simpl. unfold int_succ.
        rewrite decide_True by lia. simpl. rewrite decide_True by lia.
        f_equal. lia.
      * intros [|[|fuel]] lineCount wordList i Hfuel Hi Hle Hmax; [lia..|].
        cbn [read_words]. rewrite file_gets_full by done.
        rewrite decide_False by lia.
        rewrite strip_newline_unterminated by done. cbn [mbind option_bind].
        rewrite decide_False by lia.
        unfold int_succ. rewrite decide_True by lia. cbn [mbind option_bind].
        change (newline :: rest) with ([] ++ newline :: rest).
        rewrite file_gets_line by (simpl; (apply not_elem_of_nil || lia)).
        rewrite decide_False by lia.
        destruct (strip_newline_terminated [])
          as (buf & -> & _); [apply not_elem_of_nil..|].
        cbn [mbind option_bind length]. rewrite decide_True by done.
        rewrite take_app_length, Hread by lia.
        rewrite filter_cons_True by (by destruct line).
        rewrite <- app_assoc. simpl. do 2 f_equal. lia.
Qed.

End LoadText.

(** X2.  A text whose lines are plain (no NUL, at most 99 bytes) loads as
    its non-empty lines, in order: blank lines are skipped, a last line
    without newline is loaded too, and the count is the number of words.
    An empty text gives NULL. *)
Theorem loadWords_text (lines : list (list ascii)) (last : list ascii) :
  Forall plain_line lines → plain_line last →
  Z.of_nat (length (unlines lines ++ last)) < INT_MAX →
  loadWords (Some (unlines lines ++ last))
  = Some (if decide (lines = [] ∧ last = []) then None
          else Some (filter (λ l, l ≠ []) (lines ++ [last])),
          Z.of_nat (length (filter (λ l, l ≠ []) (lines ++ [last])))).
Proof.
  intros Hlines Hlast Hmax.
  destruct (passes_on_text last lines Hlast Hlines)
    as (n & Hn & Hzero & Hcount & Hread).
  unfold loadWords. rewrite Hcount by lia. cbn [mbind option_bind].
  destruct (decide (lines = [] ∧ last = [])) as [[-> ->]|Hne].
  - destruct Hzero as [_ ->]; done.
  - rewrite decide_False by (intros ?; apply Hne, Hzero; lia).
    rewrite Hread by lia. done.
Qed.

Lemma loadWords_text_witness :
  loadWords (Some (unlines [chars "cat"; []; chars "dog"] ++ chars "owl"))
  = Some (if decide ([chars "cat"; []; chars "dog"] = [] ∧ chars "owl" = [])
          then None
          else Some (filter (λ l, l ≠ [])
                            ([chars "cat"; []; chars "dog"] ++ [chars "owl"])),
          Z.of_nat (length (filter (λ l, l ≠ [])
                              ([chars "cat"; []; chars "dog"] ++ [chars "owl"])))).
Proof.
  apply (loadWords_text [chars "cat"; []; chars "dog"] (chars "owl")).
  - repeat constructor; try (vm_compute; lia);
      intros Hin; repeat (apply elem_of_cons in Hin as [Hin|Hin]; [discriminate Hin|]);
      by apply elem_of_nil in Hin.
  - repeat constructor; try (vm_compute; lia);
      intros Hin; repeat (apply elem_of_cons in Hin as [Hin|Hin]; [discriminate Hin|]);
      by apply elem_of_nil in Hin.
  - vm_compute. reflexivity.
Defined.

Lemma loadWords_well_formed_witness :
  loadWords None = Some (None, 0)
  ∧ ∃ result,
      loadWords (Some (chars "cat" ++ [newline])) = Some result
      ∧ (chars "cat" ++ [newline] = [] → result = (None, 0))
      ∧ (chars "cat" ++ [newline] ≠ [] →
         ∃ ws, result = (Some ws, Z.of_nat (length ws))
               ∧ Forall (λ word, word ≠ [] ∧ plain_line word) ws
               ∧ (length ws ≤ length (chars "cat" ++ [newline]))%nat).
Proof. apply (loadWords_well_formed (chars "cat" ++ [newline])). vm_compute. reflexivity. Defined.

(** * More on the round *)

Section RoundFacts.

Context (word : list ascii) (maxIncorrect : Z).
Implicit Types (gs buf : list ascii) (g c : ascii) (st : Round).

(** What one turn can do to a state the loop has reached. *)
Lemma turn_state_cases gs st line st' :
  played word maxIncorrect gs st → gameOver st = false →
  turn_state st line = Some st' →
  (st' = st ∧ applied_letter st line = [])
  ∨ (st' = set_gameOver st ∧ applied_letter st line = [])
  ∨ ∃ g, is_lower g ∧ (g ∉ gs) ∧ applied_letter st line = [g]
         ∧ st' = game_over_checked (applied st g)
         ∧ RoundInv word maxIncorrect (gs ++ [g]) (applied st g).
Proof.
  intros H%played_inv Hover Hturn. destruct line as [buf|]; simpl in Hturn.
  - destruct (validate_guess buf) as [[e|g]|] eqn:Hv.
    + pose proof (guess_step_invalid st _ _ Hv) as Hstep.
      rewrite Hstep in Hturn. simpl in Hturn. simplify_eq. left.
      split; [done|]. by eapply applied_letter_rejected.
    + destruct (decide (g ∈ gs)) as [Hin|Hnew].
      * pose proof (guess_step_duplicate _ _ _ _ _ _ H Hv Hin) as Hstep.
        rewrite Hstep in Hturn. simpl in Hturn. simplify_eq. left.
        split; [done|]. by eapply applied_letter_rejected.
      * rewrite (guess_step_new _ _ _ _ _ _ H Hover Hv Hnew) in Hturn.
        simpl in Hturn. simplify_eq. right; right. exists g.
        pose proof (validate_guess_lower _ _ Hv) as Hg.
        split_and!; [done|done|by eapply applied_letter_new|done|].
        by apply applied_inv.
    + unfold guess_step in Hturn. by rewrite Hv in Hturn.
  - simplify_eq. right; left. done.
Qed.

(** The mistakes never pass the allowance, stay below it while the round
    goes on, and are below it in a round that was won. *)
Lemma played_bounds gs st :
  played word maxIncorrect gs st → 0 < maxIncorrect →
  0 ≤ incorrectGuesses st ≤ maxIncorrect
  ∧ (gameOver st = false → incorrectGuesses st < maxIncorrect)
  ∧ (playerWon st = true → incorrectGuesses st < maxIncorrect).
Proof.
  intros Hplayed Hmax.
  induction Hplayed as [|gs st line st' Hplayed IH Hover Hturn].
  - simpl. split_and!; (done || lia).
  - destruct IH as (Hrange & Hprogress & _). specialize (Hprogress Hover).
    pose proof (played_inv _ _ _ _ Hplayed) as H.
    pose proof (inv_flags _ _ _ _ H Hover) as Hwon.
    destruct (turn_state_cases _ _ _ _ Hplayed Hover Hturn)
      as [[-> _]|[[-> _]|(g & _ & _ & _ & -> & H1)]].
    + split_and!; first [lia | done | by rewrite Hwon].
    + simpl. split_and!; first [lia | done | by rewrite Hwon].
    + destruct (checked_fields (applied st g)) as (-> & _).
      pose proof (inv_max _ _ _ _ H1) as Hmax1.
      assert (incorrectGuesses (applied st g) ≤ incorrectGuesses st + 1) as Hstep
        by (simpl; case_decide; lia).
      assert (0 ≤ incorrectGuesses (applied st g)) as Hpos
        by (rewrite (inv_incorrect _ _ _ _ H1); lia).
      unfold game_over_checked. rewrite Hmax1.
      destruct (decide (incorrectGuesses (applied st g) = maxIncorrect)).
      * split_and!; (done || lia).
      * destruct (decide (placeholder ∈ displayWord (applied st g)));
          split_and!; intros; lia.
Qed.

(** On a non-empty word a round that goes on still shows a placeholder. *)
Lemma played_in_progress gs st :
  word ≠ [] → played word maxIncorrect gs st → gameOver st = false →
  placeholder ∈ displayWord st.
Proof.
  intros Hword Hplayed.
  induction Hplayed as [|gs st line st' Hplayed IH Hover Hturn]; intros Hover'.
  - simpl. apply elem_of_app. left. destruct word; [done|]. simpl.
    apply list_elem_of_here.
  - destruct (turn_state_cases _ _ _ _ Hplayed Hover Hturn)
      as [[-> _]|[[-> _]|(g & _ & _ & _ & -> & H1)]]; [by apply IH|done|].
    revert Hover'. destruct (checked_fields (applied st g)) as (_ & _ & -> & _).
    unfold game_over_checked. by repeat case_decide.
Qed.

(** A display without placeholder is the word itself, and all its letters
    were guessed. *)
Lemma pattern_complete gs :
  Forall is_lower gs → placeholder ∉ pattern word gs →
  pattern word gs = word ∧ ∀ c, c ∈ word → c ∈ gs.
Proof.
  intros Hlow Hno.
  assert (∀ c, c ∈ word → c ∈ gs) as Hall.
  { intros c Hc. destruct (decide (c ∈ gs)) as [|Hnin]; [done|].
    destruct Hno. apply list_elem_of_fmap. exists c. split; [|done].
    unfold reveal. by rewrite decide_False. }
  split; [|done]. unfold pattern.
  rewrite <- (list_fmap_id word) at 2. apply list_fmap_ext.
  intros i c Hc. unfold reveal. rewrite decide_True; [done|].
  apply Hall. by eapply list_elem_of_lookup_2.
Qed.

End RoundFacts.

Section Drawing.

Lemma drawHangman_warning (n : Z) : (drawHangman n).2 = false ↔ 0 ≤ n ≤ 6.
Proof.
  destruct n as [|p|p]; [done| |split; [done|lia]].
  destruct p as [[[p|p|]|[p|p|]|]|[[p|p|]|[p|p|]|]|]; simpl;
    split; intros; try done; lia.
Qed.

Lemma small_cases (n : Z) :
  0 ≤ n ≤ 6 → n = 0 ∨ n = 1 ∨ n = 2 ∨ n = 3 ∨ n = 4 ∨ n = 5 ∨ n = 6.
Proof. lia. Qed.

End Drawing.

(** X3.  [drawHangman] draws seven lines whatever its argument; it warns
    exactly when the argument is outside 0..6, and then draws the last
    stage; the drawings of 0..6 are pairwise different. *)
Theorem drawHangman_stages :
  (∀ n, length (drawHangman n).1 = 7%nat)
  ∧ (∀ n, (drawHangman n).2 = true ↔ ¬ (0 ≤ n ≤ 6))
  ∧ (∀ n, ¬ (0 ≤ n ≤ 6) → (drawHangman n).1 = (drawHangman 6).1)
  ∧ (∀ m n, 0 ≤ m ≤ 6 → 0 ≤ n ≤ 6 →
       (drawHangman m).1 = (drawHangman n).1 → m = n).
Proof.
  split_and!.
  - intros n. destruct n as [|p|p]; [done| |done].
    by destruct p as [[[p|p|]|[p|p|]|]|[[p|p|]|[p|p|]|]|].
  - intros n. rewrite <- drawHangman_warning. by destruct (drawHangman n).2.
  - intros n Hn. destruct n as [|p|p]; [lia| |done].
    destruct p as [[[p|p|]|[p|p|]|]|[[p|p|]|[p|p|]|]|]; try done; lia.
  - intros m n Hm Hn.
    destruct (small_cases m Hm) as [->|[->|[->|[->|[->|[->| ->]]]]]];
      destruct (small_cases n Hn) as [->|[->|[->|[->|[->|[->| ->]]]]]];
      first [done | discriminate].
Qed.

Lemma drawHangman_stages_witness :
  ((drawHangman 8).2 = true ↔ ¬ (0 ≤ 8 ≤ 6))
  ∧ (drawHangman 8).1 = (drawHangman 6).1
  ∧ ((drawHangman 2).1 = (drawHangman 2).1 → 2 = 2).
Proof.
  destruct drawHangman_stages as (_ & Hwarn & Hlast & Hdiff).
  split_and!.
  - apply Hwarn.
  - apply Hlast. lia.
  - apply Hdiff; lia.
Defined.

(** X4.  In every state the round loop reaches, with a positive allowance,
    the mistake counter is the number of applied letters that are not in
    the word; it lies between 0 and the allowance and is below it while the
    round goes on.  With an allowance of at most 6 (Medium, Hard) the value
    [drawHangman] gets never raises its warning. *)
Theorem mistakes_within_allowance (word : list ascii) (maxIncorrect : Z)
    (gs : list ascii) (st : Round) :
  played word maxIncorrect gs st → 0 < maxIncorrect →
  incorrectGuesses st = Z.of_nat (length (filter (λ g, g ∉ word) gs))
  ∧ 0 ≤ incorrectGuesses st ≤ maxIncorrect
  ∧ (gameOver st = false → incorrectGuesses st < maxIncorrect)
  ∧ (maxIncorrect ≤ 6 → (drawHangman (incorrectGuesses st)).2 = false).
Proof.
  intros Hplayed Hmax.
  destruct (played_bounds _ _ _ _ Hplayed Hmax) as (Hrange & Hprogress & _).
  split; [|split; [done|split; [done|]]].
  - apply (inv_incorrect _ _ _ _ (played_inv _ _ _ _ Hplayed)).
  - intros Hsix. apply drawHangman_warning. lia.
Qed.

Lemma mistakes_within_allowance_witness :
  incorrectGuesses round_Cat_c = Z.of_nat (length (filter (λ g, g ∉ chars "Cat") ["c"]))
  ∧ 0 ≤ incorrectGuesses round_Cat_c ≤ 6
  ∧ (gameOver round_Cat_c = false → incorrectGuesses round_Cat_c < 6)
  ∧ (6 ≤ 6 → (drawHangman (incorrectGuesses round_Cat_c)).2 = false).
Proof. apply (mistakes_within_allowance _ _ _ _ played_Cat_c). lia. Defined.

(** X5.  A round is won only with the whole word on display: in a reached
    state with both flags set, the display is the word, every letter of the
    word was guessed (so the word is made of lower-case letters), and with a
    positive allowance the mistakes are below it. *)
Theorem won_round_shows_word (word : list ascii) (maxIncorrect : Z)
    (gs : list ascii) (st : Round) :
  played word maxIncorrect gs st → status st = Won →
  displayWord st = word ++ [NUL]
  ∧ (∀ c, c ∈ word → c ∈ gs)
  ∧ Forall is_lower word
  ∧ (0 < maxIncorrect → incorrectGuesses st < maxIncorrect).
Proof.
  intros Hplayed Hstatus. pose proof (played_inv _ _ _ _ Hplayed) as H.
  assert (playerWon st = true) as Hwon.
  { unfold status in Hstatus. destruct (gameOver st); [|done].
    by destruct (playerWon st). }
  destruct (pattern_complete word gs (inv_lower _ _ _ _ H) (inv_won _ _ _ _ H Hwon))
    as [Hpat Hall].
  split_and!.
  - by rewrite (inv_display _ _ _ _ H), Hpat.
  - done.
  - apply Forall_forall. intros c Hc.
    by eapply Forall_forall; [apply (inv_lower _ _ _ _ H)|apply Hall].
  - intros Hmax. by apply (played_bounds _ _ _ _ Hplayed Hmax).
Qed.

Lemma played_cat_won : played (chars "cat") 6 (chars "act") round_cat_won.
Proof.
  pose proof (played_turn _ _ _ _ (Some (line_of "c")) _ played_cat_a eq_refl eq_refl)
    as Hc.
  exact (played_turn _ _ _ _ (Some (line_of "t")) _ Hc eq_refl eq_refl).
Qed.

Lemma won_round_shows_word_witness :
  displayWord round_cat_won = chars "cat" ++ [NUL]
  ∧ (∀ c, c ∈ chars "cat" → c ∈ chars "act")
  ∧ Forall is_lower (chars "cat")
  ∧ (0 < 6 → incorrectGuesses round_cat_won < 6).
Proof. by apply (won_round_shows_word _ _ _ _ played_cat_won). Defined.

Section Covering.

Context (word : list ascii) (maxIncorrect : Z).
Implicit Types (gs cs : list ascii) (g c : ascii) (st : Round).

Lemma play_letters_over st cs : gameOver st = true → play_letters st cs = Some st.
Proof. intros H. destruct cs; simpl; [done|]. by rewrite H. Qed.

(** Guesses that cover the word, with fewer misses than allowed, win. *)
Lemma play_letters_cover cs : ∀ gs st,
  word ≠ [] →
  played word maxIncorrect gs st → gameOver st = false →
  Forall (λ c, isalpha c = true) cs →
  NoDup (gs ++ (tolower <$> cs)) →
  (∀ c, c ∈ word → c ∈ gs ++ (tolower <$> cs)) →
  Z.of_nat (length (misses word (gs ++ (tolower <$> cs)))) < maxIncorrect →
  ∃ gs' st', play_letters st cs = Some st'
             ∧ played word maxIncorrect gs' st' ∧ status st' = Won.
Proof.
  induction cs as [|c cs IH];
    intros gs st Hword Hplayed Hover Halpha Hnd Hcover Hmiss.
  - exfalso. simpl in Hcover. setoid_rewrite app_nil_r in Hcover.
    pose proof (played_inv _ _ _ _ Hplayed) as H.
    pose proof (played_in_progress _ _ _ _ Hword Hplayed Hover) as Hph.
    rewrite (inv_display _ _ _ _ H), placeholder_in_display in Hph.
    apply list_elem_of_fmap in Hph as (x & Hx & Hin).
    unfold reveal in Hx. rewrite decide_True in Hx by by apply Hcover.
    subst x. eapply lower_not_placeholder; [|done].
    by eapply Forall_forall; [apply (inv_lower _ _ _ _ H)|apply Hcover].
  - apply Forall_cons in Halpha as [Hc Halpha]. simpl in *. rewrite Hover.
    set (g := tolower c) in *.
    pose proof (played_inv _ _ _ _ Hplayed) as H.
    assert (g ∉ gs) as Hnew.
    { apply NoDup_app in Hnd as (_ & Hnd & _). intros Hin.
      apply (Hnd g Hin), list_elem_of_here. }
    assert (c ≠ NUL) as Hnul by (intros ->; discriminate Hc).
    assert (validate_guess (line_of c) = Some (inr g)) as Hv
      by (by rewrite validate_line_of, Hc).
    pose proof (validate_guess_lower _ _ Hv) as Hg.
    pose proof (guess_step_new _ _ _ _ _ _ H Hover Hv Hnew) as Hstep.
    assert (turn_state st (Some (line_of c))
            = Some (game_over_checked (applied st g))) as Hturn
      by (simpl; by rewrite Hstep).
    pose proof (played_turn _ _ _ _ _ _ Hplayed Hover Hturn) as Hplayed1.
    rewrite (applied_letter_new _ _ _ _ _ _ H Hover Hv Hnew) in Hplayed1.
    rewrite Hstep. simpl.
    pose proof (applied_inv _ _ _ _ _ H Hover Hg Hnew) as H1.
    rewrite (cons_middle g), app_assoc in Hnd, Hcover, Hmiss.
    assert (incorrectGuesses (applied st g) ≠ maxIncorrectGuesses (applied st g))
      as Hneq.
    { rewrite (inv_max _ _ _ _ H1), (inv_incorrect _ _ _ _ H1).
      unfold misses in *. rewrite filter_app, length_app in Hmiss. lia. }
    unfold game_over_checked in *. rewrite decide_False in * by done.
    destruct (decide (placeholder ∈ displayWord (applied st g))).
    + by apply (IH (gs ++ [g])).
    + exists (gs ++ [g]), (set_outcome true (applied st g)).
      by rewrite play_letters_over.
Qed.

End Covering.

(** X6.  On a non-empty word, distinct letters that cover the word, of which
    fewer than the allowance are not in the word, win the round: the loop
    ends with both flags set, the display is the word, and the mistakes are
    below the allowance. *)
Theorem covering_guesses_win (word : list ascii) (maxIncorrect : Z)
    (cs : list ascii) :
  word ≠ [] →
  Forall (λ c, isalpha c = true) cs →
  NoDup (tolower <$> cs) →
  (∀ c, c ∈ word → c ∈ tolower <$> cs) →
  Z.of_nat (length (filter (λ g, g ∉ word) (tolower <$> cs))) < maxIncorrect →
  ∃ st, play_letters (init_round word maxIncorrect) cs = Some st
        ∧ status st = Won
        ∧ displayWord st = word ++ [NUL]
        ∧ incorrectGuesses st < maxIncorrect.
Proof.
  intros Hword Halpha Hnd Hcover Hmiss.
  destruct (play_letters_cover word maxIncorrect cs [] (init_round word maxIncorrect))
    as (gs & st & Hplay & Hplayed & Hstatus); try done; [apply played_init|].
  exists st. split_and!; [done|done| |].
  - pose proof (played_inv _ _ _ _ Hplayed) as H.
    assert (playerWon st = true) as Hwon.
    { unfold status in Hstatus. destruct (gameOver st); [|done].
      by destruct (playerWon st). }
    destruct (pattern_complete word gs (inv_lower _ _ _ _ H) (inv_won _ _ _ _ H Hwon))
      as [Hpat _].
    by rewrite (inv_display _ _ _ _ H), Hpat.
  - assert (0 < maxIncorrect) as Hmax by lia.
    destruct (played_bounds _ _ _ _ Hplayed Hmax) as (_ & _ & Hwon).
    apply Hwon. unfold status in Hstatus. destruct (gameOver st); [|done].
    by destruct (playerWon st).
Qed.

Lemma covering_guesses_win_witness :
  ∃ st, play_letters (init_round (chars "cat") 4) (chars "xAyTzc") = Some st
        ∧ status st = Won
        ∧ displayWord st = chars "cat" ++ [NUL]
        ∧ incorrectGuesses st < 4.
Proof.
  apply (covering_guesses_win (chars "cat") 4 (chars "xAyTzc")).
  - discriminate.
  - by repeat constructor.
  - vm_compute. repeat constructor;
      rewrite ?elem_of_cons; intros Hin;
      repeat (destruct Hin as [Hin|Hin]; [discriminate Hin|]);
      by apply elem_of_nil in Hin.
  - intros c Hc. vm_compute in Hc |- *.
    repeat (apply elem_of_cons in Hc as [->|Hc];
            [repeat (first [apply list_elem_of_here|apply list_elem_of_further])|]).
    by apply elem_of_nil in Hc.
  - vm_compute. reflexivity.
Defined.

(** * The rounds of a session *)

Section SessionRounds.

Implicit Types (wordList : list (list ascii)) (st : Round) (w : World).

Lemma select_difficulty_range (buf : list ascii) :
  (select_difficulty buf).1 = 8 ∨ (select_difficulty buf).1 = 6
  ∨ (select_difficulty buf).1 = 4.
Proof.
  unfold select_difficulty. destruct (default (-1) (sscanf_d buf)) as [|p|p]; simpl; auto.
  destruct p as [[p|p|]|[p|p|]|]; simpl; auto.
Qed.

Lemma session_rounds fuel : ∀ wordList w rounds w',
  wordList ≠ [] → session fuel wordList w = Some (rounds, w') →
  Forall (round_played wordList) rounds
  ∧ (length rounds ≤ length (stdin w))%nat.
Proof.
  induction fuel as [|fuel IH]; intros wordList w rounds w' Hwords Hsession; [done|].
  cbn [session] in Hsession.
  destruct (stdin w) as [|c input] eqn:Hin.
  - rewrite session_body_eof in Hsession by done. simpl in Hsession.
    simplify_eq. split; [constructor|simpl; lia].
  - destruct (session_body_round wordList w Hwords)
      as (buf & w1 & st & w2 & pa & w0 & word & gs
          & _ & Hround & _ & Hbody & Hplayed & Hover & _ & Hlen & _);
      [by rewrite Hin|].
    rewrite Hbody in Hsession. simpl in Hsession.
    assert (round_played wordList st) as Hst.
    { destruct (play_round_total wordList (select_difficulty buf).1
                  (pauseForUser (print (select_difficulty buf).2 w1)) Hwords)
        as (st' & w2' & word' & gs' & out & Hround' & Hmem & Hplayed' & _).
      rewrite Hround in Hround'. simplify_eq.
      pose proof (played_inv _ _ _ _ Hplayed') as H.
      pose proof (inv_word _ _ _ _ H) as Hword.
      pose proof (inv_max _ _ _ _ H) as Hmax.
      assert (0 < (select_difficulty buf).1) as Hpos
        by (destruct (select_difficulty_range buf) as [->|[->| ->]]; lia).
      destruct (played_bounds _ _ _ _ Hplayed' Hpos) as (Hrange & _).
      unfold round_played. rewrite Hword, Hmax.
      split_and!; [done|done|apply select_difficulty_range|lia|lia|by exists gs']. }
    rewrite Hin in Hlen. simpl in Hlen.
    destruct (decide (pa = "y")).
    + destruct (session fuel wordList w0) as [[rounds' w'']|] eqn:Hrest; [|done].
      simpl in Hsession. simplify_eq.
      destruct (IH _ _ _ _ Hwords Hrest) as [Hall Hcount].
      split; [by constructor|]. simpl. lia.
    + simplify_eq. split; [constructor; [done|constructor]|]. simpl. lia.
Qed.

(** A character that is no lower-case letter keeps its placeholder, so the
    round is never won. *)
Lemma inv_never_won (word : list ascii) maxIncorrect gs st c :
  RoundInv word maxIncorrect gs st → c ∈ word → ¬ is_lower c →
  playerWon st = false.
Proof.
  intros H Hc Hlow. destruct (playerWon st) eqn:Hwon; [|done].
  destruct (inv_won _ _ _ _ H Hwon).
  apply list_elem_of_fmap. exists c. split; [|done].
  unfold reveal. rewrite decide_False; [done|]. intros Hin. apply Hlow.
  by eapply Forall_forall; [apply (inv_lower _ _ _ _ H)|].
Qed.

End SessionRounds.

(** X7.  With words loaded, the finished game ends with exit code 0 on
    every input.  Every round it played was on a word of the list, with an
    allowance of 8, 6 or 4 mistakes, ran to its end and made no more
    mistakes than allowed; there are no more rounds than bytes of input. *)
Theorem session_plays_loaded_words (wordList : list (list ascii)) (w : World) :
  wordList ≠ [] →
  ∃ rounds w',
    main (Some wordList) w = Some (0, rounds, w')
    ∧ Forall (round_played wordList) rounds
    ∧ (length rounds ≤ length (stdin w))%nat
    ∧ last (stdout w') = Some MsgThanks.
Proof.
  intros Hwords.
  destruct (session_total (S (length (stdin w))) wordList w Hwords)
    as (rounds & w' & Hsession); [lia|].
  destruct (session_rounds _ _ _ _ _ Hwords Hsession) as [Hall Hcount].
  exists rounds, (print MsgThanks w'). split_and!; [|done|done|].
  - unfold main. destruct wordList; [done|]. by rewrite Hsession.
  - simpl. apply last_snoc.
Qed.

Lemma session_plays_loaded_words_witness :
  ∃ rounds w',
    main (Some [chars "cat"]) abandoned_input = Some (0, rounds, w')
    ∧ Forall (round_played [chars "cat"]) rounds
    ∧ (length rounds ≤ length (stdin abandoned_input))%nat
    ∧ last (stdout w') = Some MsgThanks.
Proof. by apply (session_plays_loaded_words [chars "cat"] abandoned_input). Defined.

(** X8.  The game on a word file of less than [INT_MAX] bytes returns on
    every input.  It leaves with 1, without reading any input, when the
    file cannot be opened or is empty; with 0 or 1 otherwise.  Every round
    played is on a non-empty word of at most 99 bytes without newline. *)
Theorem hangman_on_file (file : option (list ascii)) (w : World) :
  (∀ content, file = Some content → Z.of_nat (length content) < INT_MAX) →
  ∃ code rounds w',
    hangman file w = Some (code, rounds, w')
    ∧ (code = 0 ∨ code = 1)
    ∧ (code = 1 → rounds = [] ∧ stdin w' = stdin w)
    ∧ (file = None ∨ file = Some [] → code = 1)
    ∧ Forall (λ st, secretWord st ≠ [] ∧ plain_line (secretWord st)
                    ∧ gameOver st = true) rounds.
Proof.
  assert (∀ ws, ws = None ∨ ws = Some [] →
            ∃ code rounds w',
              main ws w = Some (code, rounds, w')
              ∧ (code = 0 ∨ code = 1)
              ∧ (code = 1 → rounds = [] ∧ stdin w' = stdin w)
              ∧ (file = None ∨ file = Some [] → code = 1)
              ∧ Forall (λ st, secretWord st ≠ [] ∧ plain_line (secretWord st)
                              ∧ gameOver st = true) rounds) as Hnone.
  { intros ws Hws. exists 1, [], w.
    split_and!; [by destruct Hws as [-> | ->]|by right|done|done|constructor]. }
  intros Hmax. unfold hangman. destruct file as [content|]; [|by apply Hnone; left].
  specialize (Hmax content eq_refl). unfold loadWords.
  destruct (count_lines_total (length content) content)
    as (c & Hc & Hrange & Hzero); [done..|].
  rewrite Hc. cbn [mbind option_bind].
  destruct (decide (c = 0)) as [->|Hpos]; [by apply Hnone; left|].
  destruct (read_words_total _ content c [] 0 c Hc) as (ws & -> & Hok & Hws);
    [lia..|].
  cbn [mbind option_bind app].
  destruct (decide (ws = [])) as [->|Hne]; [by apply Hnone; right|].
  clear Hnone.
  destruct (session_total (S (length (stdin w))) ws w Hne)
    as (rounds & w' & Hsession); [lia|].
  destruct (session_rounds _ _ _ _ _ Hne Hsession) as [Hall _].
  exists 0, rounds, (print MsgThanks w'). split_and!.
  - unfold main. destruct ws; [done|]. by rewrite Hsession.
  - by left.
  - done.
  - intros [?| Hfile]; [done|]. simplify_eq. by destruct Hpos, Hzero as [_ ->].
  - eapply Forall_impl; [exact Hall|]. intros st (Hmem & Hover & _).
    pose proof (proj1 (Forall_forall _ _) Hok _ Hmem) as [? ?]. done.
Qed.

Lemma hangman_on_file_witness :
  ∃ code rounds w',
    hangman (Some (chars "cat" ++ [newline])) abandoned_input
    = Some (code, rounds, w')
    ∧ (code = 0 ∨ code = 1)
    ∧ (code = 1 → rounds = [] ∧ stdin w' = stdin abandoned_input)
    ∧ (Some (chars "cat" ++ [newline]) = None
       ∨ Some (chars "cat" ++ [newline]) = Some [] → code = 1)
    ∧ Forall (λ st, secretWord st ≠ [] ∧ plain_line (secretWord st)
                    ∧ gameOver st = true) rounds.
Proof.
  apply (hangman_on_file (Some (chars "cat" ++ [newline])) abandoned_input).
  intros content Hcontent. simplify_eq. vm_compute. reflexivity.
Defined.

(** X9.  [loadWords] removes the newline only (99-104).  In a file with DOS
    line ends whose lines hold no NUL and at most 98 bytes before the
    carriage return, every word therefore keeps its carriage return; that
    byte is never a guess, and every round on such a file is lost, whatever
    is typed. *)
Theorem dos_word_file_never_won (lines : list (list ascii)) (w : World) :
  lines ≠ [] →
  Forall (λ line, plain_line line ∧ (length line ≤ 98)%nat) lines →
  Z.of_nat (length (dos_text lines)) < INT_MAX →
  ∃ rounds w',
    hangman (Some (dos_text lines)) w = Some (0, rounds, w')
    ∧ Forall (λ st, secretWord st ∈ (λ line, line ++ [CR]) <$> lines) rounds
    ∧ Forall (λ st, status st = Lost) rounds.
Proof.
  intros Hne Hlines Hmax.
  set (ws := (λ line, line ++ [CR]) <$> lines).
  assert (Forall plain_line ws) as Hplain.
  { apply Forall_fmap. eapply Forall_impl; [exact Hlines|].
    intros line [(Hnl & Hnul & _) Hlen]. unfold plain_line. simpl.
    rewrite !elem_of_app, !list_elem_of_singleton, length_app. simpl.
    split_and!; [by intros [?|?]|by intros [?|?]|lia]. }
  assert (filter (λ l, l ≠ []) (ws ++ [[]]) = ws) as Hfilter.
  { rewrite filter_app, filter_cons_False, filter_nil, app_nil_r by (by intros ?).
    unfold ws. clear. induction lines as [|line lines IH]; [done|].
    rewrite fmap_cons, filter_cons_True by (by destruct line). by rewrite IH. }
  assert (plain_line []) as Hlast.
  { unfold plain_line. split_and!; [by intros ?%elem_of_nil..|simpl; lia]. }
  assert (dos_text lines = unlines ws ++ []) as Htext
    by (by rewrite app_nil_r).
  rewrite Htext in Hmax |- *.
  destruct (passes_on_text [] ws Hlast Hplain)
    as (n & Hn & Hzero & Hcount & Hread).
  assert (ws ≠ []) as Hws by (unfold ws; by destruct lines).
  unfold hangman, loadWords. rewrite Hcount by lia. cbn [mbind option_bind].
  rewrite decide_False by (intros ?; apply Hws, Hzero; lia).
  rewrite Hread by lia. rewrite Hfilter. cbn [mbind option_bind app].
  destruct (session_total (S (length (stdin w))) ws w Hws)
    as (rounds & w' & Hsession); [lia|].
  destruct (session_rounds _ _ _ _ _ Hws Hsession) as [Hall _].
  exists rounds, (print MsgThanks w'). split_and!.
  - unfold main. destruct ws; [done|]. by rewrite Hsession.
  - eapply Forall_impl; [exact Hall|]. by intros st (Hmem & _).
  - eapply Forall_impl; [exact Hall|].
    intros st (Hmem & Hover & _ & _ & gs & Hplayed).
    apply list_elem_of_fmap in Hmem as (line & Hword & _).
    pose proof (played_inv _ _ _ _ Hplayed) as H.
    unfold status. rewrite Hover.
    rewrite (inv_never_won _ _ _ _ CR H); [done| |by vm_compute].
    rewrite Hword, elem_of_app, list_elem_of_singleton. by right.
Qed.

Lemma dos_word_file_never_won_witness :
  ∃ rounds w',
    hangman (Some (dos_text [chars "cat"])) abandoned_input
    = Some (0, rounds, w')
    ∧ Forall (λ st, secretWord st ∈ (λ line, line ++ [CR]) <$> [chars "cat"])
             rounds
    ∧ Forall (λ st, status st = Lost) rounds.
Proof.
  apply (dos_word_file_never_won [chars "cat"] abandoned_input).
  - done.
  - repeat constructor; try (vm_compute; lia);
      intros Hin; repeat (apply elem_of_cons in Hin as [Hin|Hin]; [discriminate Hin|]);
      by apply elem_of_nil in Hin.
  - vm_compute. reflexivity.
Defined.

(** * The drawing in an Easy round, and the number of the menu *)

(** X10.  Misses below the allowance keep the round going, so with more
    than six of them (the Easy allowance is 8) the screen of the next turn
    hands [drawHangman] a number outside 0..6: it takes the [default] case,
    warns, and draws the last stage while a guess is still left. *)
Theorem misses_past_last_stage (word : list ascii) (maxIncorrect : Z)
    (cs : list ascii) :
  word ≠ [] → Forall (λ c, isalpha c = true) cs → NoDup (tolower <$> cs) →
  (∀ g, g ∈ tolower <$> cs → g ∉ word) →
  6 < Z.of_nat (length cs) < maxIncorrect →
  ∃ st, play_letters (init_round word maxIncorrect) cs = Some st
        ∧ status st = InProgress
        ∧ screen st = MsgScreen (Z.of_nat (length cs)) maxIncorrect
                                (displayWord (init_round word maxIncorrect))
                                (guessed_buffer (tolower <$> cs))
        ∧ drawHangman (incorrectGuesses st) = ((drawHangman 6).1, true).
Proof.
  intros Hword Halpha Hnd Hmiss Hlen.
  destruct (play_letters_misses word maxIncorrect cs [] (init_round word maxIncorrect))
    as (st & Hplay & H & Hstatus);
    [apply init_round_inv|done|done|done|done|done|simpl; lia|].
  simpl in H, Hstatus. rewrite decide_False in Hstatus by lia.
  assert (misses word (tolower <$> cs) = tolower <$> cs) as Hall.
  { unfold misses. clear -Hmiss. induction (tolower <$> cs) as [|g gs IH]; [done|].
    rewrite filter_cons_True by apply Hmiss, list_elem_of_here.
    rewrite IH; [done|]. intros x Hx. by apply Hmiss, list_elem_of_further. }
  assert (incorrectGuesses st = Z.of_nat (length cs)) as Hinc
    by (by rewrite (inv_incorrect _ _ _ _ H), Hall, length_fmap).
  assert (pattern word (tolower <$> cs) = pattern word []) as Hpat.
  { unfold pattern. apply list_fmap_ext. intros i c Hc. unfold reveal.
    rewrite !decide_False; [done|by intros ?%elem_of_nil|].
    intros Hin. apply (Hmiss c Hin). by eapply list_elem_of_lookup_2. }
  exists st. split_and!; [done|done| |].
  - unfold screen.
    rewrite Hinc, (inv_max _ _ _ _ H), (inv_display _ _ _ _ H),
      (inv_buffer _ _ _ _ H), Hpat.
    by rewrite (inv_display _ _ _ _ (init_round_inv word maxIncorrect)).
  - rewrite Hinc. destruct (Z.of_nat (length cs)) as [|p|p]; [lia| |lia].
    by destruct p as [[[|[]|]|[|[]|]|]|[[|[]|]|[|[]|]|]|]; try lia.
Qed.

Lemma misses_past_last_stage_witness :
  ∃ st, play_letters (init_round (chars "cat") 8) (chars "bdefghi") = Some st
        ∧ status st = InProgress
        ∧ screen st = MsgScreen (Z.of_nat (length (chars "bdefghi"))) 8
                                (displayWord (init_round (chars "cat") 8))
                                (guessed_buffer (tolower <$> chars "bdefghi"))
        ∧ drawHangman (incorrectGuesses st) = ((drawHangman 6).1, true).
Proof.
  apply (misses_past_last_stage (chars "cat") 8 (chars "bdefghi")).
  - discriminate.
  - by repeat constructor.
  - vm_compute. repeat constructor;
      rewrite ?elem_of_cons; intros Hin;
      repeat (destruct Hin as [Hin|Hin]; [discriminate Hin|]);
      by apply elem_of_nil in Hin.
  - intros g Hg Hin. vm_compute in Hg. cbv [chars list_ascii_of_string] in Hin.
    repeat (apply elem_of_cons in Hg as [->|Hg];
            [repeat (apply elem_of_cons in Hin as [Hin|Hin]; [discriminate Hin|]);
             by apply elem_of_nil in Hin|]).
    by apply elem_of_nil in Hg.
  - vm_compute. by split.
Defined.

Section Scanf.

Lemma isdigit_value c : isdigit c = true → 0 ≤ digit_value c ≤ 9.
Proof.
  unfold isdigit, digit_value. intros [H1 H2]%andb_true_iff.
  apply N.leb_le in H1, H2. lia.
Qed.

(** The digits before the terminator are as many as the bytes, at most. *)
Lemma scan_digits_bound ds : ∀ acc,
  0 ≤ acc →
  0 ≤ scan_digits acc (ds ++ [NUL]) ≤ (acc + 1) * 10 ^ Z.of_nat (length ds) - 1.
Proof.
  induction ds as [|c ds IH]; intros acc Hacc.
  - simpl. lia.
  - cbn [app scan_digits length]. rewrite Nat2Z.inj_succ, Z.pow_succ_r by lia.
    assert (0 < 10 ^ Z.of_nat (length ds)) by (apply Z.pow_pos_nonneg; lia).
    destruct (isdigit c) eqn:Hc; [|nia].
    pose proof (isdigit_value c Hc).
    specialize (IH (10 * acc + digit_value c) ltac:(lia)). nia.
Qed.

Lemma scan_unsigned_bound ds n :
  scan_unsigned (ds ++ [NUL]) = Some n →
  0 ≤ n ≤ 10 ^ Z.of_nat (length ds) - 1.
Proof.
  unfold scan_unsigned. destruct (ds ++ [NUL]) as [|c s] eqn:Hs; [done|].
  destruct (isdigit c); [|done]. intros Hn.
  assert (n = scan_digits 0 (ds ++ [NUL])) as -> by (rewrite Hs; congruence).
  pose proof (scan_digits_bound ds 0). lia.
Qed.

Lemma skip_space_terminated cs :
  ∃ cs', skip_space (cs ++ [NUL]) = cs' ++ [NUL] ∧ (length cs' ≤ length cs)%nat.
Proof.
  induction cs as [|c cs (cs' & IH & Hlen)]; [by exists []|].
  cbn [app skip_space]. destruct (isspace c).
  - exists cs'. split; [done|simpl; lia].
  - by exists (c :: cs).
Qed.

Lemma sscanf_d_bound cs n :
  sscanf_d (cs ++ [NUL]) = Some n →
  - 10 ^ Z.of_nat (length cs) < n < 10 ^ Z.of_nat (length cs).
Proof.
  unfold sscanf_d. destruct (skip_space_terminated cs) as (cs' & -> & Hlen).
  assert (10 ^ Z.of_nat (length cs') ≤ 10 ^ Z.of_nat (length cs)) as Hpow
    by (apply Z.pow_le_mono_r; lia).
  destruct cs' as [|c cs']; cbn [app].
  { rewrite !decide_False by done. done. }
  assert (10 ^ Z.of_nat (length cs') ≤ 10 ^ Z.of_nat (length (c :: cs'))) as Hpow'
    by (apply Z.pow_le_mono_r; simpl; lia).
  destruct (decide (c = "-")); [|destruct (decide (c = "+"))].
  - destruct (scan_unsigned (cs' ++ [NUL])) as [m|] eqn:Hm; [|done].
    intros [= <-]. pose proof (scan_unsigned_bound _ _ Hm). lia.
  - intros Hm. pose proof (scan_unsigned_bound _ _ Hm). lia.
  - intros Hm. pose proof (scan_unsigned_bound (c :: cs') _ Hm). lia.
Qed.

End Scanf.

(** X11.  The number [sscanf] reads from the difficulty line fits an [int]:
    [fgets] stores at most nine bytes of the line, so the number has at most
    nine digits, whatever the length of the line typed. *)
Theorem difficulty_number_fits (w w' : World) (difficultyBuffer : list ascii)
    (n : Z) :
  fgets INPUT_BUFFER_SIZE w = (Some difficultyBuffer, w') →
  sscanf_d difficultyBuffer = Some n →
  - 999999999 ≤ n ≤ 999999999 ∧ - INT_MAX < n < INT_MAX.
Proof.
  intros Hread Hscan.
  destruct (fgets_cases INPUT_BUFFER_SIZE w)
    as [[_ Hnone]|(cs & rest & _ & Hlen & _ & Hsome)]; [congruence|].
  rewrite Hsome in Hread. simplify_eq.
  pose proof (sscanf_d_bound _ _ Hscan) as Hn.
  assert (10 ^ Z.of_nat (length cs) ≤ 10 ^ 9) as Hpow
    by (apply Z.pow_le_mono_r; unfold INPUT_BUFFER_SIZE in Hlen; lia).
  unfold INT_MAX. lia.
Qed.

Lemma difficulty_number_fits_witness :
  - 999999999 ≤ -12345678 ≤ 999999999 ∧ - INT_MAX < -12345678 < INT_MAX.
Proof.
  eapply (difficulty_number_fits (world_of (chars "-123456789") (λ _, 0%nat)));
    reflexivity.
Defined.

(** * The input a turn uses up *)

Section TurnInput.

Implicit Types (line rest gs : list ascii) (st : Round) (w : World).

Lemma skip_line_app line rest :
  newline ∉ line → skip_line (line ++ newline :: rest) = rest.
Proof.
  induction line as [|c line IH]; intros Hnl; cbn [app skip_line].
  - by rewrite decide_True.
  - apply not_elem_of_cons in Hnl as [Hc Hnl]. rewrite decide_False by done.
    by apply IH.
Qed.

(** The verdict on what [fgets] stored of a line that ends in a newline. *)
Lemma validate_guess_stored line :
  newline ∉ line → NUL ∉ line →
  validate_guess (if decide (length line < 9)%nat
                  then (line ++ [newline]) ++ [NUL] else take 9 line ++ [NUL])
  = Some (normalizeGuess_untrimmed line).
Proof.
  intros Hnl Hnul. unfold validate_guess. case_decide as Hshort.
  - rewrite (strlen_terminated (line ++ [newline]) []).
    + rewrite length_app. simpl.
      destruct line as [|c [|c' line]]; simpl; [done| |].
      * by destruct (isalpha (tolower c)).
      * by rewrite decide_True by lia.
    + rewrite elem_of_app, list_elem_of_singleton. by intros [?|?].
  - rewrite (strlen_terminated (take 9 line) []).
    + rewrite length_take. cbn [mbind option_bind].
      rewrite decide_True by lia.
      by destruct line as [|? [|? ?]]; simpl in *; [lia..|].
    + intros (j & Hj & _)%elem_of_take. apply Hnul.
      by eapply list_elem_of_lookup_2.
Qed.

End TurnInput.

(** X12.  A turn on a line that ends in a newline.  A new letter is applied
    and uses up its line only.  Any other line is rejected and leaves the
    round as it was; the pause that follows then discards input up to the
    next newline: the rest of the line when it was longer than eight bytes,
    and otherwise the whole of the following line. *)
Theorem turn_consumes_input (word : list ascii) (maxIncorrect : Z)
    (gs : list ascii) (st : Round) (w : World) (line rest : list ascii) :
  played word maxIncorrect gs st → gameOver st = false →
  newline ∉ line → NUL ∉ line → stdin w = line ++ newline :: rest →
  ∃ st' w',
    turn st w = Some (st', w')
    ∧ (∀ c, line = [c] → isalpha c = true → tolower c ∉ gs →
         st' = game_over_checked (applied st (tolower c)) ∧ stdin w' = rest)
    ∧ ((∀ c, line = [c] → isalpha c = true → tolower c ∈ gs) →
         st' = st
         ∧ last (stdout w') = Some MsgPressEnter
         ∧ stdin w' = if decide (length line < 9)%nat then skip_line rest
                      else rest).
Proof.
  intros Hplayed Hover Hnl Hnul Hin.
  pose proof (played_inv _ _ _ _ Hplayed) as H.
  pose proof (validate_guess_stored line Hnl Hnul) as Hv.
  unfold turn. set (w0 := print MsgPromptGuess (print (screen st) w)).
  rewrite (fgets_line w0 line rest Hnl Hin).
  set (buf := if decide (length line < 9)%nat
              then (line ++ [newline]) ++ [NUL] else take 9 line ++ [NUL]) in *.
  set (left := if decide (length line < 9)%nat then rest
               else drop 9 line ++ newline :: rest).
  assert ((if decide (length line < 9)%nat
           then (Some ((line ++ [newline]) ++ [NUL]), set_stdin rest w0)
           else (Some (take 9 line ++ [NUL]),
                 set_stdin (drop 9 line ++ newline :: rest) w0))
          = (Some buf, set_stdin left w0)) as -> by (unfold buf, left; by case_decide).
  assert (skip_line left
          = if decide (length line < 9)%nat then skip_line rest else rest) as Hleft.
  { unfold left. case_decide; [done|]. apply skip_line_app.
    intros Hd. apply Hnl. apply list_elem_of_lookup in Hd as [i Hd].
    rewrite lookup_drop in Hd. by eapply list_elem_of_lookup_2. }
  assert (∀ e, guess_step st buf = Some (st, Rejected e, [error_message e]) ∨
               (∃ g, guess_step st buf
                     = Some (st, Rejected e, [MsgAlreadyGuessed g])) →
          (∀ c, line = [c] → isalpha c = true → tolower c ∈ gs) →
          ∃ st' w' : _,
            (guess_step st buf ≫= λ '(st', r, out),
               match r with
               | Rejected _ => Some (st', pauseForUser (prints out (set_stdin left w0)))
               | Applied _ => Some (st', prints out (set_stdin left w0))
               end) = Some (st', w')
            ∧ (∀ c, line = [c] → isalpha c = true → tolower c ∉ gs →
                 st' = game_over_checked (applied st (tolower c)) ∧ stdin w' = rest)
            ∧ ((∀ c, line = [c] → isalpha c = true → tolower c ∈ gs) →
                 st' = st
                 ∧ last (stdout w') = Some MsgPressEnter
                 ∧ stdin w' = if decide (length line < 9)%nat then skip_line rest
                              else rest)) as Hrejected.
  { intros e Hstep Hold.
    assert (∃ out, guess_step st buf = Some (st, Rejected e, out)) as [out ->]
      by (destruct Hstep as [->|[g ->]]; by eexists).
    cbn [mbind option_bind]. eexists _, _. split_and!; [done| |].
    - intros c Hc Halpha Hnew. destruct Hnew. by eapply Hold.
    - intros _. split_and!; [done| |done].
      unfold pauseForUser, consumeRemainingInput. simpl.
      apply last_snoc. }
  destruct line as [|c [|c' line]].
  - apply (Hrejected InvalidFormatError); [|done].
    left. by apply guess_step_invalid.
  - simpl in Hv. destruct (isalpha (tolower c)) eqn:Halpha.
    + destruct (decide (tolower c ∈ gs)) as [Hold|Hnew].
      * apply (Hrejected DuplicateGuessError).
        -- right. exists (tolower c). by eapply guess_step_duplicate.
        -- by intros ? [= <-] _.
      * rewrite (guess_step_new _ _ _ _ _ _ H Hover Hv Hnew).
        cbn [mbind option_bind]. eexists _, _. split_and!; [done| |].
        -- by intros ? [= <-] _ _.
        -- intros Hold. destruct Hnew. apply (Hold c); [done|].
           by rewrite <- isalpha_tolower_iff.
    + apply (Hrejected InvalidLetterError).
      * left. by apply guess_step_invalid.
      * intros ? [= <-] Hc. by rewrite <- isalpha_tolower_iff, Halpha in Hc.
  - apply (Hrejected InvalidFormatError); [|done].
    left. by apply guess_step_invalid.
Qed.

Lemma turn_consumes_input_witness :
  ∃ st' w',
    turn round_cat_a
      (world_of (chars "cat" ++ newline :: chars "t" ++ [newline; "c"])
                (λ _, 0%nat))
    = Some (st', w')
    ∧ (∀ c, chars "cat" = [c] → isalpha c = true → tolower c ∉ chars "a" →
         st' = game_over_checked (applied round_cat_a (tolower c))
         ∧ stdin w' = chars "t" ++ [newline; "c"])
    ∧ ((∀ c, chars "cat" = [c] → isalpha c = true → tolower c ∈ chars "a") →
         st' = round_cat_a
         ∧ last (stdout w') = Some MsgPressEnter
         ∧ stdin w' = if decide (length (chars "cat") < 9)%nat
                      then skip_line (chars "t" ++ [newline; "c"])
                      else chars "t" ++ [newline; "c"]).
Proof.
  apply (turn_consumes_input (chars "cat") 6 (chars "a") round_cat_a
           (world_of (chars "cat" ++ newline :: chars "t" ++ [newline; "c"])
                     (λ _, 0%nat))
           (chars "cat") (chars "t" ++ [newline; "c"])).
  - exact played_cat_a.
  - reflexivity.
  - intros Hin. cbv [chars list_ascii_of_string] in Hin.
    repeat (apply elem_of_cons in Hin as [Hin|Hin]; [discriminate Hin|]).
    by apply elem_of_nil in Hin.
  - intros Hin. cbv [chars list_ascii_of_string] in Hin.
    repeat (apply elem_of_cons in Hin as [Hin|Hin]; [discriminate Hin|]).
    by apply elem_of_nil in Hin.
  - reflexivity.
Defined.

(** * The end of the draft's round *)

Section DraftBound.

Context (word : list ascii).
Implicit Types (gs : list ascii) (st : Round) (w : World).

(** The test of 355-362 uses the mistakes counted before the guess. *)
Lemma draft_turn_bound gs st w st' w' :
  RoundInv word MAX_INCORRECT_GUESSES gs st → gameOver st = false →
  incorrectGuesses st ≤ 6 →
  Draft.turn st w = Some (st', w') →
  ∃ gs', RoundInv word MAX_INCORRECT_GUESSES gs' st'
         ∧ incorrectGuesses st' ≤ 7
         ∧ (gameOver st' = false → incorrectGuesses st' ≤ 6)
         ∧ (gameOver st' = true → incorrectGuesses st' < 6 → stdin w' = []).
Proof.
  intros H Hover Hle. unfold Draft.turn.
  set (w0 := print MsgPromptGuess (print (screen st) w)).
  destruct (fgets_cases INPUT_BUFFER_SIZE w0)
    as [[Hnil ->]|(cs & rest & Hin & _ & _ & ->)].
  { intros [= <- <-]. exists gs.
    split_and!; [by apply set_gameOver_inv|simpl; lia|done|done]. }
  destruct (validate_guess_total (cs ++ [NUL])) as [[e|g] Hv].
  { apply elem_of_app. right. apply list_elem_of_here. }
  - rewrite Hv. cbn [mbind option_bind]. intros Hturn.
    assert (st' = st) as -> by (destruct e; congruence).
    exists gs. split_and!; [done|lia|done|congruence].
  - rewrite Hv. cbn [mbind option_bind].
    pose proof (validate_guess_lower _ _ Hv) as Hg.
    destruct (decide (g ∈ gs)) as [Hdup|Hnew].
    { rewrite (apply_guess_duplicate _ _ _ _ _ H Hdup). cbn [mbind option_bind].
      intros [= <- <-]. exists gs. split_and!; [done|lia|done|congruence]. }
    rewrite (apply_guess_new _ _ _ _ _ H Hg Hnew). cbn [mbind option_bind].
    pose proof (applied_inv _ _ _ _ _ H Hover Hg Hnew) as H1.
    assert (incorrectGuesses st ≤ incorrectGuesses (applied st g)
            ≤ incorrectGuesses st + 1) as Hstep
      by (unfold applied; simpl; case_decide; lia).
    assert (gameOver (applied st g) = false) as Hover1 by done.
    rewrite Hover1. unfold MAX_INCORRECT_GUESSES.
    case_bool_decide as Hrem; cbn [andb negb]; intros [= <- <-]; exists (gs ++ [g]).
    + change (incorrectGuesses (set_gameOver (applied st g)))
        with (incorrectGuesses (applied st g)).
      split_and!; [by apply set_gameOver_inv|lia|done|lia].
    + split_and!; [done|lia|lia|congruence].
Qed.

Lemma draft_game_loop_bound fuel : ∀ gs st w st' w',
  RoundInv word MAX_INCORRECT_GUESSES gs st → gameOver st = false →
  incorrectGuesses st ≤ 6 →
  Draft.game_loop fuel st w = Some (st', w') →
  gameOver st' = true
  ∧ 0 ≤ incorrectGuesses st' ≤ 7
  ∧ (incorrectGuesses st' < 6 → stdin w' = []).
Proof.
  induction fuel as [|fuel IH]; intros gs st w st' w' H Hover Hle Hloop.
  { simpl in Hloop. by rewrite Hover in Hloop. }
  cbn [Draft.game_loop] in Hloop. rewrite Hover in Hloop.
  destruct (Draft.turn st w) as [[st1 w1]|] eqn:Hturn; [|done].
  cbn [mbind option_bind] in Hloop.
  destruct (draft_turn_bound _ _ _ _ _ H Hover Hle Hturn)
    as (gs1 & H1 & Hle1 & Hgo & Hend).
  destruct (gameOver st1) eqn:Hover1.
  - assert (st' = st1 ∧ w' = w1) as [-> ->]
      by (destruct fuel; simpl in Hloop; rewrite Hover1 in Hloop; by simplify_eq).
    split_and!; [done| |lia|by apply Hend].
    rewrite (inv_incorrect _ _ _ _ H1). lia.
  - by apply (IH gs1 st1 w1); [|done|apply Hgo|].
Qed.

End DraftBound.

(** X13.  The draft's round always ends, with [gameOver] set and at most
    seven mistakes (one more than the six announced).  It never ends before
    the sixth mistake unless the input does: a complete word does not end
    it. *)
Theorem draft_round_ends_late (word : list ascii) (w : World) :
  ∃ st w',
    Draft.play word w = Some (st, w')
    ∧ gameOver st = true
    ∧ 0 ≤ incorrectGuesses st ≤ 7
    ∧ (incorrectGuesses st < 6 → stdin w' = []).
Proof.
  unfold Draft.play.
  set (w0 := print (MsgDebugWord word MAX_INCORRECT_GUESSES) w).
  destruct (draft_game_loop_total word (S (length (stdin w0))) []
              (init_round word MAX_INCORRECT_GUESSES) w0)
    as (st & w' & gs & out & Hloop & _); [apply init_round_inv|done|lia|].
  rewrite Hloop. cbn [mbind option_bind].
  destruct (draft_game_loop_bound word _ _ _ _ _ _
              (init_round_inv word MAX_INCORRECT_GUESSES) eq_refl
              ltac:(simpl; lia) Hloop) as (Hover & Hrange & Hend).
  by eexists _, _.
Qed.

(** * The round that is not won *)

Section LostRound.

Context (word : list ascii) (maxIncorrect : Z).
Implicit Types (gs : list ascii) (g c : ascii) (st : Round).

Lemma pattern_miss gs g : g ∉ word → pattern word (gs ++ [g]) = pattern word gs.
Proof.
  intros Hg. unfold pattern. apply list_fmap_ext. intros i c Hc.
  rewrite reveal_snoc, decide_False; [done|].
  intros ->. apply Hg. by eapply list_elem_of_lookup_2.
Qed.

(** Until the round is won, a placeholder is on display. *)
Lemma played_not_won gs st :
  word ≠ [] → 0 < maxIncorrect → played word maxIncorrect gs st →
  playerWon st = false → placeholder ∈ displayWord st.
Proof.
  intros Hword Hmax Hplayed.
  induction Hplayed as [|gs st line st' Hplayed IH Hover Hturn]; intros Hwon'.
  { by apply (played_in_progress word maxIncorrect [] _ Hword (played_init _ _)). }
  pose proof (played_inv _ _ _ _ Hplayed) as H.
  specialize (IH (inv_flags _ _ _ _ H Hover)).
  destruct (turn_state_cases _ _ _ _ _ _ Hplayed Hover Hturn)
    as [[-> _]|[[-> _]|(g & _ & _ & _ & -> & H1)]]; [done|done|].
  destruct (played_bounds _ _ _ _ Hplayed Hmax) as (_ & Hbelow & _).
  specialize (Hbelow Hover).
  destruct (checked_fields (applied st g)) as (_ & _ & -> & _).
  revert Hwon'. unfold game_over_checked.
  rewrite (inv_max _ _ _ _ H1).
  destruct (decide (incorrectGuesses (applied st g) = maxIncorrect)) as [Hlast|_].
  - intros _. assert (g ∉ word) as Hmiss.
    { intros Hin. revert Hlast. unfold applied. simpl.
      rewrite (inv_word _ _ _ _ H), decide_True by done. lia. }
    rewrite (inv_display _ _ _ _ H1), pattern_miss by done.
    by rewrite <- (inv_display _ _ _ _ H).
  - by destruct (decide (placeholder ∈ displayWord (applied st g))).
Qed.

End LostRound.

(** X14.  A round that ends lost, on a non-empty word and with a positive
    allowance, still hides a letter: a placeholder is on display and a
    letter of the word was not guessed.  So a round is won exactly when no
    placeholder is left on display. *)
Theorem lost_round_hides_a_letter (word : list ascii) (maxIncorrect : Z)
    (gs : list ascii) (st : Round) :
  played word maxIncorrect gs st → word ≠ [] → 0 < maxIncorrect →
  status st = Lost →
  placeholder ∈ displayWord st
  ∧ (∃ c, c ∈ word ∧ c ∉ gs)
  ∧ final_message st = MsgSorry word.
Proof.
  intros Hplayed Hword Hmax Hlost.
  pose proof (played_inv _ _ _ _ Hplayed) as H.
  assert (playerWon st = false) as Hwon.
  { unfold status in Hlost. destruct (gameOver st); [|done].
    by destruct (playerWon st). }
  pose proof (played_not_won _ _ _ _ Hword Hmax Hplayed Hwon) as Hph.
  assert (∃ c, c ∈ word ∧ c ∉ gs) as (c & Hc & Hnew).
  { rewrite (inv_display _ _ _ _ H), placeholder_in_display in Hph.
    apply list_elem_of_fmap in Hph as (c & Hrev & Hc). exists c. split; [done|].
    intros Hin. unfold reveal in Hrev. rewrite decide_True in Hrev by done.
    subst c. eapply lower_not_placeholder; [|done].
    by eapply Forall_forall; [apply (inv_lower _ _ _ _ H)|]. }
  split_and!; [done|by exists c|].
  - unfold final_message. by rewrite Hwon, (inv_word _ _ _ _ H).
Qed.

Lemma lost_round_hides_a_letter_witness :
  placeholder ∈ displayWord (set_gameOver (init_round (chars "cat") 6))
  ∧ (∃ c, c ∈ chars "cat" ∧ c ∉ [])
  ∧ final_message (set_gameOver (init_round (chars "cat") 6))
    = MsgSorry (chars "cat").
Proof.
  apply (lost_round_hides_a_letter (chars "cat") 6 []
           (set_gameOver (init_round (chars "cat") 6))).
  - exact (played_turn (chars "cat") 6 [] _ None _ (played_init _ _)
             eq_refl eq_refl).
  - discriminate.
  - lia.
  - reflexivity.
Defined.

(** * The answer to "Play Again?" *)

(** X15.  Of the answer to "Play Again?" only the first byte counts: the
    session goes on exactly when the line begins with y or Y (an empty line
    ends it).  At most nine bytes of the line are read and nothing is
    discarded, so what is left of a longer answer is the next line of
    input. *)
Theorem play_again_first_byte (w : World) (line rest : list ascii) :
  newline ∉ line → stdin w = line ++ newline :: rest →
  ∃ playAgain w',
    play_again w = Some (playAgain, w')
    ∧ (playAgain = "y" ↔ ∃ tail, line = "y" :: tail ∨ line = "Y" :: tail)
    ∧ stdin w' = (if decide (length line < 9)%nat then rest
                  else drop 9 line ++ newline :: rest)
    ∧ stdout w' = stdout w ++ [MsgPlayAgain].
Proof.
  intros Hnl Hin.
  destruct (line ++ newline :: rest) as [|c input] eqn:Hline;
    [by destruct line|].
  destruct (play_again_answer w c input Hin)
    as (playAgain & w' & Hplay & Hy & Hout & _).
  exists playAgain, w'. split_and!; [done| | |done].
  - rewrite Hy. destruct line as [|c' line]; simplify_eq/=.
    + split; [by intros [?|?]|by intros [? [?|?]]].
    + split; [intros [->| ->]; eexists; eauto|].
      intros [tail [?|?]]; simplify_eq; auto.
  - rewrite <- Hline in Hin. revert Hplay. unfold play_again.
    rewrite (fgets_line (print MsgPlayAgain w) line rest Hnl Hin).
    case_decide; cbn [fst snd];
      (destruct (strlen _) as [n|]; [|done]); cbn [mbind option_bind];
      (destruct (decide (0 < n)%nat); [destruct (_ !! 0%nat); [|done]|]);
      cbn [mbind option_bind]; by intros [= <- <-].
Qed.

Lemma play_again_first_byte_witness :
  ∃ playAgain w',
    play_again (world_of (chars "Yes, once more" ++ newline :: chars "2")
                         (λ _, 0%nat))
    = Some (playAgain, w')
    ∧ (playAgain = "y"
       ↔ ∃ tail, chars "Yes, once more" = "y" :: tail
                 ∨ chars "Yes, once more" = "Y" :: tail)
    ∧ stdin w' = (if decide (length (chars "Yes, once more") < 9)%nat
                  then chars "2"
                  else drop 9 (chars "Yes, once more") ++ newline :: chars "2")
    ∧ stdout w' = stdout (world_of (chars "Yes, once more" ++ newline :: chars "2")
                                   (λ _, 0%nat)) ++ [MsgPlayAgain].
Proof.
  apply (play_again_first_byte
           (world_of (chars "Yes, once more" ++ newline :: chars "2") (λ _, 0%nat))
           (chars "Yes, once more") (chars "2")).
  - intros Hin. cbv [chars list_ascii_of_string] in Hin.
    repeat (apply elem_of_cons in Hin as [Hin|Hin]; [discriminate Hin|]).
    by apply elem_of_nil in Hin.
  - reflexivity.
Defined.

(** * Lines longer than the buffer *)

Section LongLines.

Implicit Types (p tail rest : list ascii) (parts ws wordList : list (list ascii)).

Lemma read_chars_prefix p : ∀ rest,
  newline ∉ p → read_chars (length p) (p ++ rest) = (p, rest).
Proof.
  induction p as [|c p IH]; intros rest Hnl; [done|].
  apply not_elem_of_cons in Hnl as [Hc Hnl]. cbn [length app read_chars].
  rewrite decide_False by done. by rewrite IH.
Qed.

Lemma file_gets_chunk p rest :
  newline ∉ p → length p = 99%nat →
  file_gets MAX_WORD_LENGTH (p ++ rest) = Some (p ++ [NUL], rest).
Proof.
  intros Hnl Hlen. unfold file_gets.
  destruct (p ++ rest) as [|c input] eqn:Heq; [by destruct p|].
  rewrite <- Heq. change (MAX_WORD_LENGTH - 1)%nat with 99%nat.
  by rewrite <- Hlen, read_chars_prefix.
Qed.

(** Chunks of 99 bytes in front of a text: each is one more line counted
    and one more word. *)
Lemma passes_on_parts tail (n : nat) ws parts :
  Forall (λ p, length p = 99%nat ∧ (newline ∉ p) ∧ (NUL ∉ p)) parts →
  (∀ fuel, (n ≤ fuel)%nat → Z.of_nat n ≤ INT_MAX →
     count_lines fuel tail = Some (Z.of_nat n)) →
  (∀ fuel lineCount wordList i,
     (n ≤ fuel)%nat → 0 ≤ i → i + Z.of_nat n ≤ lineCount → lineCount ≤ INT_MAX →
     read_words fuel lineCount tail wordList i
     = Some (wordList ++ ws, i + Z.of_nat (length ws))) →
  (∀ fuel, (length parts + n ≤ fuel)%nat →
     Z.of_nat (length parts + n) ≤ INT_MAX →
     count_lines fuel (concat parts ++ tail)
     = Some (Z.of_nat (length parts + n)))
  ∧ (∀ fuel lineCount wordList i,
       (length parts + n ≤ fuel)%nat → 0 ≤ i →
       i + Z.of_nat (length parts + n) ≤ lineCount → lineCount ≤ INT_MAX →
       read_words fuel lineCount (concat parts ++ tail) wordList i
       = Some (wordList ++ parts ++ ws, i + Z.of_nat (length (parts ++ ws)))).
Proof.
  intros Hparts Hcount Hread.
  induction Hparts as [|p parts (Hlen & Hnl & Hnul) _ [IHc IHr]]; [done|].
  cbn [concat length]. rewrite <- app_assoc.
  set (rest := concat parts ++ tail) in *. split.
  - intros [|fuel] Hfuel Hmax; [simpl in Hfuel; lia|].
    cbn [count_lines]. rewrite file_gets_chunk by done.
    rewrite IHc by (simpl in *; lia). cbn [mbind option_bind].
    rewrite int_succ_small by (simpl in *; lia). f_equal. simpl. lia.
  - intros [|fuel] lineCount wordList i Hfuel Hi Hle Hmax; [simpl in Hfuel; lia|].
    cbn [read_words]. rewrite file_gets_chunk by done.
    rewrite decide_False by (simpl in *; lia).
    rewrite strip_newline_unterminated by done. cbn [mbind option_bind].
    rewrite decide_False by lia.
    rewrite int_succ_small by (simpl in *; lia). cbn [mbind option_bind].
    rewrite take_app_length, IHr by (simpl in *; lia).
    rewrite <- app_assoc. cbn [app length]. do 2 f_equal. lia.
Qed.

Lemma length_concat_parts parts :
  Forall (λ p, length p = 99%nat ∧ (newline ∉ p) ∧ (NUL ∉ p)) parts →
  (length parts ≤ length (concat parts))%nat.
Proof.
  induction 1 as [|p parts (Hlen & _) _ IH]; [done|].
  cbn [concat length]. rewrite length_app. lia.
Qed.

End LongLines.

(** X16.  A line longer than the buffer is not rejected and not cut short:
    [fgets] hands it over in pieces of 99 bytes, and each piece is loaded
    as a word of its own, the remainder of the line as the last. *)
Theorem loadWords_long_line (parts : list (list ascii)) (last : list ascii) :
  Forall (λ p, length p = 99%nat ∧ (newline ∉ p) ∧ (NUL ∉ p)) parts →
  parts ≠ [] → plain_line last →
  Z.of_nat (length (concat parts ++ last ++ [newline])) < INT_MAX →
  loadWords (Some (concat parts ++ last ++ [newline]))
  = Some (Some (parts ++ (if decide (last = []) then [] else [last])),
          Z.of_nat (length parts + (if decide (last = []) then 0 else 1))).
Proof.
  intros Hparts Hne Hlast Hmax.
  assert (plain_line []) as Hnil.
  { unfold plain_line. split_and!; [by intros ?%elem_of_nil..|simpl; lia]. }
  destruct (passes_on_text [] [last] Hnil ltac:(constructor; [done|constructor]))
    as (n & Hn & Hzero & Hcount & Hread).
  assert (unlines [last] ++ [] = last ++ [newline]) as Htail
    by (unfold unlines; simpl; by rewrite !app_nil_r).
  rewrite Htail in Hn, Hcount, Hread.
  assert (filter (λ l, l ≠ []) ([last] ++ [[]])
          = if decide (last = []) then [] else [last]) as Hfilter.
  { cbn [app]. case_decide as Hl.
    - subst last. by rewrite !filter_cons_False by (by intros ?).
    - rewrite filter_cons_True by done. by rewrite filter_cons_False by (by intros ?). }
  rewrite Hfilter in Hread.
  destruct (passes_on_parts _ n _ parts Hparts Hcount Hread) as [Hc Hr].
  pose proof (length_concat_parts parts Hparts) as Hlen.
  rewrite !length_app in Hmax. rewrite length_app in Hn.
  unfold loadWords.
  rewrite Hc by (rewrite ?length_app; lia). cbn [mbind option_bind].
  rewrite decide_False by (destruct parts; [done|simpl; lia]).
  rewrite Hr by (rewrite ?length_app; lia). cbn [mbind option_bind app].
  do 3 f_equal. rewrite length_app. case_decide; simpl; lia.
Qed.

Lemma loadWords_long_line_witness :
  loadWords (Some (concat [replicate 99 "a"] ++ chars "bc" ++ [newline]))
  = Some (Some ([replicate 99 "a"]
                ++ (if decide (chars "bc" = []) then [] else [chars "bc"])),
          Z.of_nat (length [replicate 99 "a"]
                    + (if decide (chars "bc" = []) then 0 else 1))).
Proof.
  apply (loadWords_long_line [replicate 99 "a"] (chars "bc")).
  - constructor; [|constructor]. split_and!.
    + apply length_replicate.
    + by intros [? _]%elem_of_replicate.
    + by intros [? _]%elem_of_replicate.
  - discriminate.
  - split_and!; [| |simpl; lia]; intros Hin; cbv [chars list_ascii_of_string] in Hin;
      repeat (apply elem_of_cons in Hin as [Hin|Hin]; [discriminate Hin|]);
      by apply elem_of_nil in Hin.
  - vm_compute. reflexivity.
Defined.
